(** * Element-local residual and MPFA-O velocity: a shallow embedding

    This development embeds two pieces of the simulator:

    - [BoxLocalResidual] (dumux/boxmodels/common/boxlocalresidual.hh), the
      element-wise residual of the box scheme;
    - [FVMPFAOVelocity2P::calculateVelocity]
      (dumux/decoupled/2p/diffusion/fvmpfa/fvmpfaovelocity2p.hh), the
      velocity reconstruction of the MPFA O-method.

    Conventions.  The template parameter [Scalar] is taken to be the field
    of exact rationals [Qc] (canonical fractions, Leibniz equality), where
    the compiled code computes with [double].  A statement that gives a
    result by its formula reads the same in both arithmetics, up to the
    rounding of each operation.  Two differences are kept in view.  Sums
    cancel exactly in [Qc] and only up to rounding in [double]: a statement
    that needs exact cancellation says that it is one about exact arithmetic,
    and the flux pass is given a second time for any type of scalars
    ([AnyScalar]) and run on binary64 numbers.  And the quotient [x / 0] is
    [0] in [Qc], where a [double] becomes infinite or not a number: a
    theorem that states a value computed with a quotient assumes the divisor
    other than zero; the one exception, the relative difference of the
    conservation check, is discussed where it is defined.
    Counters and indices ([int] in the source, never negative where they
    are used as indices) are [nat].  Fixed-size [Dune::FieldVector]s and
    resizable block vectors are lists; every indexed access is a lookup
    that fails when the index is out of range, which in the source is
    undefined behaviour.  A pointer field that may be null is an [option].
    The operations of [Dune::FieldVector] and [Dune::FieldMatrix], a library
    outside the repository, follow the documentation of that library.

    The definitions come first: the two embeddings, the vocabulary of the
    statements, and the concrete elements and grids on which the theorems
    are exercised.  The lemmas and theorems follow. *)

From Stdlib Require Import QArith Qcanon Qcabs Floats.
From stdpp Require Import base option list numbers strings.

Local Open Scope Qc_scope.

Abbreviation Scalar := Qc (only parsing).

(** The fractions behind a vector, a matrix or a field of vectors of
    scalars, for stating concrete results. *)
Definition fractions (v : list Scalar) : list Q := this <$> v.
Definition fractions2 (M : list (list Scalar)) : list (list Q) :=
  fractions <$> M.
Definition fractions3 (F : list (list (list Scalar)))
  : list (list (list Q)) :=
  fractions2 <$> F.

(** ** Counted loops in the error monad *)

(** [for (k = k0, k1, ...) body], threading the state and stopping at the
    first failure. *)
Fixpoint forM_ {A S : Type} (ks : list A) (body : A → S → option S) (s : S)
  : option S :=
  match ks with
  | [] => Some s
  | k :: ks' => s' ← body k s; forM_ ks' body s'
  end.

(** [for (int k = 0; k < n; ++k) body]. *)
Definition for_range {S : Type} (n : nat) (body : nat → S → option S) (s : S)
  : option S :=
  forM_ (seq 0 n) body s.

(** ** Dune::FieldVector *)

Module FieldVector.

(** [FieldVector<Scalar,n> v(c)] *)
Definition const (n : nat) (c : Scalar) : list Scalar := replicate n c.

(** [v += w] *)
Definition add (v w : list Scalar) : list Scalar := zip_with Qcplus v w.

(** [v -= w] *)
Definition sub (v w : list Scalar) : list Scalar := zip_with Qcminus v w.

(** [v *= s] *)
Definition scale (v : list Scalar) (s : Scalar) : list Scalar :=
  (λ x, x * s) <$> v.

(** [v * w], the scalar product *)
Definition dot (v w : list Scalar) : Scalar :=
  foldr Qcplus 0 (zip_with Qcmult v w).

End FieldVector.

(** ** Dune::FieldMatrix *)

Module FieldMatrix.

(** [FieldMatrix<Scalar,n,m> M(0)] *)
Definition zero (n m : nat) : list (list Scalar) :=
  replicate n (replicate m 0).

(** [M[i][j] = x], for indices inside the matrix *)
Definition set (i j : nat) (x : Scalar) (M : list (list Scalar))
  : list (list Scalar) :=
  alter (λ row, <[j := x]> row) i M.

(** [M[i][j]] as a value, zero outside the matrix *)
Definition get (M : list (list Scalar)) (i j : nat) : Scalar :=
  default 0 (row ← M !! i; row !! j).

(** [M.mv(x, y)]: y = M x *)
Definition mv (M : list (list Scalar)) (x : list Scalar) : list Scalar :=
  (λ row, FieldVector.dot row x) <$> M.

(** [M.umv(x, y)]: y += M x *)
Definition umv (M : list (list Scalar)) (x y : list Scalar) : list Scalar :=
  FieldVector.add y (mv M x).

(** [M += N] *)
Definition add (M N : list (list Scalar)) : list (list Scalar) :=
  zip_with FieldVector.add M N.

Definition column (N : list (list Scalar)) (j : nat) : list Scalar :=
  (λ row, default 0 (row !! j)) <$> N.

(** The product of two square matrices of the same size:
    [(M N)[i][j] = sum_k M[i][k] * N[k][j]]. *)
Definition mul (M N : list (list Scalar)) : list (list Scalar) :=
  (λ row, (λ j, FieldVector.dot row (column N j)) <$> seq 0 (length N)) <$> M.

(** [M.rightmultiply(N)]: M becomes M N; the new M is returned. *)
Definition rightmultiply (M N : list (list Scalar)) : list (list Scalar) :=
  mul M N.

(** [M.leftmultiply(N)]: M becomes N M; the new M is returned. *)
Definition leftmultiply (M N : list (list Scalar)) : list (list Scalar) :=
  mul N M.

Definition sign (k : nat) : Scalar := if Nat.even k then 1 else - (1).

(** Determinant of the leading [n] rows by expansion along the first row. *)
Fixpoint det (n : nat) (M : list (list Scalar)) : Scalar :=
  match n with
  | O => 1
  | S n' =>
      match M with
      | [] => 0
      | row :: rest =>
          foldr Qcplus 0
            (imap (λ j x, sign j * x * det n' (delete j <$> rest)) row)
      end
  end.

Definition minor (i j : nat) (M : list (list Scalar)) : list (list Scalar) :=
  delete j <$> delete i M.

(** [M.invert()].  Dune computes the inverse by an LU decomposition with
    pivoting; in exact arithmetic that is the matrix of cofactors over the
    determinant.  For a singular matrix the source divides by a pivot that
    is zero and continues with numbers that are infinite or not numbers
    (or raises [FMatrixError] when Dune is built with its checks); the
    quotients by the determinant are zero then, which is not what the
    source computes: the statements on the inverse assume a determinant
    other than zero. *)
Definition invert (M : list (list Scalar)) : list (list Scalar) :=
  let n := length M in
  let d := det n M in
  (λ i, (λ j, sign (i + j) * det (pred n) (minor j i M) / d) <$> seq 0 n)
    <$> seq 0 n.

(** The sum [f 0 + ... + f (n - 1)]. *)
Definition sumTo (n : nat) (f : nat → Scalar) : Scalar :=
  foldr (λ k acc, f k + acc) 0 (seq 0 n).

(** A matrix with [n] rows of [n] entries. *)
Definition isSquare (n : nat) (M : list (list Scalar)) : Prop :=
  length M = n ∧ Forall (λ row, length row = n) M.

(** The unit matrix. *)
Definition identity (n : nat) : list (list Scalar) :=
  (λ i, (λ j, if decide (i = j) then 1 else 0) <$> seq 0 n) <$> seq 0 n.

End FieldMatrix.

(** ** The box scheme: types *)

(** The property system: the types and constants a [TypeTag] resolves to. *)
Class TypeTag := {
  numEq : nat;
  Problem : Type;
  Element : Type;
  Vertex : Type;
  Intersection : Type;
  VolumeVariables : Type;
}.

Abbreviation PrimaryVariables := (list Scalar) (only parsing).
Abbreviation ElementSolutionVector := (list (list Scalar)) (only parsing).

(** [FVElementGeometry] is declared outside the sources at hand; these
    records have the members that the local residual reads, under the names
    by which it reads them ([subContVolFace[k].i] is [scvf_i]). *)
Record SubControlVolume := { volume : Scalar }.
Record SubControlVolumeFace := { scvf_i : nat; scvf_j : nat }.
Record BoundaryFace := { area : Scalar }.

Record FVElementGeometry := {
  numVertices : nat;
  numEdges : nat;
  subContVol : list SubControlVolume;
  subContVolFace : list SubControlVolumeFace;
  boundaryFace : list BoundaryFace;
  boundaryFaceIndex : nat → nat → nat;
}.

(** Modelled from the spec: the class [BoundaryTypes] is not part of the
    sources at hand.  It carries exactly one classification per equation
    (none, Dirichlet or Neumann); [eqToDirichletIndex], which the source
    calls, gives the primary variable that a Dirichlet equation fixes. *)
Inductive BoundaryKind := bcNone | bcDirichlet | bcNeumann.

Record BoundaryTypes := {
  boundaryKind : nat → BoundaryKind;
  eqToDirichletIndex : nat → nat;
}.

Definition isDirichlet (bc : BoundaryTypes) (eqIdx : nat) : bool :=
  match boundaryKind bc eqIdx with bcDirichlet => true | _ => false end.

Definition isNeumann (bc : BoundaryTypes) (eqIdx : nat) : bool :=
  match boundaryKind bc eqIdx with bcNeumann => true | _ => false end.

Abbreviation ElementBoundaryTypes := (list BoundaryTypes) (only parsing).

Section BoxTypes.
Context `{TypeTag}.

(** Modelled from the spec: [BoundaryTypes::hasDirichlet()] and
    [hasNeumann()] hold when some equation has that classification. *)
Definition hasDirichlet (bc : BoundaryTypes) : bool :=
  existsb (isDirichlet bc) (seq 0 numEq).

Definition hasNeumann (bc : BoundaryTypes) : bool :=
  existsb (isNeumann bc) (seq 0 numEq).

(** Modelled from the spec: [ElementBoundaryTypes::hasDirichlet()] and
    [hasNeumann()] hold when some sub-control volume of the element has
    such a condition. *)
Definition elemHasDirichlet (bcs : ElementBoundaryTypes) : bool :=
  existsb hasDirichlet bcs.

Definition elemHasNeumann (bcs : ElementBoundaryTypes) : bool :=
  existsb hasNeumann bcs.

(** The pointer fields of [BoxLocalResidual], valid during one call. *)
Record Pointers := {
  elemPtr_ : option Element;
  fvElemGeomPtr_ : option FVElementGeometry;
  prevVolVarsPtr_ : option (list VolumeVariables);
  curVolVarsPtr_ : option (list VolumeVariables);
  bcTypesPtr_ : option ElementBoundaryTypes;
}.

(** The evaluator object.  [problemPtr_] is fixed by [init]; the problem it
    points to is shared with the caller and is passed explicitly to every
    function below. *)
Record BoxLocalResidual := {
  residual_ : ElementSolutionVector;
  ptrs_ : Pointers;
}.

Definition setResidual (r : ElementSolutionVector) (self : BoxLocalResidual)
  : BoxLocalResidual :=
  {| residual_ := r; ptrs_ := ptrs_ self |}.

End BoxTypes.

(** What the local residual asks of the problem and of the grid view. *)
Class ProblemInterface `{TypeTag} := {
  (** [problem_().timeManager().timeStepSize()] *)
  timeStepSize : Problem → Scalar;
  (** [problem_().dirichlet(tmp, vertex)]: the values left in [tmp] *)
  dirichlet : Problem → Vertex → PrimaryVariables;
  (** [problem_().neumann(values, elem, fvGeom, is, scvIdx, boundaryFaceIdx)]:
    the values left in [values], which is zero on entry *)
  neumann : Problem → Element → FVElementGeometry → Intersection →
          nat → nat → PrimaryVariables;
  (** [problem_().updateCouplingParams(element)] *)
  updateCouplingParams : Problem → Element → Problem;
  (** [gridView_().ibegin(elem) .. iend(elem)] *)
  intersections : Problem → Element → list Intersection;
  boundary : Intersection → bool;
  indexInInside : Intersection → nat;
  (** [elem.template subEntity<dim>(i)] *)
  subEntity : Element → nat → Vertex;
  (** [refElem.size(faceIdx, 1, dim)], [refElem.subEntity(faceIdx, 1, v, dim)]
    for the reference element of the element's geometry type *)
  refElemSize : Element → nat → nat;
  refElemSubEntity : Element → nat → nat → nat;
  (** [VolumeVariables::primaryVars()] *)
  primaryVars : VolumeVariables → PrimaryVariables;
  (** the [update] methods of the per-element containers *)
  fvGeomUpdate : Problem → Element → FVElementGeometry;
  volVarsUpdate : Problem → Element → FVElementGeometry → bool →
                list VolumeVariables;
  bcTypesUpdate : Problem → Element → FVElementGeometry →
                ElementBoundaryTypes;
}.

(** The model-specific local residual ([asImp_()]): each function reads the
    problem and the per-call pointers and fills the vector that it is
    passed by reference; the vector it leaves is the result here. *)
Class Implementation `{TypeTag} := {
  computeFlux : Problem → Pointers → nat → PrimaryVariables;
  computeStorage : Problem → Pointers → nat → bool → PrimaryVariables;
  computeSource : Problem → Pointers → nat → PrimaryVariables;
}.

(** ** The box scheme: the local residual *)

Section BoxLocalResidual.
Context `{TypeTag} `{!ProblemInterface} `{!Implementation}.

(** *** Accessors *)

Definition elem_ (self : BoxLocalResidual) : option Element :=
  elemPtr_ (ptrs_ self).

Definition fvElemGeom_ (self : BoxLocalResidual) : option FVElementGeometry :=
  fvElemGeomPtr_ (ptrs_ self).

Definition curVolVars_ (self : BoxLocalResidual) (i : nat)
  : option VolumeVariables :=
  vv ← curVolVarsPtr_ (ptrs_ self); vv !! i.

Definition curPrimaryVars_ (self : BoxLocalResidual) (i : nat)
  : option PrimaryVariables :=
  primaryVars <$> curVolVars_ self i.

Definition bcTypes_ (self : BoxLocalResidual) (i : nat)
  : option BoundaryTypes :=
  bcs ← bcTypesPtr_ (ptrs_ self); bcs !! i.

(** [residual_[i][eq]] read *)
Definition component (r : ElementSolutionVector) (i eq : nat)
  : option Scalar :=
  row ← r !! i; row !! eq.

(** [residual_[i][eq] = f(residual_[i][eq])] *)
Definition alterComponent (f : Scalar → Scalar) (i eq : nat)
    (r : ElementSolutionVector) : option ElementSolutionVector :=
  row ← r !! i; x ← row !! eq; Some (<[i := <[eq := f x]> row]> r).

(** [residual_[i] = g(residual_[i])] *)
Definition alterRow (g : PrimaryVariables → PrimaryVariables) (i : nat)
    (r : ElementSolutionVector) : option ElementSolutionVector :=
  row ← r !! i; Some (<[i := g row]> r).

(** A residual of [n] sub-control volumes with [numEq] entries each. *)
Definition shaped (n : nat) (r : ElementSolutionVector) : Prop :=
  length r = n ∧ Forall (λ row, length row = numEq) r.

(** The sum of one equation of the residual over the sub-control volumes. *)
Definition sumComponent (eq : nat) (r : ElementSolutionVector) : Scalar :=
  foldr (λ row acc, default 0 (row !! eq) + acc) 0 r.

(** *** evalFluxes_ *)

(** The inner loop over the equations for one face. *)
Definition subtractAddFlux (i j : nat) (flux : PrimaryVariables)
    (r : ElementSolutionVector) : option ElementSolutionVector :=
  for_range numEq (λ eq r,
    f ← flux !! eq;
    r ← alterComponent (λ x, x - f) i eq r;
    alterComponent (λ x, x + f) j eq r) r.

(** The body of the loop over the sub-control-volume faces. *)
Definition fluxOverFace (p : Problem) (k : nat) (self : BoxLocalResidual)
  : option BoxLocalResidual :=
  fvGeom ← fvElemGeom_ self;
  face ← subContVolFace fvGeom !! k;
  let flux := computeFlux p (ptrs_ self) k in
  r ← subtractAddFlux (scvf_i face) (scvf_j face) flux (residual_ self);
  Some (setResidual r self).

Definition evalFluxes_ (p : Problem) (self : BoxLocalResidual)
  : option BoxLocalResidual :=
  fvGeom ← fvElemGeom_ self;
  for_range (numEdges fvGeom) (fluxOverFace p) self.

(** *** evalStorage_ *)

Definition evalStorage_ (p : Problem) (self : BoxLocalResidual)
  : option BoxLocalResidual :=
  fvGeom ← fvElemGeom_ self;
  for_range (numVertices fvGeom) (λ i self,
    scv ← subContVol fvGeom !! i;
    let storage := computeStorage p (ptrs_ self) i false in
    r ← alterRow (λ _, FieldVector.scale storage (volume scv)) i
          (residual_ self);
    Some (setResidual r self)) self.

(** *** evalVolumeTerms_ *)

(** [for (j < numEq) residual_[i][j] = op(residual_[i][j], v[j])] *)
Definition accumulate (op : Scalar → Scalar → Scalar) (i : nat)
    (v : PrimaryVariables) (r : ElementSolutionVector)
  : option ElementSolutionVector :=
  for_range numEq (λ j r,
    x ← v !! j; alterComponent (λ y, op y x) i j r) r.

(** The body of the loop over the sub-control volumes.  The quotient is
    the one of the source, [volume / timeStepSize()]; for a time step size of
    zero the source multiplies by an infinite number, and the statements on
    the volume terms assume a time step size other than zero. *)
Definition volumeTermsOf (p : Problem) (i : nat) (self : BoxLocalResidual)
  : option BoxLocalResidual :=
  fvGeom ← fvElemGeom_ self;
  scv ← subContVol fvGeom !! i;
  let massContrib := computeStorage p (ptrs_ self) i false in
  let tmp := computeStorage p (ptrs_ self) i true in
  let massContrib := FieldVector.sub massContrib tmp in
  let massContrib :=
    FieldVector.scale massContrib (volume scv / timeStepSize p) in
  r ← accumulate Qcplus i massContrib (residual_ self);
  let source := computeSource p (ptrs_ self) i in
  let source := FieldVector.scale source (volume scv) in
  r ← accumulate Qcminus i source r;
  Some (setResidual r self).

Definition evalVolumeTerms_ (p : Problem) (self : BoxLocalResidual)
  : option BoxLocalResidual :=
  fvGeom ← fvElemGeom_ self;
  for_range (numVertices fvGeom) (volumeTermsOf p) self.

(** *** evalNeumann_ *)

(** Neumann conditions of one sub-control-volume face on the boundary. *)
Definition evalNeumannSegment_ (p : Problem) (isIt : Intersection)
    (scvIdx boundaryFaceIdx : nat) (self : BoxLocalResidual)
  : option BoxLocalResidual :=
  bcTypes ← bcTypes_ self scvIdx;
  if hasNeumann bcTypes then
    elem ← elem_ self;
    fvGeom ← fvElemGeom_ self;
    let values := neumann p elem fvGeom isIt scvIdx boundaryFaceIdx in
    bf ← boundaryFace fvGeom !! boundaryFaceIdx;
    let values := FieldVector.scale values (area bf) in
    r ← alterRow (λ row, FieldVector.add row values) scvIdx (residual_ self);
    Some (setResidual r self)
  else Some self.

(** The vertices of one boundary intersection. *)
Definition evalNeumannFace (p : Problem) (isIt : Intersection)
    (self : BoxLocalResidual) : option BoxLocalResidual :=
  elem ← elem_ self;
  fvGeom ← fvElemGeom_ self;
  let faceIdx := indexInInside isIt in
  let numFaceVerts := refElemSize elem faceIdx in
  for_range numFaceVerts (λ faceVertIdx self,
    let elemVertIdx := refElemSubEntity elem faceIdx faceVertIdx in
    let boundaryFaceIdx := boundaryFaceIndex fvGeom faceIdx faceVertIdx in
    evalNeumannSegment_ p isIt elemVertIdx boundaryFaceIdx self) self.

(** The loop over the intersections of the element. *)
Fixpoint evalNeumannLoop (p : Problem) (isIts : list Intersection)
    (self : BoxLocalResidual) : option BoxLocalResidual :=
  match isIts with
  | [] => Some self
  | isIt :: rest =>
      if boundary isIt then
        self' ← evalNeumannFace p isIt self; evalNeumannLoop p rest self'
      else evalNeumannLoop p rest self
  end.

Definition evalNeumann_ (p : Problem) (self : BoxLocalResidual)
  : option BoxLocalResidual :=
  elem ← elem_ self;
  evalNeumannLoop p (intersections p elem) self.

(** *** evalDirichlet_ *)

(** The loop over the equations for one Dirichlet vertex. *)
Definition setDirichlet (bcTypes : BoundaryTypes) (i : nat)
    (curPriVars tmp : PrimaryVariables) (r : ElementSolutionVector)
  : option ElementSolutionVector :=
  for_range numEq (λ eqIdx r,
    if isDirichlet bcTypes eqIdx then
      let pvIdx := eqToDirichletIndex bcTypes eqIdx in
      c ← curPriVars !! pvIdx;
      v ← tmp !! pvIdx;
      alterComponent (λ _, c - v) i eqIdx r
    else Some r) r.

Definition dirichletOf (p : Problem) (i : nat) (self : BoxLocalResidual)
  : option BoxLocalResidual :=
  bcTypes ← bcTypes_ self i;
  if hasDirichlet bcTypes then
    elem ← elem_ self;
    let tmp := dirichlet p (subEntity elem i) in
    curPriVars ← curPrimaryVars_ self i;
    r ← setDirichlet bcTypes i curPriVars tmp (residual_ self);
    Some (setResidual r self)
  else Some self.

Definition evalDirichlet_ (p : Problem) (self : BoxLocalResidual)
  : option BoxLocalResidual :=
  fvGeom ← fvElemGeom_ self;
  for_range (numVertices fvGeom) (dirichletOf p) self.

(** *** The public entry points *)

(** [residual_.resize(n); residual_ = 0] *)
Definition zeroResidual (n : nat) : ElementSolutionVector :=
  replicate n (FieldVector.const numEq 0).

(** [eval(element, fvGeom, prevVolVars, curVolVars, bcTypes)] *)
Definition eval (p : Problem) (element : Element) (fvGeom : FVElementGeometry)
    (prevVolVars curVolVars : list VolumeVariables)
    (bcTypes : ElementBoundaryTypes) (self : BoxLocalResidual)
  : option BoxLocalResidual :=
  let ptrs := {| elemPtr_ := Some element;
                 fvElemGeomPtr_ := Some fvGeom;
                 prevVolVarsPtr_ := Some prevVolVars;
                 curVolVarsPtr_ := Some curVolVars;
                 bcTypesPtr_ := Some bcTypes |} in
  let self := {| residual_ := residual_ self; ptrs_ := ptrs |} in
  fvg ← fvElemGeom_ self;
  let numVerts := numVertices fvg in
  let self := setResidual (zeroResidual numVerts) self in
  self ← evalFluxes_ p self;
  self ← evalVolumeTerms_ p self;
  self ← (if elemHasNeumann bcTypes then evalNeumann_ p self else Some self);
  if elemHasDirichlet bcTypes then evalDirichlet_ p self else Some self.

(** [eval(element)]: builds the geometry, the volume variables and the
    boundary types, updates the coupling parameters of the problem and
    delegates to the five-argument [eval].  The problem is shared with the
    caller, so its new state is part of the result. *)
Definition evalElement (p : Problem) (element : Element)
    (self : BoxLocalResidual) : option (Problem * BoxLocalResidual) :=
  let fvGeom := fvGeomUpdate p element in
  let volVarsPrev := volVarsUpdate p element fvGeom true in
  let volVarsCur := volVarsUpdate p element fvGeom false in
  let bcTypes := bcTypesUpdate p element fvGeom in
  let p' := updateCouplingParams p element in
  self' ← eval p' element fvGeom volVarsPrev volVarsCur bcTypes self;
  Some (p', self').

(** [evalStorage(element)] *)
Definition evalStorage (p : Problem) (element : Element)
    (self : BoxLocalResidual) : option BoxLocalResidual :=
  let fvGeom := fvGeomUpdate p element in
  let bcTypes := bcTypesUpdate p element fvGeom in
  let volVars := volVarsUpdate p element fvGeom false in
  let r := zeroResidual (numVertices fvGeom) in
  let ptrs := {| elemPtr_ := Some element;
                 fvElemGeomPtr_ := Some fvGeom;
                 prevVolVarsPtr_ := None;
                 curVolVarsPtr_ := Some volVars;
                 bcTypesPtr_ := Some bcTypes |} in
  evalStorage_ p {| residual_ := r; ptrs_ := ptrs |}.

(** [evalFluxes(element, curVolVars)] *)
Definition evalFluxes (p : Problem) (element : Element)
    (curVolVars : list VolumeVariables) (self : BoxLocalResidual)
  : option BoxLocalResidual :=
  let fvGeom := fvGeomUpdate p element in
  let bcTypes := bcTypesUpdate p element fvGeom in
  let r := zeroResidual (numVertices fvGeom) in
  let ptrs := {| elemPtr_ := Some element;
                 fvElemGeomPtr_ := Some fvGeom;
                 prevVolVarsPtr_ := None;
                 curVolVarsPtr_ := Some curVolVars;
                 bcTypesPtr_ := Some bcTypes |} in
  evalFluxes_ p {| residual_ := r; ptrs_ := ptrs |}.

(** *** Vocabulary of the statements *)

(** What the flux [f] over a face from [i] to [j] does to the entry [x] of
    sub-control volume [v]: [x -= f] if [v] is [i], then [x += f] if [v] is
    [j]. *)
Definition transfer (i j : nat) (f : Scalar) (v : nat) (x : Scalar) : Scalar :=
  let x := if decide (v = i) then x - f else x in
  if decide (v = j) then x + f else x.

(** The entry of sub-control volume [v] and equation [eq] after the flux over
    one face, in terms of the residual [r] before. *)
Definition transferred (i j : nat) (flux : PrimaryVariables)
    (r : ElementSolutionVector) (v eq : nat) : option Scalar :=
  x ← component r v eq; f ← flux !! eq; Some (transfer i j f v x).

(** Every face of the geometry joins two of its sub-control volumes. *)
Definition facesInRange (fvGeom : FVElementGeometry) : Prop :=
  ∀ k, (k < numEdges fvGeom)%nat →
    ∃ face, subContVolFace fvGeom !! k = Some face
      ∧ (scvf_i face < numVertices fvGeom)%nat
      ∧ (scvf_j face < numVertices fvGeom)%nat.

(** The entry [x] of sub-control volume [i] and equation [j] after the
    volume terms of [i], with the operations in the order of the source. *)
Definition withVolumeTerms (p : Problem) (ptrs : Pointers)
    (fvGeom : FVElementGeometry) (i j : nat) (x : Scalar) : option Scalar :=
  scv ← subContVol fvGeom !! i;
  cur ← computeStorage p ptrs i false !! j;
  prev ← computeStorage p ptrs i true !! j;
  src ← computeSource p ptrs i !! j;
  Some (x + (cur - prev) * (volume scv / timeStepSize p)
        - src * volume scv).

(** Every sub-control volume of the geometry has its data. *)
Definition volumesInRange (fvGeom : FVElementGeometry) : Prop :=
  ∀ i, (i < numVertices fvGeom)%nat → is_Some (subContVol fvGeom !! i).

(** The vectors handed over by the problem and by the implementation are
    [FieldVector<Scalar, numEq>]: they have [numEq] entries. *)
Class WellTyped : Prop := {
  computeFlux_length p ptrs k : length (computeFlux p ptrs k) = numEq;
  computeStorage_length p ptrs i old :
    length (computeStorage p ptrs i old) = numEq;
  computeSource_length p ptrs i : length (computeSource p ptrs i) = numEq;
  dirichlet_length p v : length (dirichlet p v) = numEq;
  neumann_length p e g isIt i b : length (neumann p e g isIt i b) = numEq;
  primaryVars_length vv : length (primaryVars vv) = numEq;
}.

(** The entry of sub-control volume [i] and equation [e] after the Dirichlet
    pass, when it was [x] before. *)
Definition withDirichlet (p : Problem) (elem : Element)
    (cur : list VolumeVariables) (bcTypes : ElementBoundaryTypes)
    (i e : nat) (x : Scalar) : option Scalar :=
  bc ← bcTypes !! i;
  if isDirichlet bc e then
    vv ← cur !! i;
    c ← primaryVars vv !! eqToDirichletIndex bc e;
    v ← dirichlet p (subEntity elem i) !! eqToDirichletIndex bc e;
    Some (c - v)
  else Some x.

(** The pointers that [eval] stores. *)
Definition evalPointers (element : Element) (fvGeom : FVElementGeometry)
    (prev cur : list VolumeVariables) (bcTypes : ElementBoundaryTypes)
  : Pointers :=
  {| elemPtr_ := Some element;
     fvElemGeomPtr_ := Some fvGeom;
     prevVolVarsPtr_ := Some prev;
     curVolVarsPtr_ := Some cur;
     bcTypesPtr_ := Some bcTypes |}.

(** The arguments of [eval] fit together: the faces and the sub-control
    volumes of the geometry are in range, there are volume variables and
    boundary types for every sub-control volume, a Dirichlet equation names
    a primary variable, and the reference element maps the vertices of a
    boundary face to sub-control volumes and boundary faces of the
    geometry. *)
Record WellFormed (p : Problem) (element : Element)
    (fvGeom : FVElementGeometry) (curVolVars : list VolumeVariables)
    (bcTypes : ElementBoundaryTypes) : Prop := {
  wf_faces : facesInRange fvGeom;
  wf_volumes : volumesInRange fvGeom;
  wf_curVolVars : length curVolVars = numVertices fvGeom;
  wf_bcTypes : length bcTypes = numVertices fvGeom;
  wf_dirichlet : ∀ i bc e,
    bcTypes !! i = Some bc → (e < numEq)%nat → isDirichlet bc e = true →
    (eqToDirichletIndex bc e < numEq)%nat;
  wf_neumann : ∀ isIt faceVertIdx,
    isIt ∈ intersections p element → boundary isIt = true →
    (faceVertIdx < refElemSize element (indexInInside isIt))%nat →
    (refElemSubEntity element (indexInInside isIt) faceVertIdx
     < numVertices fvGeom)%nat
    ∧ is_Some (boundaryFace fvGeom
                 !! boundaryFaceIndex fvGeom (indexInInside isIt)
                      faceVertIdx);
}.

End BoxLocalResidual.

(** ** The MPFA O-method: velocity reconstruction *)

Module MPFAO.

(** The code addresses interaction regions of four cells with [2 * dim = 4]
    unknowns and rotates vectors in the plane: it is written for [dim = 2]. *)
Definition dim : nat := 2.

(** *** The grid view *)

(** The grid, the variables of the problem, the indices and the constants
    of the grid implementations are declared outside the sources at hand;
    the records below have the members that [calculateVelocity] uses, under
    the names by which it uses them. *)

(** An intersection of a cell with a neighbour or with the boundary.  Entity
    pointers ([inside()], [outside()]) are positions in the grid view;
    [isCenter], [isVolume] and [corners] are the centre, the volume and the
    corners of [geometry()]. *)
Record Intersection := {
  neighbor : bool;
  boundary : bool;
  inside : nat;
  outside : nat;
  isCenter : list Scalar;
  isVolume : Scalar;
  corners : list (list Scalar);
  indexInInside : nat;
  centerUnitOuterNormal : list Scalar;
}.

Record Element := {
  center : list Scalar;
  volume : Scalar;
  intersections : list Intersection;
}.

(** *** Properties of the type tag *)

(** The value of the property [GridImplementation]: one of the three
    constants that the [switch] names, or any other one. *)
Inductive GridTypeIndices := sGrid | yaspGrid | ugGrid | otherGrid (id : nat).

Record Properties := {
  GridImplementation : GridTypeIndices;
  VelocityFormulation : nat;
  (** [Indices::velocityTotal], [Indices::wPhaseIdx], [Indices::nPhaseIdx] *)
  vt : nat;
  wPhaseIdx : nat;
  nPhaseIdx : nat;
}.

(** *** The problem *)

(** The parts of the problem that the velocity reconstruction only reads. *)
Record Problem := {
  gridView : list Element;
  (** [variables().index(element)] *)
  index : nat → nat;
  (** [source(values, element)]: the values left in [values] *)
  source : nat → list Scalar;
  (** [spatialParameters().intrinsicPermeability(element)] *)
  intrinsicPermeability : nat → list (list Scalar);
}.

(** [problem().variables()]: cell data, read and written in place. *)
Record Variables := {
  pressure : list Scalar;
  mobilityWetting : list Scalar;
  mobilityNonwetting : list Scalar;
  densityWetting : list Scalar;
  densityNonwetting : list Scalar;
  velocity : list (list (list Scalar));
  potentialWetting : list (list Scalar);
  potentialNonwetting : list (list Scalar);
}.

Definition setVelocity (v : list (list (list Scalar))) (vars : Variables)
  : Variables :=
  {| pressure := pressure vars;
     mobilityWetting := mobilityWetting vars;
     mobilityNonwetting := mobilityNonwetting vars;
     densityWetting := densityWetting vars;
     densityNonwetting := densityNonwetting vars;
     velocity := v;
     potentialWetting := potentialWetting vars;
     potentialNonwetting := potentialNonwetting vars |}.

Definition setPotentials (pw pn : list (list Scalar)) (vars : Variables)
  : Variables :=
  {| pressure := pressure vars;
     mobilityWetting := mobilityWetting vars;
     mobilityNonwetting := mobilityNonwetting vars;
     densityWetting := densityWetting vars;
     densityNonwetting := densityNonwetting vars;
     velocity := velocity vars;
     potentialWetting := pw;
     potentialNonwetting := pn |}.

(** One diagnostic written to [std::cout] by the conservation check. *)
Record Message := {
  msgDiff : Scalar;
  msgGlobalIdx : nat;
  msgFluxes : list Scalar;
}.

(** Everything the function can change: the variables and the output. *)
Record State := {
  variables : Variables;
  cout : list Message;
}.

(** *** State, exceptions and undefined behaviour *)

Inductive Exception := NotImplemented (what : string).

Inductive Result (A : Type) :=
| Done (a : A) (s : State)
| Thrown (e : Exception) (s : State)
| Undefined.
Arguments Done {A} a s.
Arguments Thrown {A} e s.
Arguments Undefined {A}.

Definition M (A : Type) : Type := State → Result A.

Definition ret {A : Type} (a : A) : M A := λ s, Done a s.

Definition bind {A B : Type} (m : M A) (k : A → M B) : M B :=
  λ s, match m s with
       | Done a s' => k a s'
       | Thrown e s' => Thrown e s'
       | Undefined => Undefined
       end.

Notation "'do' x <- m ; k" := (bind m (λ x, k))
  (at level 10, x pattern, m at level 100, k at level 200,
   format "'[v' 'do'  x  <-  m ; '/' k ']'").

(** An access that is undefined when it is out of range. *)
Definition lift {A : Type} (o : option A) : M A :=
  λ s, match o with Some a => Done a s | None => Undefined end.

Definition getVariables : M Variables := λ s, Done (variables s) s.

Definition putVariables (vars : Variables) : M unit :=
  λ s, Done () {| variables := vars; cout := cout s |}.

Definition print (msg : Message) : M unit :=
  λ s, Done () {| variables := variables s; cout := cout s ++ [msg] |}.

(** [DUNE_THROW(e, ...)] *)
Definition throw {A : Type} (e : Exception) : M A := λ s, Thrown e s.

(** A loop over a list, threading local variables of type [L]. *)
Fixpoint foldM {A L : Type} (body : A → L → M L) (l : list A) (locals : L)
  : M L :=
  match l with
  | [] => ret locals
  | a :: l' => do locals' <- body a locals; foldM body l' locals'
  end.

(** A computation that never raises an exception. *)
Definition noThrow {A : Type} (m : M A) : Prop :=
  ∀ s e s', m s ≠ Thrown e s'.

(** *** Small helpers of the loop body *)

(** The rotation matrix [R]. *)
Definition rotation : list (list Scalar) :=
  let R := FieldMatrix.zero dim dim in
  if decide (dim = 2%nat)
  then FieldMatrix.set 1 0 (- (1)) (FieldMatrix.set 0 1 1 R)
  else R.

(** The intersection paired with the one at position [pos], among [n]
    intersections of the cell: the [switch] on the grid implementation. *)
Definition nextIntersection (impl : GridTypeIndices) (n pos : nat) : M nat :=
  let nextisIt := S pos in
  match impl with
  | sGrid | yaspGrid =>
      if decide (nextisIt = n) then ret 0%nat
      else
        let nextisIt := S (S pos) in
        if decide (nextisIt = n) then ret 1%nat else ret nextisIt
  | ugGrid =>
      if decide (nextisIt = n) then ret 0%nat else ret nextisIt
  | otherGrid _ =>
      throw (NotImplemented
               "GridType can not be used with MPFAO implementation!")
  end.

(** The corner shared by the two intersections ([corner1234]); the last match
    of the double loop wins, and without a match it is the origin. *)
Definition commonCorner (isIt nextisIt : Intersection) : list Scalar :=
  foldl (λ corner1234 isItcorner,
           foldl (λ corner1234 nextisItcorner,
                    if decide (nextisItcorner = isItcorner)
                    then isItcorner else corner1234)
                 corner1234 (corners nextisIt))
        (FieldVector.const dim 0) (corners isIt).

(** *** The interior interaction region (four cells) *)

(** What the search for the fourth cell leaves in its four variables. *)
Record Cell4 := {
  globalIdx4 : nat;
  globalPos4 : list Scalar;
  K4 : list (list Scalar);
  lambda4 : Scalar;
}.

Definition defaultCell4 : Cell4 :=
  {| globalIdx4 := 0;
     globalPos4 := FieldVector.const dim 0;
     K4 := FieldMatrix.zero dim dim;
     lambda4 := 0 |}.

(** The body of the double loop over the intersections of cells 2 and 3. *)
Definition matchCell4 (prob : Problem) (vars : Variables) (cell1 : nat)
    (innerisIt innernextisIt : Intersection) (c4 : Cell4) : option Cell4 :=
  if neighbor innerisIt && neighbor innernextisIt then
    let innerisItoutside := outside innerisIt in
    let innernextisItoutside := outside innernextisIt in
    if decide (innerisItoutside = innernextisItoutside
               ∧ innerisItoutside ≠ cell1)
    then
      let idx := index prob innerisItoutside in
      e4 ← gridView prob !! innerisItoutside;
      mw ← mobilityWetting vars !! idx;
      mn ← mobilityNonwetting vars !! idx;
      Some {| globalIdx4 := idx;
              globalPos4 := center e4;
              K4 := FieldMatrix.add (K4 c4)
                      (intrinsicPermeability prob innerisItoutside);
              lambda4 := mw + mn |}
    else Some c4
  else Some c4.

Definition findCell4 (prob : Problem) (vars : Variables) (cell1 : nat)
    (isIts2 isIts3 : list Intersection) : option Cell4 :=
  forM_ isIts2 (λ innerisIt c4,
    forM_ isIts3 (λ innernextisIt c4,
      matchCell4 prob vars cell1 innerisIt innernextisIt c4) c4)
    defaultCell4.

(** The test of the search: the two intersections lead to the same cell,
    and that cell is not cell 1. *)
Definition commonNeighbour (cell1 : nat)
    (innerisIt innernextisIt : Intersection) : Prop :=
  neighbor innerisIt = true
  ∧ neighbor innernextisIt = true
  ∧ outside innerisIt = outside innernextisIt
  ∧ outside innerisIt ≠ cell1.

(** The face of a neighbouring cell that touches [corner1234] and does not
    lead back to cell 1 ([isIt24], [isIt34]); it starts at [ibegin]. *)
Definition findFace (corner1234 : list Scalar) (cell1 : nat)
    (isIts : list Intersection) : option Intersection :=
  foldl (λ found innerisIt,
           if neighbor innerisIt then
             if decide (outside innerisIt ≠ cell1) then
               foldl (λ found innerisItcorner,
                        if decide (innerisItcorner = corner1234)
                        then Some innerisIt else found)
                     found (corners innerisIt)
             else found
           else found)
        (head isIts) isIts.

(** The data gathered for one interior interaction region. *)
Record InteriorRegion := {
  press1 : Scalar; press2 : Scalar; press3 : Scalar; press4 : Scalar;
  lambda1 : Scalar; lambda2 : Scalar; lambda3 : Scalar; lambda4' : Scalar;
  K1 : list (list Scalar); K2 : list (list Scalar);
  K3 : list (list Scalar); K4' : list (list Scalar);
  globalPos1 : list Scalar; globalPos2 : list Scalar;
  globalPos3 : list Scalar; globalPos4' : list Scalar;
  globalPosFace12 : list Scalar; globalPosFace13 : list Scalar;
  globalPosFace24 : list Scalar; globalPosFace34 : list Scalar;
  integrationOuterNormaln1 : list Scalar;
  integrationOuterNormaln2 : list Scalar;
  integrationOuterNormaln3 : list Scalar;
  integrationOuterNormaln4 : list Scalar;
}.

(** The flux coefficients [g]. *)
Record FluxCoefficients := {
  g111 : Scalar; g121 : Scalar; g211 : Scalar; g221 : Scalar;
  g112 : Scalar; g122 : Scalar; g212 : Scalar; g222 : Scalar;
  g113 : Scalar; g123 : Scalar; g213 : Scalar; g223 : Scalar;
  g114 : Scalar; g124 : Scalar; g214 : Scalar; g224 : Scalar;
}.

(** [FieldVector nu(0); R.umv(x, nu)] *)
Definition rotate (x : list Scalar) : list Scalar :=
  FieldMatrix.umv rotation x (FieldVector.const dim 0).

(** [FieldVector Knu(0); K.umv(nu, Knu)] *)
Definition applyK (K : list (list Scalar)) (nu : list Scalar) : list Scalar :=
  FieldMatrix.umv K nu (FieldVector.const dim 0).

(** The vectors [nu11], ..., [nu24]. *)
Definition nu11 (r : InteriorRegion) : list Scalar :=
  rotate (FieldVector.sub (globalPosFace13 r) (globalPos1 r)).
Definition nu21 (r : InteriorRegion) : list Scalar :=
  rotate (FieldVector.sub (globalPos1 r) (globalPosFace12 r)).
Definition nu12 (r : InteriorRegion) : list Scalar :=
  rotate (FieldVector.sub (globalPosFace24 r) (globalPos2 r)).
Definition nu22 (r : InteriorRegion) : list Scalar :=
  rotate (FieldVector.sub (globalPosFace12 r) (globalPos2 r)).
Definition nu13 (r : InteriorRegion) : list Scalar :=
  rotate (FieldVector.sub (globalPos3 r) (globalPosFace13 r)).
Definition nu23 (r : InteriorRegion) : list Scalar :=
  rotate (FieldVector.sub (globalPos3 r) (globalPosFace34 r)).
Definition nu14 (r : InteriorRegion) : list Scalar :=
  rotate (FieldVector.sub (globalPos4' r) (globalPosFace24 r)).
Definition nu24 (r : InteriorRegion) : list Scalar :=
  rotate (FieldVector.sub (globalPosFace34 r) (globalPos4' r)).

(** The areas [dF1], ..., [dF4] spanned by the vectors [nu]; the flux
    coefficients are quotients by them. *)
Definition dF1 (r : InteriorRegion) : Scalar :=
  Qcabs (FieldVector.dot (nu11 r) (rotate (nu21 r))).
Definition dF2 (r : InteriorRegion) : Scalar :=
  Qcabs (FieldVector.dot (nu12 r) (rotate (nu22 r))).
Definition dF3 (r : InteriorRegion) : Scalar :=
  Qcabs (FieldVector.dot (nu13 r) (rotate (nu23 r))).
Definition dF4 (r : InteriorRegion) : Scalar :=
  Qcabs (FieldVector.dot (nu14 r) (rotate (nu24 r))).

Definition fluxCoefficients (r : InteriorRegion) : FluxCoefficients :=
  let K1nu11 := applyK (K1 r) (nu11 r) in
  let K1nu21 := applyK (K1 r) (nu21 r) in
  let K2nu12 := applyK (K2 r) (nu12 r) in
  let K2nu22 := applyK (K2 r) (nu22 r) in
  let K3nu13 := applyK (K3 r) (nu13 r) in
  let K3nu23 := applyK (K3 r) (nu23 r) in
  let K4nu14 := applyK (K4' r) (nu14 r) in
  let K4nu24 := applyK (K4' r) (nu24 r) in
  let n1 := integrationOuterNormaln1 r in
  let n2 := integrationOuterNormaln2 r in
  let n3 := integrationOuterNormaln3 r in
  let n4 := integrationOuterNormaln4 r in
  {| g111 := lambda1 r * FieldVector.dot n1 K1nu11 / dF1 r;
     g121 := lambda1 r * FieldVector.dot n1 K1nu21 / dF1 r;
     g211 := lambda1 r * FieldVector.dot n3 K1nu11 / dF1 r;
     g221 := lambda1 r * FieldVector.dot n3 K1nu21 / dF1 r;
     g112 := lambda2 r * FieldVector.dot n1 K2nu12 / dF2 r;
     g122 := lambda2 r * FieldVector.dot n1 K2nu22 / dF2 r;
     g212 := lambda2 r * FieldVector.dot n4 K2nu12 / dF2 r;
     g222 := lambda2 r * FieldVector.dot n4 K2nu22 / dF2 r;
     g113 := lambda3 r * FieldVector.dot n2 K3nu13 / dF3 r;
     g123 := lambda3 r * FieldVector.dot n2 K3nu23 / dF3 r;
     g213 := lambda3 r * FieldVector.dot n3 K3nu13 / dF3 r;
     g223 := lambda3 r * FieldVector.dot n3 K3nu23 / dF3 r;
     g114 := lambda4' r * FieldVector.dot n2 K4nu14 / dF4 r;
     g124 := lambda4' r * FieldVector.dot n2 K4nu24 / dF4 r;
     g214 := lambda4' r * FieldVector.dot n4 K4nu14 / dF4 r;
     g224 := lambda4' r * FieldVector.dot n4 K4nu24 / dF4 r |}.

(** The assignment [M[i][j] = x]. *)
Definition at' (i j : nat) (x : Scalar) : nat * nat * Scalar := (i, j, x).

(** [M[i][j] = x; ...], a run of assignments to entries of a matrix. *)
Definition assign (entries : list (nat * nat * Scalar))
    (M : list (list Scalar)) : list (list Scalar) :=
  foldl (λ M e, FieldMatrix.set e.1.1 e.1.2 e.2 M) M entries.

(** The four matrices, each zero except for the entries assigned. *)
Definition matrixC (g : FluxCoefficients) : list (list Scalar) :=
  assign [ at' 0 0 (- g111 g); at' 0 2 (- g121 g);
           at' 1 1 (g114 g);   at' 1 3 (g124 g);
           at' 2 1 (- g213 g); at' 2 2 (g223 g);
           at' 3 0 (g212 g);   at' 3 3 (- g222 g) ]
    (FieldMatrix.zero (2 * dim) (2 * dim)).

Definition matrixF (g : FluxCoefficients) : list (list Scalar) :=
  assign [ at' 0 0 (g111 g + g121 g);
           at' 1 3 (- g114 g - g124 g);
           at' 2 2 (g213 g - g223 g);
           at' 3 1 (- g212 g + g222 g) ]
    (FieldMatrix.zero (2 * dim) (2 * dim)).

Definition matrixA (g : FluxCoefficients) : list (list Scalar) :=
  assign [ at' 0 0 (g111 g + g112 g); at' 0 2 (g121 g); at' 0 3 (- g122 g);
           at' 1 1 (g114 g + g113 g); at' 1 2 (- g123 g); at' 1 3 (g124 g);
           at' 2 0 (g211 g); at' 2 1 (- g213 g); at' 2 2 (g223 g + g221 g);
           at' 3 0 (- g212 g); at' 3 1 (g214 g); at' 3 3 (g222 g + g224 g) ]
    (FieldMatrix.zero (2 * dim) (2 * dim)).

Definition matrixB (g : FluxCoefficients) : list (list Scalar) :=
  assign [ at' 0 0 (g111 g + g121 g); at' 0 1 (g112 g - g122 g);
           at' 1 2 (g113 g - g123 g); at' 1 3 (g114 g + g124 g);
           at' 2 0 (g211 g + g221 g); at' 2 2 (- g213 g + g223 g);
           at' 3 1 (- g212 g + g222 g); at' 3 3 (g214 g + g224 g) ]
    (FieldMatrix.zero (2 * dim) (2 * dim)).

(** [A.invert(); F += B.leftmultiply(C.rightmultiply(A)); T(F)] *)
Definition transmissibility (g : FluxCoefficients) : list (list Scalar) :=
  let A := FieldMatrix.invert (matrixA g) in
  let C := FieldMatrix.rightmultiply (matrixC g) A in
  let B := FieldMatrix.leftmultiply (matrixB g) C in
  let F := FieldMatrix.add (matrixF g) B in
  F.


(** [u = (press1, press2, press3, press4); T.umv(u, Tu)] *)
Definition halfEdgeFluxes (r : InteriorRegion) : list Scalar :=
  let T := transmissibility (fluxCoefficients r) in
  let u := [press1 r; press2 r; press3 r; press4 r] in
  FieldMatrix.umv T u (FieldVector.const (2 * dim)%nat 0).


(** [velocity()[globalIdx][face] += v] *)
Definition addVelocity (globalIdx face : nat) (v : list Scalar)
    (vel : list (list (list Scalar))) : option (list (list (list Scalar))) :=
  row ← vel !! globalIdx;
  old ← row !! face;
  Some (<[globalIdx := <[face := FieldVector.add old v]> row]> vel).


(** *** The loop over the cells *)

(** The local arrays [facevol] and [unitOuterNormal], uninitialised until an
    intersection writes its entry. *)
Record Locals := {
  facevol : list (option Scalar);
  unitOuterNormal : list (option (list Scalar));
}.

(** [for (i < 2 * dim) velocity()[globalIdx1][i] = 0] *)
Definition zeroVelocity (globalIdx1 : nat) (vel : list (list (list Scalar)))
  : option (list (list (list Scalar))) :=
  for_range (2 * dim) (λ i vel,
    row ← vel !! globalIdx1;
    _ ← row !! i;
    Some (<[globalIdx1 := <[i := FieldVector.const dim 0]> row]> vel)) vel.

(** [velocity()[globalIdx1][i] * unitOuterNormal[i]] *)
Definition normalVelocity (vars : Variables) (locals : Locals)
    (globalIdx1 i : nat) : option Scalar :=
  row ← velocity vars !! globalIdx1;
  v ← row !! i;
  n ← mjoin (unitOuterNormal locals !! i);
  Some (FieldVector.dot v n).

(** [velocity()[globalIdx1][i] * unitOuterNormal[i] * facevol[i]] *)
Definition faceFlux (vars : Variables) (locals : Locals)
    (globalIdx1 i : nat) : option Scalar :=
  vn ← normalVelocity vars locals globalIdx1 i;
  fv ← mjoin (facevol locals !! i);
  Some (vn * fv).

(** The relative defect [diff] of the conservation check.  The divisor is
    zero only when the four fluxes and the source term are: the quotient is
    then [0 / 0], not a number in the source and [0] here, and neither
    exceeds the tolerance. *)
Definition relativeDefect (f0 f1 f2 f3 q1 volume1 : Scalar) : Scalar :=
  Qcabs (f0 + f1 + f2 + f3 - q1 * volume1)
  / (Qcabs f0 + Qcabs f1 + Qcabs f2 + Qcabs f3 + Qcabs (q1 * volume1)).

(** [1e-8] *)
Definition tolerance : Scalar := Q2Qc (1 # 100000000).

Section CalculateVelocity.

Variable props : Properties.
Variable prob : Problem.

(** The branches for an interaction region that touches the boundary (the
    second intersection, or the first one, is a boundary face).  They read
    the boundary conditions and the variables, and their only writes add to
    or subtract from [velocity()[globalIdx1]]; they are not detailed here.
    The arguments are the cell, the two intersections and [corner1234]; the
    result is the velocity field they leave. *)
Variable boundaryRegion :
  nat → Intersection → Intersection → list Scalar → Variables →
  option (list (list (list Scalar))).

(** The first part of the branch for an interior interaction region (both
    intersections have a neighbour): the data of cells 3 and 4 and of the
    faces between cells 2, 3 and 4.  [e2] is the neighbour across [isIt]. *)
Definition gatherInterior (vars : Variables) (press1 lambda1 : Scalar)
    (K1 : list (list Scalar)) (globalPos1 : list Scalar)
    (isIt nextisIt : Intersection) (corner1234 : list Scalar)
    (e2 : Element) (press2 lambda2 : Scalar) (K2 : list (list Scalar))
  : option InteriorRegion :=
  let nextisItoutside := outside nextisIt in
  let globalIdx3 := index prob nextisItoutside in
  press3 ← pressure vars !! globalIdx3;
  e3 ← gridView prob !! nextisItoutside;
  let K3 := intrinsicPermeability prob nextisItoutside in
  mw3 ← mobilityWetting vars !! globalIdx3;
  mn3 ← mobilityNonwetting vars !! globalIdx3;
  let lambda3 := mw3 + mn3 in
  c4 ← findCell4 prob vars (inside isIt) (intersections e2) (intersections e3);
  press4 ← pressure vars !! globalIdx4 c4;
  isIt24 ← findFace corner1234 (inside isIt) (intersections e2);
  isIt34 ← findFace corner1234 (inside isIt) (intersections e3);
  Some
    {| press1 := press1; press2 := press2; press3 := press3;
       press4 := press4;
       lambda1 := lambda1; lambda2 := lambda2; lambda3 := lambda3;
       lambda4' := lambda4 c4;
       K1 := K1; K2 := K2; K3 := K3; K4' := K4 c4;
       globalPos1 := globalPos1; globalPos2 := center e2;
       globalPos3 := center e3; globalPos4' := globalPos4 c4;
       globalPosFace12 := isCenter isIt;
       globalPosFace13 := isCenter nextisIt;
       globalPosFace24 := isCenter isIt24;
       globalPosFace34 := isCenter isIt34;
       integrationOuterNormaln1 :=
         FieldVector.scale (centerUnitOuterNormal isIt)
           (isVolume isIt / Q2Qc 2);
       integrationOuterNormaln2 :=
         FieldVector.scale (centerUnitOuterNormal isIt34)
           (isVolume isIt34 / Q2Qc 2);
       integrationOuterNormaln3 :=
         FieldVector.scale (centerUnitOuterNormal nextisIt)
           (isVolume nextisIt / Q2Qc 2);
       integrationOuterNormaln4 :=
         FieldVector.scale (centerUnitOuterNormal isIt24)
           (isVolume isIt24 / Q2Qc 2) |}.

(** The second part: the half-edge fluxes and the two velocities. *)
Definition writeVelocities (globalIdx1 : nat) (isIt nextisIt : Intersection)
    (Tu : list Scalar) (vel : list (list (list Scalar)))
  : option (list (list (list Scalar))) :=
  Tu0 ← Tu !! 0%nat;
  Tu2 ← Tu !! 2%nat;
  let face12vol := isVolume isIt in
  let face13vol := isVolume nextisIt in
  let vector1 :=
    FieldVector.scale (centerUnitOuterNormal isIt) (Tu0 / face12vol) in
  vel ← addVelocity globalIdx1 (indexInInside isIt) vector1 vel;
  let vector3 :=
    FieldVector.scale (centerUnitOuterNormal nextisIt) (Tu2 / face13vol) in
  addVelocity globalIdx1 (indexInInside nextisIt) vector3 vel.

Definition interiorRegion (globalIdx1 : nat) (press1 lambda1 : Scalar)
    (K1 : list (list Scalar)) (globalPos1 : list Scalar)
    (isIt nextisIt : Intersection) (corner1234 : list Scalar)
    (e2 : Element) (press2 lambda2 : Scalar) (K2 : list (list Scalar))
  : M unit :=
  do vars <- getVariables;
  do r <- lift (gatherInterior vars press1 lambda1 K1 globalPos1
                  isIt nextisIt corner1234 e2 press2 lambda2 K2);
  do vel <- lift (writeVelocities globalIdx1 isIt nextisIt
                    (halfEdgeFluxes r) (velocity vars));
  putVariables (setVelocity vel vars).

(** The body of the loop over the intersections of cell 1. *)
Definition intersectionBody (cell1 : nat) (e1 : Element) (globalIdx1 : nat)
    (press1 lambda1 : Scalar) (K1 : list (list Scalar))
    (pos : nat) (locals : Locals) : M Locals :=
  do nextpos <- nextIntersection (GridImplementation props)
                  (length (intersections e1)) pos;
  do isIt <- lift (intersections e1 !! pos);
  do nextisIt <- lift (intersections e1 !! nextpos);
  do _ <- lift (guard (indexInInside isIt < 2 * dim)%nat);
  let locals :=
    {| facevol := <[indexInInside isIt := Some (isVolume isIt)]>
                    (facevol locals);
       unitOuterNormal :=
         <[indexInInside isIt := Some (centerUnitOuterNormal isIt)]>
           (unitOuterNormal locals) |} in
  let corner1234 := commonCorner isIt nextisIt in
  do _ <-
    (if neighbor isIt then
       let outside := outside isIt in
       let globalIdx2 := index prob outside in
       do vars <- getVariables;
       do press2 <- lift (pressure vars !! globalIdx2);
       do e2 <- lift (gridView prob !! outside);
       let K2 := intrinsicPermeability prob outside in
       do mw2 <- lift (mobilityWetting vars !! globalIdx2);
       do mn2 <- lift (mobilityNonwetting vars !! globalIdx2);
       let lambda2 := mw2 + mn2 in
       if neighbor nextisIt then
         interiorRegion globalIdx1 press1 lambda1 K1 (center e1)
           isIt nextisIt corner1234 e2 press2 lambda2 K2
       else
         do vel <- lift (boundaryRegion cell1 isIt nextisIt corner1234 vars);
         putVariables (setVelocity vel vars)
     else
       do vars <- getVariables;
       do vel <- lift (boundaryRegion cell1 isIt nextisIt corner1234 vars);
       putVariables (setVelocity vel vars));
  ret locals.

(** [potentialWetting(globalIdx1, i) = potentialNonwetting(globalIdx1, i) =
    velocity()[globalIdx1][i] * unitOuterNormal[i]] for every face [i]. *)
Definition setPotential (globalIdx1 i : nat) (x : Scalar)
    (pot : list (list Scalar)) : option (list (list Scalar)) :=
  row ← pot !! globalIdx1;
  _ ← row !! i;
  Some (<[globalIdx1 := <[i := x]> row]> pot).

Definition potentials (globalIdx1 : nat) (locals : Locals) : M unit :=
  do vars <- getVariables;
  do row <- lift (velocity vars !! globalIdx1);
  do vars' <- lift (for_range (length row) (λ i vars,
      x ← normalVelocity vars locals globalIdx1 i;
      pw ← setPotential globalIdx1 i x (potentialWetting vars);
      pn ← setPotential globalIdx1 i x (potentialNonwetting vars);
      Some (setPotentials pw pn vars)) vars);
  putVariables vars'.

(** The check of local conservation at the end of the loop body. *)
Definition conservationCheck (globalIdx1 : nat) (q1 volume1 : Scalar)
    (locals : Locals) : M unit :=
  if decide (dim = 2%nat ∧ VelocityFormulation props = vt props) then
    do vars <- getVariables;
    do f0 <- lift (faceFlux vars locals globalIdx1 0);
    do f1 <- lift (faceFlux vars locals globalIdx1 1);
    do f2 <- lift (faceFlux vars locals globalIdx1 2);
    do f3 <- lift (faceFlux vars locals globalIdx1 3);
    let diff := relativeDefect f0 f1 f2 f3 q1 volume1 in
    if Qclt_le_dec tolerance diff then
      print {| msgDiff := diff; msgGlobalIdx := globalIdx1;
               msgFluxes := [f0; f1; f2; f3] |}
    else ret ()
  else ret ().

(** The body of the loop over the cells of the grid view. *)
Definition elementBody (cell1 : nat) (_ : unit) : M unit :=
  do e1 <- lift (gridView prob !! cell1);
  let volume1 := volume e1 in
  let globalIdx1 := index prob cell1 in
  do vars <- getVariables;
  do press1 <- lift (pressure vars !! globalIdx1);
  let src := source prob cell1 in
  do qw <- lift (src !! wPhaseIdx props);
  do qn <- lift (src !! nPhaseIdx props);
  let q1 := qw + qn in
  let K1 := intrinsicPermeability prob cell1 in
  do mw1 <- lift (mobilityWetting vars !! globalIdx1);
  do mn1 <- lift (mobilityNonwetting vars !! globalIdx1);
  let lambda1 := mw1 + mn1 in
  do vel <- lift (zeroVelocity globalIdx1 (velocity vars));
  do _ <- putVariables (setVelocity vel vars);
  do densityW <- lift (densityWetting vars !! globalIdx1);
  do densityNW <- lift (densityNonwetting vars !! globalIdx1);
  let locals :=
    {| facevol := replicate (2 * dim) None;
       unitOuterNormal := replicate (2 * dim) None |} in
  do locals <- foldM (intersectionBody cell1 e1 globalIdx1 press1 lambda1 K1)
                 (seq 0 (length (intersections e1))) locals;
  do _ <- potentials globalIdx1 locals;
  conservationCheck globalIdx1 q1 volume1 locals.

Definition calculateVelocity : M unit :=
  foldM elementBody (seq 0 (length (gridView prob))) ().

End CalculateVelocity.

End MPFAO.

(** * A line element with two equations *)

Module LineElement.

(** The problem is reduced to its coupling parameter, which
    [updateCouplingParams] advances. *)
#[export] Instance tag : TypeTag := {|
  numEq := 2;
  Problem := nat;
  Element := unit;
  Vertex := nat;
  Intersection := nat;
  VolumeVariables := Qc * Qc;
|}.

Definition fvGeom : FVElementGeometry := {|
  numVertices := 2;
  numEdges := 1;
  subContVol := [ {| volume := Q2Qc 2 |}; {| volume := Q2Qc 3 |} ];
  subContVolFace := [ {| scvf_i := 0; scvf_j := 1 |} ];
  boundaryFace := [ {| area := Q2Qc 4 |}; {| area := Q2Qc 5 |} ];
  boundaryFaceIndex := λ faceIdx _, faceIdx;
|}.

Definition prevVolVars : list (Qc * Qc) := [ (1, 1); (1, 1) ].
Definition curVolVars : list (Qc * Qc) :=
  [ (Q2Qc 11, Q2Qc 12); (Q2Qc 13, Q2Qc 14) ].

(** Vertex 0: equation 0 Dirichlet, equation 1 Neumann.
    Vertex 1: equation 0 Neumann, equation 1 without condition. *)
Definition bcTypes : list BoundaryTypes := [
  {| boundaryKind := λ e, match e with O => bcDirichlet | _ => bcNeumann end;
     eqToDirichletIndex := λ e, e |};
  {| boundaryKind := λ e, match e with O => bcNeumann | _ => bcNone end;
     eqToDirichletIndex := λ e, e |} ].

#[export] Instance problem : ProblemInterface := {|
  timeStepSize := λ _, Q2Qc 2;
  dirichlet := λ _ _, [Q2Qc 10; Q2Qc 20];
  neumann := λ _ _ _ _ _ _, [Q2Qc 7; Q2Qc 5];
  updateCouplingParams := λ p _, S p;
  intersections := λ _ _, [0; 1]%nat;
  boundary := λ _, true;
  indexInInside := λ isIt, isIt;
  subEntity := λ _ i, i;
  refElemSize := λ _ _, 1%nat;
  refElemSubEntity := λ _ faceIdx _, faceIdx;
  primaryVars := λ vv, [vv.1; vv.2];
  fvGeomUpdate := λ _ _, fvGeom;
  volVarsUpdate := λ _ _ _ oldSol, if oldSol then prevVolVars else curVolVars;
  bcTypesUpdate := λ _ _ _, bcTypes;
|}.

#[export] Instance implementation : Implementation := {|
  computeFlux := λ _ _ _, [1; Q2Qc 2];
  computeStorage := λ _ _ _ usePrevSol, if usePrevSol then [1; 1] else [Q2Qc 3; Q2Qc 5];
  computeSource := λ _ _ _, [1; 0];
|}.

(** An evaluator in the state in which an earlier call left it. *)
Definition self0 : BoxLocalResidual := {|
  residual_ := [ [Q2Qc 9; Q2Qc 9]; [Q2Qc 9; Q2Qc 9] ];
  ptrs_ := {| elemPtr_ := Some ();
              fvElemGeomPtr_ := Some fvGeom;
              prevVolVarsPtr_ := Some prevVolVars;
              curVolVarsPtr_ := Some curVolVars;
              bcTypesPtr_ := Some bcTypes |};
|}.

End LineElement.

(** * Grids of unit squares *)

Module SquareGrid.
Import MPFAO.

Definition q (z : Z) : Qc := Q2Qc (inject_Z z).
Definition half (z : Z) : Qc := Q2Qc (z # 2).

(** The cell with lower left corner [c] among the cells [cells]; its
    position in the list is its entity pointer. *)
Definition position (cells : list (Z * Z)) (c : Z * Z) : option nat :=
  fst <$> list_find (λ c', c' = c) cells.

Definition offset (face : nat) : Z * Z :=
  match face with
  | 0%nat => (-1, 0)%Z
  | 1%nat => (1, 0)%Z
  | 2%nat => (0, -1)%Z
  | _ => (0, 1)%Z
  end.

(** Faces are numbered left, right, bottom, top, as in a structured grid. *)
Definition intersection (cells : list (Z * Z)) (c : Z * Z) (face : nat)
  : Intersection :=
  let d := offset face in
  let c' := (c.1 + d.1, c.2 + d.2)%Z in
  let there := position cells c' in
  {| neighbor := bool_decide (is_Some there);
     boundary := bool_decide (there = None);
     inside := default 0%nat (position cells c);
     outside := default 0%nat there;
     isCenter := [half (2 * c.1 + 1 + d.1); half (2 * c.2 + 1 + d.2)];
     isVolume := 1;
     corners :=
       match face with
       | 0%nat => [[q c.1; q c.2]; [q c.1; q (c.2 + 1)]]
       | 1%nat => [[q (c.1 + 1); q c.2]; [q (c.1 + 1); q (c.2 + 1)]]
       | 2%nat => [[q c.1; q c.2]; [q (c.1 + 1); q c.2]]
       | _ => [[q c.1; q (c.2 + 1)]; [q (c.1 + 1); q (c.2 + 1)]]
       end;
     indexInInside := face;
     centerUnitOuterNormal := [q d.1; q d.2] |}.

Definition element (cells : list (Z * Z)) (c : Z * Z) : Element :=
  {| center := [half (2 * c.1 + 1); half (2 * c.2 + 1)];
     volume := 1;
     intersections := intersection cells c <$> [0; 1; 2; 3]%nat |}.

Definition grid (cells : list (Z * Z)) : list Element :=
  element cells <$> cells.

Definition isotropic (k : Qc) : list (list Qc) := [[k; 0]; [0; k]].

(** Cell [n] has the isotropic permeability [n + 1]; no sources. *)
Definition problem (cells : list (Z * Z)) : Problem :=
  {| gridView := grid cells;
     index := λ cell, cell;
     source := λ _, [0; 0];
     intrinsicPermeability := λ cell, isotropic (q (Z.of_nat cell + 1)) |}.

(** Pressures [press], unit total mobilities, and every velocity [v]. *)
Definition variablesOf (press : list Qc) (v : list Qc) : Variables :=
  let n := length press in
  {| pressure := press;
     mobilityWetting := replicate n 1;
     mobilityNonwetting := replicate n 0;
     densityWetting := replicate n 1;
     densityNonwetting := replicate n 1;
     velocity := replicate n (replicate 4 v);
     potentialWetting := replicate n (replicate 4 0);
     potentialNonwetting := replicate n (replicate 4 0) |}.

Definition properties (impl : GridTypeIndices) (formulation : nat)
  : Properties :=
  {| GridImplementation := impl;
     VelocityFormulation := formulation;
     vt := 2;
     wPhaseIdx := 0;
     nPhaseIdx := 1 |}.

(** No interaction region on the boundary contributes. *)
Definition noBoundaryRegion (cell1 : nat) (isIt nextisIt : Intersection)
    (corner1234 : list Qc) (vars : Variables)
  : option (list (list (list Qc))) :=
  Some (velocity vars).

(** Four cells around the corner (1, 1). *)
Definition square : list (Z * Z) := [(0, 0); (1, 0); (0, 1); (1, 1)]%Z.

(** Three cells in the shape of an L: cells 1 and 2 are neighbours of cell
    0 and have no other neighbour. *)
Definition ell : list (Z * Z) := [(0, 0); (1, 0); (0, 1)]%Z.

(** One cell whose four faces carry the unit velocity along their normal. *)
Definition leakyState : State :=
  {| variables := variablesOf [0] [1; 0]; cout := [] |}.

Definition leakyLocals : Locals :=
  {| facevol := replicate 4 (Some 1);
     unitOuterNormal := replicate 4 (Some [1; 0]) |}.

(** The four cells with the velocities of an earlier time step. *)
Definition movingState : State :=
  {| variables := variablesOf [q 3; q 2; q 2; q 1] [1; 0]; cout := [] |}.

(** The four cells at rest, with pressures 3, 2, 2, 1. *)
Definition stillState : State :=
  {| variables := variablesOf [q 3; q 2; q 2; q 1] [0; 0]; cout := [] |}.

(** The three cells of the L at rest, with pressures 3, 2, 2. *)
Definition ellState : State :=
  {| variables := variablesOf [q 3; q 2; q 2] [0; 0]; cout := [] |}.

(** Cell 0 of the four cells, its right and its top intersection (with
    cells 1 and 2), and the data of the region around the corner (1, 1). *)
Definition rightOf0 : Intersection := intersection square (0, 0)%Z 1.
Definition topOf0 : Intersection := intersection square (0, 0)%Z 3.

Definition regionOf0 : option InteriorRegion :=
  gatherInterior (problem square) (variables stillState)
    (q 3) 1 (isotropic 1) (center (element square (0, 0)%Z))
    rightOf0 topOf0 (commonCorner rightOf0 topOf0)
    (element square (1, 0)%Z) (q 2) 1 (isotropic (q 2)).

(** Cell 0 of the L, its right and its top intersection (with cells 1 and
    2): its neighbours have no neighbour in common but cell 0. *)
Definition rightOfEll : Intersection := intersection ell (0, 0)%Z 1.
Definition topOfEll : Intersection := intersection ell (0, 0)%Z 3.

End SquareGrid.

(** * The flux pass for any [Scalar] *)

(** [Scalar] is a property of the type tag.  The loops of [evalFluxes_] are
    given here once more for an arbitrary type [T] of scalars with its
    subtraction and addition: for the rationals they are the loops of the
    embedding above, and for binary64 numbers they compute what the
    compiled code computes with [double]. *)
Module AnyScalar.

Section FluxPass.
Context {T : Type} (minus plus : T → T → T) (zero : T).

(** [residual_[i][eq] = f(residual_[i][eq])] *)
Definition alterComponent (f : T → T) (i eq : nat) (r : list (list T))
  : option (list (list T)) :=
  row ← r !! i; x ← row !! eq; Some (<[i := <[eq := f x]> row]> r).

(** The inner loop over the equations for one face. *)
Definition subtractAddFlux (numEq i j : nat) (flux : list T)
    (r : list (list T)) : option (list (list T)) :=
  for_range numEq (λ eq r,
    f ← flux !! eq;
    r ← alterComponent (λ x, minus x f) i eq r;
    alterComponent (λ x, plus x f) j eq r) r.

(** The loop over the sub-control-volume faces, on the residual alone:
    [computeFlux k] is the flux vector of face [k]. *)
Definition evalFluxes_ (numEq numEdges : nat)
    (subContVolFace : list SubControlVolumeFace)
    (computeFlux : nat → list T) (r : list (list T))
  : option (list (list T)) :=
  for_range numEdges (λ k r,
    face ← subContVolFace !! k;
    subtractAddFlux numEq (scvf_i face) (scvf_j face) (computeFlux k) r) r.

(** The sum of one equation of the residual over the sub-control volumes. *)
Definition sumComponent (eq : nat) (r : list (list T)) : T :=
  foldr (λ row acc, plus (default zero (row !! eq)) acc) zero r.

End FluxPass.

End AnyScalar.

(** * A triangle with fluxes of different sizes *)

(** An element with three sub-control volumes and the three faces between
    them, as the box scheme has it on a triangle, and one equation.  The
    fluxes over the faces are 1, 1 and 10^16; all three are binary64
    numbers.  There are no storage, no sources and no boundary
    conditions. *)
Module TriangleElement.

#[export] Instance tag : TypeTag := {|
  numEq := 1;
  Problem := unit;
  Element := unit;
  Vertex := nat;
  Intersection := nat;
  VolumeVariables := unit;
|}.

Definition fvGeom : FVElementGeometry := {|
  numVertices := 3;
  numEdges := 3;
  subContVol := [ {| volume := 1 |}; {| volume := 1 |}; {| volume := 1 |} ];
  subContVolFace := [ {| scvf_i := 0; scvf_j := 1 |};
                      {| scvf_i := 0; scvf_j := 2 |};
                      {| scvf_i := 1; scvf_j := 2 |} ];
  boundaryFace := [];
  boundaryFaceIndex := λ faceIdx _, faceIdx;
|}.

Definition bcTypes : list BoundaryTypes :=
  replicate 3 {| boundaryKind := λ _, bcNone; eqToDirichletIndex := λ e, e |}.

#[export] Instance problem : ProblemInterface := {|
  timeStepSize := λ _, 1;
  dirichlet := λ _ _, [0]%list;
  neumann := λ _ _ _ _ _ _, [0]%list;
  updateCouplingParams := λ p _, p;
  intersections := λ _ _, [];
  boundary := λ _, false;
  indexInInside := λ isIt, isIt;
  subEntity := λ _ i, i;
  refElemSize := λ _ _, 0%nat;
  refElemSubEntity := λ _ faceIdx _, faceIdx;
  primaryVars := λ _, [0]%list;
  fvGeomUpdate := λ _ _, fvGeom;
  volVarsUpdate := λ _ _ _ _, [(); (); ()];
  bcTypesUpdate := λ _ _ _, bcTypes;
|}.

(** The fluxes as rationals and as binary64 numbers. *)
Definition exactFlux (k : nat) : list Qc :=
  match k with
  | 0%nat | 1%nat => [1]%list
  | _ => [Q2Qc (inject_Z 10000000000000000)]%list
  end.

Definition doubleFlux (k : nat) : list float :=
  match k with
  | 0%nat | 1%nat => [1%float]%list
  | _ => [10000000000000000%float]%list
  end.

#[export] Instance implementation : Implementation := {|
  computeFlux := λ _ _ k, exactFlux k;
  computeStorage := λ _ _ _ _, [0]%list;
  computeSource := λ _ _ _, [0]%list;
|}.

(** The evaluator with its residual zeroed, as [eval] and [evalFluxes]
    start the flux pass. *)
Definition self0 : BoxLocalResidual := {|
  residual_ := [ [0]%list; [0]%list; [0]%list ];
  ptrs_ := {| elemPtr_ := Some ();
              fvElemGeomPtr_ := Some fvGeom;
              prevVolVarsPtr_ := Some [(); (); ()];
              curVolVarsPtr_ := Some [(); (); ()];
              bcTypesPtr_ := Some bcTypes |};
|}.

(** The flux pass with [Scalar = double] over the first [n] faces of the
    triangle, on the zeroed residual. *)
Definition doublePass (n : nat) (computeFlux : nat → list float)
  : option (list (list float)) :=
  AnyScalar.evalFluxes_ PrimFloat.sub PrimFloat.add numEq
    n (subContVolFace fvGeom) computeFlux
    [ [0%float]%list; [0%float]%list; [0%float]%list ].

(** Fluxes of like size: 1, and the binary64 numbers next to 0.2
    and 0.1. *)
Definition likeFlux (k : nat) : list float :=
  match k with
  | 0%nat => [1%float]%list
  | 1%nat => [0x1.999999999999ap-3%float]%list
  | _ => [0x1.999999999999ap-4%float]%list
  end.

(** The sum of the one equation over the three sub-control volumes. *)
Definition doubleSum (r : list (list float)) : float :=
  AnyScalar.sumComponent PrimFloat.add 0%float 0 r.

End TriangleElement.

(** * Five cells around a vertex *)

(** An unstructured grid of five parallelograms around the vertex (10, 10).
    Cell [k] lies between the edges [d k] and [d (k + 1)] that leave the
    vertex; all edges have length 5.  The faces of a cell are numbered
    counter-clockwise from the edge [d k]: faces 0 and 3 touch the vertex and
    lead to the cells [k - 1] and [k + 1], faces 1 and 2 are on the boundary
    of the grid. *)
Module FiveCells.
Import MPFAO SquareGrid.

Definition d (k : nat) : Z * Z :=
  match (k mod 5)%nat with
  | 0%nat => (5, 0)
  | 1%nat => (3, 4)
  | 2%nat => (-4, 3)
  | 3%nat => (-4, -3)
  | _ => (3, -4)
  end%Z.

(** The point with the coordinates [x / 2] and [y / 2]. *)
Definition point (xy : Z * Z) : list Qc := [half xy.1; half xy.2].

(** The vertex in the middle, with its coordinates doubled. *)
Definition vertex2 : Z * Z := (20, 20)%Z.

Definition plus2 (a b : Z * Z) : Z * Z := (a.1 + b.1, a.2 + b.2)%Z.
Definition twice (a : Z * Z) : Z * Z := (2 * a.1, 2 * a.2)%Z.

(** The unit vector that stands on [v], an edge of length 5, to its right
    and to its left. *)
Definition rightOf (v : Z * Z) : list Qc :=
  [Q2Qc (v.2 # 5); Q2Qc (- v.1 # 5)].
Definition leftOf (v : Z * Z) : list Qc :=
  [Q2Qc (- v.2 # 5); Q2Qc (v.1 # 5)].

Definition intersection (k face : nat) : Intersection :=
  let a := d k in
  let b := d (k + 1) in
  let A := vertex2 in
  let B := plus2 vertex2 (twice a) in
  let C := plus2 B (twice b) in
  let D := plus2 vertex2 (twice b) in
  {| neighbor := bool_decide (face = 0%nat ∨ face = 3%nat);
     boundary := bool_decide (face ≠ 0%nat ∧ face ≠ 3%nat);
     inside := k;
     outside :=
       match face with
       | 0%nat => (k + 4) mod 5
       | 3%nat => (k + 1) mod 5
       | _ => 0
       end%nat;
     isCenter :=
       match face with
       | 0%nat => point (plus2 A a)
       | 1%nat => point (plus2 B b)
       | 2%nat => point (plus2 D a)
       | _ => point (plus2 A b)
       end;
     isVolume := q 5;
     corners :=
       match face with
       | 0%nat => [point A; point B]
       | 1%nat => [point B; point C]
       | 2%nat => [point C; point D]
       | _ => [point D; point A]
       end;
     indexInInside := face;
     centerUnitOuterNormal :=
       match face with
       | 0%nat => rightOf a
       | 1%nat => rightOf b
       | 2%nat => leftOf a
       | _ => leftOf b
       end |}.

Definition element (k : nat) : Element :=
  let a := d k in
  let b := d (k + 1) in
  {| center := point (plus2 vertex2 (plus2 a b));
     volume := q (a.1 * b.2 - a.2 * b.1);
     intersections := intersection k <$> [0; 1; 2; 3]%nat |}.

(** Cell [n] has the isotropic permeability [n + 1]; no sources. *)
Definition problem : Problem :=
  {| gridView := element <$> [0; 1; 2; 3; 4]%nat;
     index := λ cell, cell;
     source := λ _, [0; 0];
     intrinsicPermeability := λ cell, isotropic (q (Z.of_nat cell + 1)) |}.

(** The five cells at rest, with the pressures 7, 2, 3, 5, 1. *)
Definition state : State :=
  {| variables := variablesOf [q 7; q 2; q 3; q 5; q 1] [0; 0]; cout := [] |}.

(** Cell 2 and the two faces by which it touches the vertex: face 3 leads
    to cell 3 and face 0 to cell 1.  Cells 3 and 1 have no neighbour in
    common but cell 2: around the vertex they are followed by cells 4
    and 0. *)
Definition toCell3 : Intersection := intersection 2 3.
Definition toCell1 : Intersection := intersection 2 0.


End FiveCells.

(** * Line elements with other boundary types *)

(** The line element with vertex 1 in the interior.  Vertex 0: equation 0
    Dirichlet, equation 1 Neumann.  Vertex 1: no boundary condition. *)
Module HalfBoundary.
Import LineElement.

Definition bcTypes : list BoundaryTypes := [
  {| boundaryKind := λ e, match e with O => bcDirichlet | _ => bcNeumann end;
     eqToDirichletIndex := λ e, e |};
  {| boundaryKind := λ _, bcNone;
     eqToDirichletIndex := λ e, e |} ].

Definition self0 : BoxLocalResidual := {|
  residual_ := [ [Q2Qc 9; Q2Qc 8]; [Q2Qc 7; Q2Qc 6] ];
  ptrs_ := {| elemPtr_ := Some ();
              fvElemGeomPtr_ := Some fvGeom;
              prevVolVarsPtr_ := Some prevVolVars;
              curVolVarsPtr_ := Some curVolVars;
              bcTypesPtr_ := Some bcTypes |};
|}.

End HalfBoundary.

(** The line element without any boundary condition. *)
Module Interior.

Definition bcTypes : list BoundaryTypes := [
  {| boundaryKind := λ _, bcNone; eqToDirichletIndex := λ e, e |};
  {| boundaryKind := λ _, bcNone; eqToDirichletIndex := λ e, e |} ].

End Interior.

(** * Vocabulary of the statements on the velocity reconstruction *)

Module MPFAOFacts.
Import MPFAO.

(** The test of the search for the faces [isIt24] and [isIt34]: the
    intersection has a neighbour, that neighbour is not cell 1, and one of
    its corners is [corner1234]. *)
Definition touchesCorner (corner1234 : list Scalar) (cell1 : nat)
    (innerisIt : Intersection) : Prop :=
  neighbor innerisIt = true
  ∧ outside innerisIt ≠ cell1
  ∧ corner1234 ∈ corners innerisIt.

(** The cell data that the velocity reconstruction reads: [vars'] has the
    pressures, the mobilities and the densities of [vars]. *)
Definition sameInputs (vars vars' : Variables) : Prop :=
  pressure vars' = pressure vars
  ∧ mobilityWetting vars' = mobilityWetting vars
  ∧ mobilityNonwetting vars' = mobilityNonwetting vars
  ∧ densityWetting vars' = densityWetting vars
  ∧ densityNonwetting vars' = densityNonwetting vars.

(** A computation that, started in a state with the inputs of [vars0], ends
    in such a state, whether it returns or raises an exception; [Q] holds of
    the value it returns. *)
Definition keepsInputs {A : Type} (vars0 : Variables) (Q : A → Prop)
    (m : M A) : Prop :=
  ∀ s, sameInputs vars0 (variables s) →
    match m s with
    | Done a s' => sameInputs vars0 (variables s') ∧ Q a
    | Thrown _ s' => sameInputs vars0 (variables s')
    | Undefined => True
    end.

End MPFAOFacts.

(** * The faces of a square cell *)

Module SquareStates.
Import MPFAO SquareGrid.

(** The faces of a square cell: unit length, and the outer normals of the
    left, right, bottom and top face. *)
Definition squareLocals : Locals :=
  {| facevol := replicate 4 (Some 1);
     unitOuterNormal :=
       [Some [- (1); 0]; Some [1; 0]; Some [0; - (1)]; Some [0; 1]] |}.

(** The left intersection of cell 0, on the boundary of the grid. *)
Definition leftOf0 : Intersection := intersection square (0, 0)%Z 0.

End SquareStates.

(** * A grid of one triangle *)

Module TriangleGrid.
Import MPFAO SquareGrid.

(** The triangle with the corners (0, 0), (4, 0) and (0, 3): three
    intersections, all on the boundary, with the local indices 0, 1, 2. *)
Definition edge (face : nat) (mid : list Scalar) (len : Scalar)
    (ends : list (list Scalar)) (normal : list Scalar) : Intersection :=
  {| neighbor := false;
     boundary := true;
     inside := 0;
     outside := 0;
     isCenter := mid;
     isVolume := len;
     corners := ends;
     indexInInside := face;
     centerUnitOuterNormal := normal |}.

Definition triangle : Element :=
  {| center := [Q2Qc (4 # 3); 1];
     volume := q 6;
     intersections :=
       [ edge 0 [q 2; 0] (q 4) [[0; 0]; [q 4; 0]] [0; - (1)];
         edge 1 [q 2; half 3] (q 5) [[q 4; 0]; [0; q 3]]
           [Q2Qc (3 # 5); Q2Qc (4 # 5)];
         edge 2 [0; half 3] (q 3) [[0; q 3]; [0; 0]] [- (1); 0] ] |}.

Definition problem : Problem :=
  {| gridView := [triangle];
     index := λ cell, cell;
     source := λ _, [0; 0];
     intrinsicPermeability := λ _, isotropic 1 |}.

Definition state : State :=
  {| variables := variablesOf [1] [0; 0]; cout := [] |}.

End TriangleGrid.

(** * The black-oil problem: the time integration *)

(** [BlackOilProblem::timeIntegration]
    (ewoms/models/blackoil/blackoilproblem.hh), the loop that repeats the
    Newton update with halved time steps. *)
Module BlackOilProblem.

(** [Ewoms::Simulator], the model and the Newton method are declared
    outside the sources at hand; the class has the members that
    [timeIntegration] calls, under the names by which it calls them.
    [Solver] is the state of the model together with its Newton method. *)
Class Collaborators := {
  Simulator : Type;
  Solver : Type;
  (** [simulator().timeStepSize()], [simulator().setTimeStepSize(dt)] *)
  timeStepSize : Simulator → Scalar;
  setTimeStepSize : Scalar → Simulator → Simulator;
  episodeWillBeOver : Simulator → bool;
  willBeFinished : Simulator → bool;
  (** [model().update(newtonMethod())]: whether the update converged, and
    the simulator and the solver as the call leaves them *)
  update : Simulator → Solver → bool * Simulator * Solver;
  (** [newtonMethod().assembleTime()] and the like *)
  assembleTime : Solver → Scalar;
  solveTime : Solver → Scalar;
  updateTime : Solver → Scalar;
}.

(** The run-time parameters: [MaxTimeStepDivisions] is read as an
    [unsigned], [MinTimeStepSize] as a [Scalar]. *)
Record Parameters := {
  MaxTimeStepDivisions : N;
  MinTimeStepSize : Scalar;
}.

(** [int maxFails = EWOMS_GET_PARAM(TypeTag, unsigned, ...)]: the value of
    an [unsigned] of 32 bits converted to an [int] of 32 bits. *)
Definition toInt (u : N) : Z :=
  let z := (Z.of_N u mod 2 ^ 32)%Z in
  if (z <? 2 ^ 31)%Z then z else (z - 2 ^ 32)%Z.

(** One line of output: the time step that failed and the next one. *)
Record Message := {
  failedDt : Scalar;
  retryDt : Scalar;
}.

(** The [std::runtime_error] of [OPM_THROW], by the two numbers of its
    text. *)
Record RuntimeError := {
  reportedFails : Z;
  reportedDt : Scalar;
}.

Section TimeIntegration.
Context `{Collaborators}.

(** The problem object with what it refers to, and [std::cout]. *)
Record Problem := {
  simulator : Simulator;
  solver : Solver;
  (** [gridView().comm().rank()] *)
  rank : nat;
  assembleTime_ : Scalar;
  solveTime_ : Scalar;
  updateTime_ : Scalar;
  cout : list Message;
}.

Inductive Outcome :=
| Returned (p : Problem)
| Thrown (e : RuntimeError) (p : Problem).

Definition setSimulator (sim : Simulator) (p : Problem) : Problem :=
  {| simulator := sim; solver := solver p; rank := rank p;
     assembleTime_ := assembleTime_ p; solveTime_ := solveTime_ p;
     updateTime_ := updateTime_ p; cout := cout p |}.

Definition setSolver (sol : Solver) (p : Problem) : Problem :=
  {| simulator := simulator p; solver := sol; rank := rank p;
     assembleTime_ := assembleTime_ p; solveTime_ := solveTime_ p;
     updateTime_ := updateTime_ p; cout := cout p |}.

(** [assembleTime_ += newtonMethod().assembleTime()] and the two others *)
Definition addTimes (p : Problem) : Problem :=
  {| simulator := simulator p; solver := solver p; rank := rank p;
     assembleTime_ := assembleTime_ p + assembleTime (solver p);
     solveTime_ := solveTime_ p + solveTime (solver p);
     updateTime_ := updateTime_ p + updateTime (solver p);
     cout := cout p |}.

(** [if (gridView().comm().rank() == 0) std::cout << ...] *)
Definition report (dt nextDt : Scalar) (p : Problem) : Problem :=
  if decide (rank p = 0%nat) then
    {| simulator := simulator p; solver := solver p; rank := rank p;
       assembleTime_ := assembleTime_ p; solveTime_ := solveTime_ p;
       updateTime_ := updateTime_ p;
       cout := cout p ++ [{| failedDt := dt; retryDt := nextDt |}] |}
  else p.

(** [OPM_THROW(std::runtime_error, ...)] after the loop *)
Definition giveUp (maxFails : Z) (p : Problem) : Outcome :=
  Thrown {| reportedFails := maxFails;
            reportedDt := timeStepSize (simulator p) |} p.

(** The first statement: a time step below the minimum is raised to the
    minimum, unless the episode or the simulation ends with it. *)
Definition raiseTimeStep (params : Parameters) (p : Problem) : Problem :=
  let minTimeStepSize := MinTimeStepSize params in
  if Qclt_le_dec (timeStepSize (simulator p)) minTimeStepSize then
    if negb (episodeWillBeOver (simulator p))
       && negb (willBeFinished (simulator p))
    then setSimulator (setTimeStepSize minTimeStepSize (simulator p)) p
    else p
  else p.

(** [for (int i = 0; i < maxFails; ++i)], with [n] iterations to go. *)
Fixpoint attempts (params : Parameters) (maxFails : Z) (n : nat)
    (p : Problem) : Outcome :=
  match n with
  | O => giveUp maxFails p
  | S n' =>
      let '(converged, sim, sol) := update (simulator p) (solver p) in
      let p := setSolver sol (setSimulator sim p) in
      if converged then Returned (addTimes p)
      else
        let p := addTimes p in
        let dt := timeStepSize (simulator p) in
        let nextDt := dt / Q2Qc 2 in
        if Qclt_le_dec nextDt (MinTimeStepSize params) then giveUp maxFails p
        else
          let p := setSimulator (setTimeStepSize nextDt (simulator p)) p in
          let p := report dt nextDt p in
          attempts params maxFails n' p
  end.

Definition timeIntegration (params : Parameters) (p : Problem) : Outcome :=
  let maxFails := toInt (MaxTimeStepDivisions params) in
  let p := raiseTimeStep params p in
  attempts params maxFails (Z.to_nat maxFails) p.

(** What the statements below assume of the collaborators: the time step
    size is the one that was set last, and an update of the model does not
    set it. *)
Class TimeStepKept : Prop := {
  timeStepSize_set x sim : timeStepSize (setTimeStepSize x sim) = x;
  timeStepSize_update sim sol :
    timeStepSize (update sim sol).1.2 = timeStepSize sim;
}.

End TimeIntegration.

End BlackOilProblem.

(** A solver that converges for time steps below 1; its state counts the
    updates. *)
Module CountingSolver.
Import BlackOilProblem.

#[export] Instance counting : Collaborators := {|
  Simulator := Qc;
  Solver := nat;
  timeStepSize := λ dt, dt;
  setTimeStepSize := λ dt _, dt;
  episodeWillBeOver := λ _, false;
  willBeFinished := λ _, false;
  update := λ dt n, (if Qclt_le_dec dt 1 then true else false, dt, S n);
  assembleTime := λ _, 1;
  solveTime := λ _, Q2Qc 2;
  updateTime := λ _, Q2Qc 3;
|}.

(** A problem with the time step 4 before any update. *)
Definition start : Problem :=
  {| simulator := Q2Qc 4; solver := 0%nat; rank := 0;
     assembleTime_ := 0; solveTime_ := 0; updateTime_ := 0; cout := [] |}.

(** At most five attempts, and no time step below 1/16. *)
Definition params (maxTimeStepDivisions : N) : Parameters :=
  {| MaxTimeStepDivisions := maxTimeStepDivisions;
     MinTimeStepSize := Q2Qc (1 # 16) |}.

End CountingSolver.

(** * The assembler: rescaling of the linear system *)

(** [AssemblerPDELab::assemble] (dumux/boxmodels/pdelab/assemblerpdelab.hh).
    The matrix is block-sparse: a list of block rows, each the list of the
    blocks present in the row with their columns; a block is a
    [FieldMatrix] with [rowsInBlock] rows and [colsInBlock] columns, and a
    vector is a list of [FieldVector]s.  The operations of the matrix and
    vector classes, a library outside the repository, follow the
    documentation of that library; an access outside a container, or to a
    block that the row does not have, is undefined in the source and fails
    here. *)
Module AssemblerPDELab.

Abbreviation Block := (list (list Scalar)) (only parsing).
Abbreviation BlockRow := (list (nat * list (list Scalar))) (only parsing).
Abbreviation Matrix := (list (list (nat * list (list Scalar)))) (only parsing).
Abbreviation Vector := (list (list Scalar)) (only parsing).

(** [std::max(a, b)] *)
Definition max (a b : Scalar) : Scalar := if Qclt_le_dec a b then b else a.

(** [1e-14] *)
Definition threshold : Scalar := Q2Qc (1 # 100000000000000).

(** The block of the block row [*iBlock] in column [j] *)
Definition block (iBlock : BlockRow) (j : nat) : option Block :=
  (λ found, found.2.2) <$> list_find (λ jBlock, jBlock.1 = j) iBlock.

(** [v[r][i]] read, for a vector or a block *)
Definition entry (v : Vector) (r i : nat) : option Scalar :=
  row ← v !! r; row !! i.

(** [*matrix_ = 0] and [*f = 0]: every entry present becomes zero. *)
Definition zeroVector (v : Vector) : Vector :=
  (λ row : list Scalar, (λ _ : Scalar, 0) <$> row) <$> v.

Definition zeroMatrix (matrix_ : Matrix) : Matrix :=
  (λ iBlock : list (nat * list (list Scalar)),
     (λ jBlock : nat * list (list Scalar),
        (jBlock.1, zeroVector jBlock.2)) <$> iBlock) <$> matrix_.

Section Assemble.

(** [Matrix::block_type::rows] and [cols] *)
Variables rowsInBlock colsInBlock : nat.

(** [gridView().comm().size()], and what the communication of the data
    handle leaves in the vector on this process. *)
Variable commSize : nat.
Variable communicate : Vector → Vector.

(** The operator space and the constraints: [jacobian(u, matrix)] and
    [residual(u, f)] give the matrix and the vector that they leave,
    [set_constrained_dofs(trafo, x, v)] the vector that it leaves. *)
Variable jacobian : Vector → Matrix → Matrix.
Variable residual : Vector → Vector → Vector.
Variable set_constrained_dofs : Scalar → Vector → Vector.

(** The loop over the columns of row [i] of the diagonal block: the largest
    absolute value of the row. *)
Definition rowMax (diagBlock : Block) (i : nat) : option Scalar :=
  for_range colsInBlock (λ j diagonalEntry,
    row ← diagBlock !! i;
    x ← row !! j;
    Some (max diagonalEntry (Qcabs x))) 0.

(** [diagonalEntry[i]] after the test against [1e-14] *)
Definition diagonalEntry (diagBlock : Block) (i : nat) : option Scalar :=
  d ← rowMax diagBlock i;
  Some (if Qclt_le_dec d threshold then 1 else d).

(** The first loop over the block rows; [diagonalEntries] starts as a copy
    of [f]. *)
Definition computeDiagonalEntries (matrix_ : Matrix) (f : Vector)
  : option Vector :=
  for_range (length matrix_) (λ r diagonalEntries,
    iBlock ← matrix_ !! r;
    diagBlock ← block iBlock r;
    for_range rowsInBlock (λ i diagonalEntries,
      d ← diagonalEntry diagBlock i;
      row ← diagonalEntries !! r;
      _ ← row !! i;
      Some (<[r := <[i := d]> row]> diagonalEntries)) diagonalEntries) f.

(** Every entry [i][j] of the block [*jBlock] is divided by
    [diagonalEntries[r][i]]. *)
Definition divideBlock (diagonalEntries : Vector) (r : nat) (jBlock : Block)
  : option Block :=
  for_range rowsInBlock (λ i jBlock,
    for_range colsInBlock (λ j jBlock,
      d ← entry diagonalEntries r i;
      row ← jBlock !! i;
      x ← row !! j;
      Some (<[i := <[j := x / d]> row]> jBlock)) jBlock) jBlock.

(** The body of the second loop over the block rows: the right-hand side,
    then every block of the row. *)
Definition divideRow (diagonalEntries : Vector) (r : nat)
    (system : list (list (nat * list (list Scalar))) * list (list Scalar))
  : option (list (list (nat * list (list Scalar))) * list (list Scalar)) :=
  f ← for_range rowsInBlock (λ i f,
         d ← entry diagonalEntries r i;
         row ← f !! r;
         x ← row !! i;
         Some (<[r := <[i := x / d]> row]> f)) system.2;
  iBlock ← system.1 !! r;
  iBlock ← mapM (λ jBlock,
               b ← divideBlock diagonalEntries r jBlock.2;
               Some (jBlock.1, b)) iBlock;
  Some (<[r := iBlock]> system.1, f).

(** The rescaling of the Jacobian and of the right-hand side to the largest
    entry of the rows of the diagonal blocks. *)
Definition rescale (matrix_ : Matrix) (f : Vector)
  : option (list (list (nat * list (list Scalar))) * list (list Scalar)) :=
  diagonalEntries ← computeDiagonalEntries matrix_ f;
  let diagonalEntries :=
    if decide (1 < commSize)%nat then communicate diagonalEntries
    else diagonalEntries in
  for_range (length matrix_) (divideRow diagonalEntries) (matrix_, f).

(** [assemble(loc, u, f)]: the matrix, [u] and [f] as the call leaves
    them. *)
Definition assemble (matrix_ : Matrix) (u f : Vector)
  : option (list (list (nat * list (list Scalar))) * list (list Scalar)
            * list (list Scalar)) :=
  let matrix_ := jacobian u (zeroMatrix matrix_) in
  let f := residual u (zeroVector f) in
  let f := set_constrained_dofs 0 f in
  let u := set_constrained_dofs 0 u in
  system ← rescale matrix_ f;
  Some (system.1, u, system.2).

(** The containers fit together: one entry of [f] per block row, with
    [rowsInBlock] numbers; blocks of [rowsInBlock] rows of [colsInBlock]
    numbers; and a diagonal block in every block row. *)
Definition shapedBlock (b : Block) : Prop :=
  length b = rowsInBlock ∧ Forall (λ row, length row = colsInBlock) b.

Definition wellShaped (matrix_ : Matrix) (f : Vector) : Prop :=
  length f = length matrix_
  ∧ Forall (λ row, length row = rowsInBlock) f
  ∧ Forall (λ iBlock, Forall (λ jBlock, shapedBlock jBlock.2) iBlock) matrix_
  ∧ ∀ r iBlock, matrix_ !! r = Some iBlock → is_Some (block iBlock r).

(** The block [b'] is the block [b] with every entry of row [i] divided by
    the factor [d i]. *)
Definition blockDivided (d : nat → option Scalar) (b b' : Block) : Prop :=
  shapedBlock b'
  ∧ ∀ i j, (i < rowsInBlock)%nat →
      entry b' i j = (x ← entry b i j; y ← d i; Some (x / y)).

(** The block row [iBlock'] and the entry [fr'] of the right-hand side are
    [iBlock] and [fr] with row [i] of every block, and entry [i] of the
    right-hand side, divided by the factor [d i]; the blocks keep their
    columns. *)
Definition rowDivided (d : nat → option Scalar)
    (iBlock iBlock' : list (nat * list (list Scalar)))
    (fr fr' : list Scalar) : Prop :=
  length fr' = rowsInBlock
  ∧ (∀ i, (i < rowsInBlock)%nat →
       fr' !! i = (x ← fr !! i; y ← d i; Some (x / y)))
  ∧ Forall2 (λ jBlock jBlock',
       jBlock'.1 = jBlock.1 ∧ blockDivided d jBlock.2 jBlock'.2)
      iBlock iBlock'.

End Assemble.

End AssemblerPDELab.

(** A system of two block rows with blocks of two rows and two columns:
    the second row of the first diagonal block is zero. *)
Module TwoBlockRows.
Import AssemblerPDELab.

Definition matrix : list (list (nat * list (list Scalar))) :=
  [ [ (0%nat, [[Q2Qc 2; - Q2Qc 4]; [0; 0]]);
      (1%nat, [[Q2Qc 6; 1]; [Q2Qc 3; 1]]) ];
    [ (0%nat, [[1; 1]; [1; 1]]);
      (1%nat, [[Q2Qc (1 # 2); Q2Qc (1 # 4)]; [Q2Qc 5; - Q2Qc 10]]) ] ].

Definition rhs : list (list Scalar) :=
  [ [Q2Qc 8; Q2Qc 7]; [1; Q2Qc 20] ].

(** The system is assembled as it stands, on one process, without
    constrained degrees of freedom. *)
Definition assembled (u : list (list Scalar)) :=
  assemble 2 2 1 (λ v, v) (λ _ _, matrix) (λ _ _, rhs) (λ _ v, v)
    matrix u rhs.

(** The fractions of an assembled matrix and right-hand side. *)
Definition fractionsOf
    (result : option (list (list (nat * list (list Scalar)))
                      * list (list Scalar) * list (list Scalar)))
  : option (list (list (nat * list (list Q))) * list (list Q)) :=
  match result with
  | Some (matrix_, _, f) =>
      Some ((λ iBlock : list (nat * list (list Scalar)),
               (λ jBlock : nat * list (list Scalar),
                  (jBlock.1, fractions2 jBlock.2)) <$> iBlock) <$> matrix_,
            fractions2 f)
  | None => None
  end.

End TwoBlockRows.
(** * Facts about the loops *)

Section Loops.
Context {A S : Type}.
Implicit Types (body : A → S → option S) (P : S → Prop).

Lemma forM__app body (l1 l2 : list A) (s : S) :
  forM_ (l1 ++ l2) body s = forM_ l1 body s ≫= forM_ l2 body.
Proof.
  revert s. induction l1 as [|a l1 IH]; intros s; simpl; [done|].
  destruct (body a s) as [s'|]; simpl; [apply IH | done].
Qed.

(** A loop whose body is defined on, and keeps, an invariant runs to the end
    and keeps it. *)
Lemma forM__total body P (l : list A) (s : S) :
  (∀ a s, a ∈ l → P s → ∃ s', body a s = Some s' ∧ P s') →
  P s → ∃ s', forM_ l body s = Some s' ∧ P s'.
Proof.
  revert s. induction l as [|a l IH]; intros s Hbody Hs; simpl.
  - eauto.
  - destruct (Hbody a s) as (s1 & -> & Hs1); [by left | done |]. simpl.
    apply IH; [|done]. intros a' s' Ha'. apply Hbody. by right.
Qed.

Lemma forM__invariant body P (l : list A) (s s' : S) :
  (∀ a s s', a ∈ l → P s → body a s = Some s' → P s') →
  P s → forM_ l body s = Some s' → P s'.
Proof.
  revert s. induction l as [|a l IH]; intros s Hbody Hs; simpl.
  - by intros [= <-].
  - destruct (body a s) as [s1|] eqn:E; simpl; [|done].
    apply IH.
    + intros a' t t' Ha'. apply Hbody. by right.
    + eapply Hbody; [by left | done | done].
Qed.

End Loops.

Lemma for_range_S {S : Type} (n : nat) (body : nat → S → option S) (s : S) :
  for_range (Datatypes.S n) body s = for_range n body s ≫= body n.
Proof.
  unfold for_range. rewrite seq_S, forM__app. simpl.
  destruct (forM_ (seq 0 n) body s) as [s'|]; simpl; [|done].
  by destruct (body n s').
Qed.

Lemma for_range_total {S : Type} (P : S → Prop) (n : nat)
    (body : nat → S → option S) (s : S) :
  (∀ k s, (k < n)%nat → P s → ∃ s', body k s = Some s' ∧ P s') →
  P s → ∃ s', for_range n body s = Some s' ∧ P s'.
Proof.
  intros Hbody. apply forM__total. intros k t Hk.
  apply Hbody. apply elem_of_seq in Hk. lia.
Qed.

Lemma for_range_invariant {S : Type} (P : S → Prop) (n : nat)
    (body : nat → S → option S) (s s' : S) :
  (∀ k s s', (k < n)%nat → P s → body k s = Some s' → P s') →
  P s → for_range n body s = Some s' → P s'.
Proof.
  intros Hbody. apply forM__invariant. intros k t t' Hk.
  apply Hbody. apply elem_of_seq in Hk. lia.
Qed.

(** A counted loop whose step [k] is described by [Q k]: the invariant may
    depend on the number of steps done. *)
Lemma for_range_steps {S : Type} (Q : nat → S → Prop) (n : nat)
    (body : nat → S → option S) (s : S) :
  (∀ k s, (k < n)%nat → Q k s → ∃ s', body k s = Some s' ∧ Q (Datatypes.S k) s') →
  Q 0%nat s → ∃ s', for_range n body s = Some s' ∧ Q n s'.
Proof.
  intros Hbody Hs. induction n as [|n IH].
  - exists s. done.
  - destruct IH as (s1 & E1 & Hs1).
    { intros k t Hk. apply Hbody. lia. }
    rewrite for_range_S, E1. simpl. apply Hbody; [lia | done].
Qed.

(** * The residual as an array *)

Section Residual.
Context `{TypeTag}.
Implicit Types (r : list (list Qc)) (row : list Qc) (f : Qc → Qc).

Lemma shaped_lookup n r i :
  shaped n r → (i < n)%nat → ∃ row, r !! i = Some row ∧ length row = numEq.
Proof.
  intros [Hlen Hrows] Hi.
  destruct (lookup_lt_is_Some_2 r i) as [row Hrow]; [lia|].
  exists row. split; [done|]. by eapply Forall_lookup_1 in Hrows.
Qed.

Lemma shaped_insert n r i row :
  shaped n r → length row = numEq → shaped n (<[i := row]> r).
Proof.
  intros [Hlen Hrows] Hrow. split.
  - by rewrite length_insert.
  - by apply Forall_insert.
Qed.

Lemma shaped_component n r i eq :
  shaped n r → (i < n)%nat → (eq < numEq)%nat → is_Some (component r i eq).
Proof.
  intros Hr Hi Heq. destruct (shaped_lookup n r i) as (row & Hrow & Hlen);
    [done..|].
  unfold component. rewrite Hrow. simpl.
  apply lookup_lt_is_Some_2. lia.
Qed.

Lemma shaped_zeroResidual n : shaped n (zeroResidual n).
Proof.
  split.
  - apply length_replicate.
  - apply Forall_replicate. apply length_replicate.
Qed.

Lemma component_zeroResidual n i eq :
  (i < n)%nat → (eq < numEq)%nat → component (zeroResidual n) i eq = Some 0.
Proof.
  intros Hi Heq. unfold component, zeroResidual, FieldVector.const.
  rewrite lookup_replicate_2 by done. simpl.
  by rewrite lookup_replicate_2.
Qed.

Lemma component_insert r i row i' eq' :
  (i < length r)%nat →
  component (<[i := row]> r) i' eq'
  = if decide (i' = i) then row !! eq' else component r i' eq'.
Proof.
  intros Hi. unfold component. case_decide as Hd.
  - subst i'. by rewrite list_lookup_insert_eq.
  - by rewrite list_lookup_insert_ne.
Qed.

(** The effect of [residual_[i][eq] = f(residual_[i][eq])]. *)
Lemma alterComponent_spec n f i eq r :
  shaped n r → (i < n)%nat → (eq < numEq)%nat →
  ∃ x r', component r i eq = Some x
    ∧ alterComponent f i eq r = Some r'
    ∧ shaped n r'
    ∧ ∀ i' eq', component r' i' eq'
        = if decide (i' = i ∧ eq' = eq) then Some (f x)
          else component r i' eq'.
Proof.
  intros Hr Hi Heq.
  destruct (shaped_lookup n r i) as (row & Hrow & Hlen); [done..|].
  destruct (lookup_lt_is_Some_2 row eq) as [x Hx]; [lia|].
  exists x, (<[i := <[eq := f x]> row]> r).
  unfold alterComponent, component. rewrite Hrow. simpl. rewrite Hx. simpl.
  split_and!; [done | done | |].
  - apply shaped_insert; [done|]. by rewrite length_insert.
  - intros i' eq'. destruct Hr as [Hlenr _].
    destruct (decide (i' = i)) as [->|Hne].
    + rewrite list_lookup_insert_eq by lia. simpl.
      destruct (decide (eq' = eq)) as [->|Hne'].
      * rewrite list_lookup_insert_eq by lia. by rewrite decide_True.
      * rewrite list_lookup_insert_ne by done. rewrite decide_False by tauto.
        by rewrite Hrow.
    + rewrite list_lookup_insert_ne by done. by rewrite decide_False by tauto.
Qed.

Lemma sumComponent_insert eq r i row row' :
  r !! i = Some row →
  sumComponent eq (<[i := row']> r)
  = sumComponent eq r - default 0 (row !! eq) + default 0 (row' !! eq).
Proof.
  revert i. induction r as [|row0 r IH]; intros i Hi; [done|].
  destruct i as [|i]; simpl in *.
  - injection Hi as ->. ring.
  - rewrite (IH i Hi). ring.
Qed.

(** How one assignment to an entry changes the sums of the equations. *)
Lemma alterComponent_sum f i eq r r' x eq' :
  component r i eq = Some x →
  alterComponent f i eq r = Some r' →
  sumComponent eq' r'
  = if decide (eq' = eq) then sumComponent eq r - x + f x
    else sumComponent eq' r.
Proof.
  unfold component, alterComponent.
  destruct (r !! i) as [row|] eqn:Hrow; simpl; [|done].
  intros Hx. rewrite Hx. simpl. intros [= <-].
  rewrite (sumComponent_insert eq' r i row) by done.
  case_decide as Hd.
  - subst eq'. rewrite Hx. simpl.
    rewrite list_lookup_insert_eq by (by eapply lookup_lt_Some). simpl. ring.
  - rewrite list_lookup_insert_ne by done. ring.
Qed.

End Residual.

(** * The flux pass *)

Section FluxPass.
Context `{TypeTag} `{!ProblemInterface} `{!Implementation}.

Lemma subtractAddFlux_spec n i j flux r :
  shaped n r → (i < n)%nat → (j < n)%nat → length flux = numEq →
  ∃ r', subtractAddFlux i j flux r = Some r'
    ∧ shaped n r'
    ∧ (∀ v eq, (eq < numEq)%nat →
         component r' v eq = transferred i j flux r v eq)
    ∧ (∀ eq, sumComponent eq r' = sumComponent eq r).
Proof.
  intros Hr Hi Hj Hflux.
  pose (Q := λ (k : nat) (r' : list (list Qc)),
    shaped n r'
    ∧ (∀ v eq, component r' v eq
         = if decide (eq < k)%nat then transferred i j flux r v eq
           else component r v eq)
    ∧ (∀ eq, sumComponent eq r' = sumComponent eq r)).
  destruct (for_range_steps Q numEq
    (λ eq r, f ← flux !! eq;
             r ← alterComponent (λ x, x - f) i eq r;
             alterComponent (λ x, x + f) j eq r) r) as (r' & Hrun & Hr' & Hc & Hs).
  - intros k r1 Hk (Hr1 & Hc1 & Hs1).
    destruct (lookup_lt_is_Some_2 flux k) as [f Hf]; [lia|].
    rewrite Hf. simpl.
    destruct (alterComponent_spec n (λ x, x - f) i k r1)
      as (x1 & r2 & Hx1 & E2 & Hr2 & Hc2); [done..|]. rewrite E2. simpl.
    destruct (alterComponent_spec n (λ x, x + f) j k r2)
      as (y & r3 & Hy & E3 & Hr3 & Hc3); [done..|].
    exists r3. split; [done|]. split_and!; [done | |].
    + intros v eq. rewrite Hc3, Hc2.
      destruct (decide (eq = k)) as [->|Hne].
      * rewrite (decide_True (P := (k < Datatypes.S k)%nat)) by lia.
        unfold transferred, transfer. rewrite Hf.
        rewrite Hc2 in Hy. rewrite Hc1 in Hx1, Hy |- *.
        rewrite (decide_False (P := (k < k)%nat)) in Hx1, Hy |- * by lia.
        destruct (decide (v = j)) as [->|Hvj].
        -- rewrite decide_True by done.
           destruct (decide (j = i)) as [->|Hji].
           ++ rewrite decide_True in Hy by done. injection Hy as <-.
              rewrite Hx1. simpl. done.
           ++ rewrite decide_False in Hy by tauto. rewrite Hy. simpl. done.
        -- rewrite (decide_False (P := v = j ∧ k = k)) by tauto.
           destruct (decide (v = i)) as [->|Hvi].
           ++ rewrite decide_True by done. rewrite Hx1. simpl. done.
           ++ rewrite decide_False by tauto.
              destruct (component r v k); simpl; done.
      * rewrite !(decide_False (P := _ ∧ eq = k)) by tauto.
        rewrite Hc1. repeat case_decide; (done || lia).
    + intros eq.
      rewrite (alterComponent_sum _ j k r2 r3 y eq Hy E3).
      rewrite (alterComponent_sum _ i k r1 r2 x1 eq Hx1 E2).
      rewrite (alterComponent_sum _ i k r1 r2 x1 k Hx1 E2).
      rewrite (decide_True (P := k = k)) by done.
      case_decide as Hd.
      * subst eq. rewrite Hs1. ring.
      * apply Hs1.
  - split_and!; [done | | done].
    intros v eq. by rewrite decide_False by lia.
  - exists r'. split; [done|]. split_and!; [done | | done].
    intros v eq Heq. rewrite Hc. by rewrite decide_True.
Qed.


Lemma fluxOverFace_spec p self fvGeom k face :
  fvElemGeom_ self = Some fvGeom →
  subContVolFace fvGeom !! k = Some face →
  (scvf_i face < numVertices fvGeom)%nat →
  (scvf_j face < numVertices fvGeom)%nat →
  shaped (numVertices fvGeom) (residual_ self) →
  length (computeFlux p (ptrs_ self) k) = numEq →
  ∃ self', fluxOverFace p k self = Some self'
    ∧ ptrs_ self' = ptrs_ self
    ∧ shaped (numVertices fvGeom) (residual_ self')
    ∧ (∀ v eq, (eq < numEq)%nat →
         component (residual_ self') v eq
         = transferred (scvf_i face) (scvf_j face)
             (computeFlux p (ptrs_ self) k) (residual_ self) v eq)
    ∧ (∀ eq, sumComponent eq (residual_ self')
             = sumComponent eq (residual_ self)).
Proof.
  intros Hg Hface Hi Hj Hr Hflux.
  destruct (subtractAddFlux_spec (numVertices fvGeom) (scvf_i face)
              (scvf_j face) (computeFlux p (ptrs_ self) k) (residual_ self))
    as (r' & E & Hr' & Hc & Hs); [done..|].
  exists (setResidual r' self).
  unfold fluxOverFace. rewrite Hg. simpl. rewrite Hface. simpl.
  rewrite E. simpl. done.
Qed.

(** The state after the first [k] faces. *)
Lemma evalFluxes_prefix p self fvGeom k :
  fvElemGeom_ self = Some fvGeom →
  facesInRange fvGeom →
  shaped (numVertices fvGeom) (residual_ self) →
  (∀ k, length (computeFlux p (ptrs_ self) k) = numEq) →
  (k ≤ numEdges fvGeom)%nat →
  ∃ s, for_range k (fluxOverFace p) self = Some s
    ∧ ptrs_ s = ptrs_ self
    ∧ shaped (numVertices fvGeom) (residual_ s)
    ∧ (∀ eq, sumComponent eq (residual_ s)
             = sumComponent eq (residual_ self)).
Proof.
  intros Hg Hfaces Hr Hflux Hk.
  apply (for_range_total (λ s, ptrs_ s = ptrs_ self
    ∧ shaped (numVertices fvGeom) (residual_ s)
    ∧ (∀ eq, sumComponent eq (residual_ s)
             = sumComponent eq (residual_ self)))); [|done].
  intros k' s Hk' (Hp & Hs & Hsum).
  destruct (Hfaces k') as (face & Hface & Hi & Hj); [lia|].
  destruct (fluxOverFace_spec p s fvGeom k' face)
    as (s' & E & Hp' & Hs' & _ & Hsum'); try done.
  - unfold fvElemGeom_. rewrite Hp. exact Hg.
  - rewrite Hp. apply Hflux.
  - exists s'. split; [done|]. split_and!; [congruence | done |].
    intros eq. by rewrite Hsum', Hsum.
Qed.

(** The residuals after the first [k] faces, one after the other. *)
Lemma evalFluxes_trace p self fvGeom k :
  fvElemGeom_ self = Some fvGeom →
  facesInRange fvGeom →
  shaped (numVertices fvGeom) (residual_ self) →
  (∀ k, length (computeFlux p (ptrs_ self) k) = numEq) →
  (k ≤ numEdges fvGeom)%nat →
  ∃ s (trace : list (list (list Qc))),
    for_range k (fluxOverFace p) self = Some s
    ∧ ptrs_ s = ptrs_ self
    ∧ shaped (numVertices fvGeom) (residual_ s)
    ∧ length trace = S k
    ∧ trace !! 0%nat = Some (residual_ self)
    ∧ trace !! k = Some (residual_ s)
    ∧ ∀ k' face, (k' < k)%nat → subContVolFace fvGeom !! k' = Some face →
        ∃ before after,
          trace !! k' = Some before
          ∧ trace !! S k' = Some after
          ∧ shaped (numVertices fvGeom) after
          ∧ ∀ v eq, (v < numVertices fvGeom)%nat → (eq < numEq)%nat →
              ∃ x f,
                component before v eq = Some x
                ∧ computeFlux p (ptrs_ self) k' !! eq = Some f
                ∧ component after v eq
                  = Some (transfer (scvf_i face) (scvf_j face) f v x).
Proof.
  intros Hg Hfaces Hr Hflux. induction k as [|k IH]; intros Hk.
  - exists self, [residual_ self]%list. split_and!; try done.
    intros k' face Hk'. lia.
  - destruct IH as (s & trace & E & Hp & Hs & Hlen & Hfirst & Hlast & Hsteps);
      [lia|].
    destruct (Hfaces k) as (face & Hface & Hi & Hj); [lia|].
    destruct (fluxOverFace_spec p s fvGeom k face)
      as (s' & E' & Hp' & Hs' & Hc & _); try done.
    { unfold fvElemGeom_. rewrite Hp. exact Hg. }
    { rewrite Hp. apply Hflux. }
    exists s', (trace ++ [residual_ s']%list).
    split_and!.
    + rewrite for_range_S, E. exact E'.
    + congruence.
    + done.
    + rewrite length_app, Hlen. simpl. lia.
    + rewrite lookup_app_l by lia. exact Hfirst.
    + rewrite lookup_app_r by lia. rewrite Hlen, Nat.sub_diag. done.
    + intros k' face' Hk' Hface'.
      destruct (decide (k' = k)) as [->|Hne].
      * assert (face' = face) as -> by congruence.
        exists (residual_ s), (residual_ s'). split_and!.
        -- rewrite lookup_app_l by lia. exact Hlast.
        -- rewrite lookup_app_r by lia. rewrite Hlen, Nat.sub_diag. done.
        -- done.
        -- intros v eq Hv Heq.
           destruct (shaped_component _ _ v eq Hs Hv Heq) as [x Hx].
           destruct (lookup_lt_is_Some_2 (computeFlux p (ptrs_ self) k) eq)
             as [f Hf]; [by rewrite Hflux|].
           exists x, f. split; [done|]. split; [done|].
           rewrite Hc by done. unfold transferred. rewrite Hx. simpl.
           rewrite Hp, Hf. done.
      * destruct (Hsteps k' face') as (before & after & Hb & Ha & Hsa & Hva);
          [lia | done |].
        exists before, after. split_and!; try done.
        -- rewrite lookup_app_l by lia. exact Hb.
        -- rewrite lookup_app_l by lia. exact Ha.
Qed.

(** The flux pass is the loop of [AnyScalar] at the rationals, run on the
    residual of the evaluator. *)
Lemma evalFluxes__anyScalar p self fvGeom :
  fvElemGeom_ self = Some fvGeom →
  evalFluxes_ p self
  = (λ r, setResidual r self)
      <$> AnyScalar.evalFluxes_ Qcminus Qcplus numEq (numEdges fvGeom)
            (subContVolFace fvGeom) (computeFlux p (ptrs_ self))
            (residual_ self).
Proof.
  intros Hg. unfold evalFluxes_, AnyScalar.evalFluxes_. rewrite Hg. simpl.
  induction (numEdges fvGeom) as [|n IH].
  - by destruct self.
  - rewrite !for_range_S, IH.
    destruct (for_range n _ (residual_ self)) as [r|]; simpl; [|done].
    unfold fluxOverFace.
    change (fvElemGeom_ (setResidual r self)) with (fvElemGeom_ self).
    rewrite Hg. simpl.
    destruct (subContVolFace fvGeom !! n) as [face|]; simpl; [|done].
    change (subtractAddFlux (scvf_i face) (scvf_j face)
              (computeFlux p (ptrs_ self) n) r)
      with (AnyScalar.subtractAddFlux Qcminus Qcplus numEq
              (scvf_i face) (scvf_j face) (computeFlux p (ptrs_ self) n) r).
    by destruct (AnyScalar.subtractAddFlux _ _ _ _ _ _ _).
Qed.

(** C1, as amended.  The flux pass treats the sub-control-volume faces one
    after the other, and a face [k] from [i] to [j] always in the same way:
    it computes one flux vector [computeFlux(k)] and, for every equation,
    subtracts its entry from the residual of [i] and then adds the same
    entry to the residual of [j]; nothing else changes.  [trace] lists the
    residual before the first face and after each face; the last one is the
    residual that the pass leaves.  In the exact arithmetic of the rationals
    the pass therefore leaves the sum of each equation over the sub-control
    volumes of the cell as it was: its net contribution is zero. *)
Theorem flux_pass_face_by_face p self fvGeom :
  fvElemGeom_ self = Some fvGeom →
  facesInRange fvGeom →
  shaped (numVertices fvGeom) (residual_ self) →
  (∀ k, length (computeFlux p (ptrs_ self) k) = numEq) →
  ∃ self' (trace : list (list (list Qc))),
    evalFluxes_ p self = Some self'
    ∧ ptrs_ self' = ptrs_ self
    ∧ length trace = S (numEdges fvGeom)
    ∧ trace !! 0%nat = Some (residual_ self)
    ∧ trace !! numEdges fvGeom = Some (residual_ self')
    ∧ (∀ k face, (k < numEdges fvGeom)%nat →
         subContVolFace fvGeom !! k = Some face →
         ∃ before after,
           trace !! k = Some before
           ∧ trace !! S k = Some after
           ∧ shaped (numVertices fvGeom) after
           ∧ ∀ v eq, (v < numVertices fvGeom)%nat → (eq < numEq)%nat →
               ∃ x f,
                 component before v eq = Some x
                 ∧ computeFlux p (ptrs_ self) k !! eq = Some f
                 ∧ component after v eq
                   = Some (transfer (scvf_i face) (scvf_j face) f v x))
    ∧ ∀ eq, (eq < numEq)%nat →
        sumComponent eq (residual_ self')
        - sumComponent eq (residual_ self) = 0.
Proof.
  intros Hg Hfaces Hr Hflux.
  destruct (evalFluxes_trace p self fvGeom (numEdges fvGeom))
    as (self' & trace & E & Hp & _ & Hlen & Hfirst & Hlast & Hsteps);
    [done..|].
  destruct (evalFluxes_prefix p self fvGeom (numEdges fvGeom))
    as (self'' & E'' & _ & _ & Hsum); [done..|].
  assert (self'' = self') as -> by congruence.
  exists self', trace. split_and!; try done.
  - unfold evalFluxes_. rewrite Hg. exact E.
  - intros eq _. rewrite Hsum. ring.
Qed.

End FluxPass.

(** * The volume terms *)

Section VolumeTerms.
Context `{TypeTag} `{!ProblemInterface} `{!Implementation}.

Lemma scale_lookup (v : list Qc) (s : Qc) (j : nat) :
  FieldVector.scale v s !! j = (λ x, x * s) <$> v !! j.
Proof. unfold FieldVector.scale. apply list_lookup_fmap. Qed.

Lemma scale_length (v : list Qc) (s : Qc) :
  length (FieldVector.scale v s) = length v.
Proof. unfold FieldVector.scale. apply length_fmap. Qed.

Lemma sub_lookup (v w : list Qc) (j : nat) :
  FieldVector.sub v w !! j = (x ← v !! j; y ← w !! j; Some (x - y)).
Proof. unfold FieldVector.sub. apply lookup_zip_with. Qed.

Lemma add_lookup (v w : list Qc) (j : nat) :
  FieldVector.add v w !! j = (x ← v !! j; y ← w !! j; Some (x + y)).
Proof. unfold FieldVector.add. apply lookup_zip_with. Qed.

Lemma sub_length (v w : list Qc) :
  length w = length v → length (FieldVector.sub v w) = length v.
Proof. intros E. unfold FieldVector.sub. rewrite length_zip_with. lia. Qed.

Lemma add_length (v w : list Qc) :
  length w = length v → length (FieldVector.add v w) = length v.
Proof. intros E. unfold FieldVector.add. rewrite length_zip_with. lia. Qed.

(** [for (j < numEq) residual_[i][j] = op(residual_[i][j], v[j])] *)
Lemma accumulate_spec n op i v r :
  shaped n r → (i < n)%nat → length v = numEq →
  ∃ r', accumulate op i v r = Some r'
    ∧ shaped n r'
    ∧ ∀ i' j, (j < numEq)%nat →
        component r' i' j
        = if decide (i' = i)
          then y ← component r i j; x ← v !! j; Some (op y x)
          else component r i' j.
Proof.
  intros Hr Hi Hv.
  pose (Q := λ (k : nat) (r' : list (list Qc)),
    shaped n r'
    ∧ ∀ i' j, component r' i' j
        = if decide (i' = i ∧ (j < k)%nat)
          then y ← component r i j; x ← v !! j; Some (op y x)
          else component r i' j).
  destruct (for_range_steps Q numEq
    (λ j r, x ← v !! j; alterComponent (λ y, op y x) i j r) r)
    as (r' & Hrun & Hr' & Hc).
  - intros k r1 Hk (Hr1 & Hc1).
    destruct (lookup_lt_is_Some_2 v k) as [x Hx]; [lia|].
    rewrite Hx. simpl.
    destruct (alterComponent_spec n (λ y, op y x) i k r1)
      as (y & r2 & Hy & E2 & Hr2 & Hc2); [done..|].
    exists r2. split; [done|]. split; [done|].
    intros i' j. rewrite Hc2.
    destruct (decide (i' = i ∧ j = k)) as [[-> ->]|Hne].
    + rewrite decide_True by (split; [done | lia]).
      rewrite Hc1 in Hy. rewrite decide_False in Hy by lia.
      rewrite Hy. simpl. by rewrite Hx.
    + rewrite Hc1. repeat case_decide; (done || lia || tauto).
  - split; [done|]. intros i' j. by rewrite decide_False by lia.
  - exists r'. split; [done|]. split; [done|].
    intros i' j Hj. rewrite Hc.
    repeat case_decide; (done || lia || tauto).
Qed.

Lemma volumeTermsOf_spec `{!WellTyped} p self fvGeom i :
  fvElemGeom_ self = Some fvGeom →
  volumesInRange fvGeom →
  (i < numVertices fvGeom)%nat →
  shaped (numVertices fvGeom) (residual_ self) →
  ∃ self', volumeTermsOf p i self = Some self'
    ∧ ptrs_ self' = ptrs_ self
    ∧ shaped (numVertices fvGeom) (residual_ self')
    ∧ ∀ i' j, (j < numEq)%nat →
        component (residual_ self') i' j
        = if decide (i' = i)
          then component (residual_ self) i j
               ≫= withVolumeTerms p (ptrs_ self) fvGeom i j
          else component (residual_ self) i' j.
Proof.
  intros Hg Hvol Hi Hr.
  destruct (Hvol i Hi) as [scv Hscv].
  unfold volumeTermsOf. rewrite Hg. simpl. rewrite Hscv. simpl.
  set (mass := FieldVector.scale _ (volume scv / timeStepSize p)).
  set (src := FieldVector.scale _ (volume scv)).
  destruct (accumulate_spec (numVertices fvGeom) Qcplus i mass
              (residual_ self)) as (r1 & E1 & Hr1 & Hc1); [done.. | |].
  { unfold mass. rewrite scale_length, sub_length;
      by rewrite !computeStorage_length. }
  destruct (accumulate_spec (numVertices fvGeom) Qcminus i src r1)
    as (r2 & E2 & Hr2 & Hc2); [done.. | |].
  { unfold src. by rewrite scale_length, computeSource_length. }
  rewrite E1. simpl. rewrite E2. simpl.
  exists (setResidual r2 self). split; [done|]. split; [done|].
  split; [done|].
  intros i' j Hj. simpl. rewrite Hc2 by done.
  case_decide as Hd; [|by rewrite Hc1, decide_False by done].
  rewrite Hc1, decide_True by done.
  destruct (component (residual_ self) i j) as [x|]; simpl; [|done].
  unfold withVolumeTerms. rewrite Hscv. simpl.
  unfold mass, src. rewrite !scale_lookup, sub_lookup.
  destruct (computeStorage p (ptrs_ self) i false !! j) as [cur|]; simpl;
    [|done].
  destruct (computeStorage p (ptrs_ self) i true !! j) as [prev|]; simpl;
    [|done].
  by destruct (computeSource p (ptrs_ self) i !! j) as [s|].
Qed.


Lemma evalVolumeTerms_spec `{!WellTyped} p self fvGeom :
  fvElemGeom_ self = Some fvGeom →
  volumesInRange fvGeom →
  shaped (numVertices fvGeom) (residual_ self) →
  ∃ self', evalVolumeTerms_ p self = Some self'
    ∧ ptrs_ self' = ptrs_ self
    ∧ shaped (numVertices fvGeom) (residual_ self')
    ∧ ∀ i j, (i < numVertices fvGeom)%nat → (j < numEq)%nat →
        component (residual_ self') i j
        = component (residual_ self) i j
          ≫= withVolumeTerms p (ptrs_ self) fvGeom i j.
Proof.
  intros Hg Hvol Hr.
  pose (Q := λ (k : nat) (s : BoxLocalResidual),
    ptrs_ s = ptrs_ self
    ∧ shaped (numVertices fvGeom) (residual_ s)
    ∧ ∀ i j, (j < numEq)%nat →
        component (residual_ s) i j
        = if decide (i < k)%nat
          then component (residual_ self) i j
               ≫= withVolumeTerms p (ptrs_ self) fvGeom i j
          else component (residual_ self) i j).
  destruct (for_range_steps Q (numVertices fvGeom) (volumeTermsOf p) self)
    as (self' & E & Hp & Hs & Hc).
  - intros k s Hk (Hp & Hs & Hc).
    destruct (volumeTermsOf_spec p s fvGeom k)
      as (s' & E' & Hp' & Hs' & Hc'); [|done..|].
    { unfold fvElemGeom_. by rewrite Hp. }
    exists s'. split; [done|]. split_and!; [congruence | done |].
    intros i j Hj. rewrite Hc' by done.
    destruct (decide (i = k)) as [->|Hne].
    + rewrite decide_True by lia. rewrite Hc by done.
      rewrite decide_False by lia. by rewrite Hp.
    + rewrite Hc by done. repeat case_decide; (done || lia).
  - split_and!; [done | done |].
    intros i j Hj. by rewrite decide_False by lia.
  - exists self'. unfold evalVolumeTerms_. rewrite Hg. simpl.
    split; [done|]. split_and!; [done | done |].
    intros i j Hi Hj. rewrite Hc by done. by rewrite decide_True.
Qed.

Lemma evalStorage__spec p self fvGeom :
  fvElemGeom_ self = Some fvGeom →
  volumesInRange fvGeom →
  length (residual_ self) = numVertices fvGeom →
  ∃ self', evalStorage_ p self = Some self'
    ∧ ptrs_ self' = ptrs_ self
    ∧ ∀ i, (i < numVertices fvGeom)%nat →
        residual_ self' !! i
        = (scv ← subContVol fvGeom !! i;
           Some (FieldVector.scale (computeStorage p (ptrs_ self) i false)
                   (volume scv))).
Proof.
  intros Hg Hvol Hlen.
  pose (Q := λ (k : nat) (s : BoxLocalResidual),
    ptrs_ s = ptrs_ self
    ∧ length (residual_ s) = numVertices fvGeom
    ∧ ∀ i, (i < k)%nat →
        residual_ s !! i
        = (scv ← subContVol fvGeom !! i;
           Some (FieldVector.scale (computeStorage p (ptrs_ self) i false)
                   (volume scv)))).
  unfold evalStorage_. rewrite Hg. simpl.
  destruct (for_range_steps Q (numVertices fvGeom)
    (λ i self,
      scv ← subContVol fvGeom !! i;
      r ← alterRow
            (λ _, FieldVector.scale (computeStorage p (ptrs_ self) i false)
                    (volume scv)) i (residual_ self);
      Some (setResidual r self)) self)
    as (self' & E & Hp & _ & Hc).
  - intros k s Hk (Hp & Hl & Hc).
    destruct (Hvol k Hk) as [scv Hscv]. rewrite Hscv. simpl.
    destruct (lookup_lt_is_Some_2 (residual_ s) k) as [row Hrow]; [lia|].
    unfold alterRow. rewrite Hrow. simpl.
    eexists. split; [done|]. unfold setResidual. simpl.
    split_and!; [done | |].
    + simpl. by rewrite length_insert.
    + simpl. intros i Hi. destruct (decide (i = k)) as [->|Hne].
      * rewrite list_lookup_insert_eq by lia. rewrite Hscv. simpl.
        by rewrite Hp.
      * rewrite list_lookup_insert_ne by done. apply Hc. lia.
  - split_and!; [done | done |]. intros i Hi. lia.
  - exists self'. split; [done|]. split; [done|]. done.
Qed.

(** C3.  With a time step size other than zero, the volume-term pass adds
    to every entry of the residual of sub-control volume [i] the difference
    of [computeStorage] at the current and at the previous solution, times
    the volume of [i] divided by the time step size, and subtracts
    [computeSource(i)] times the volume of [i].
    The storage-only entry point [evalStorage] leaves in the residual of [i]
    [computeStorage] at the current solution, the same function, times the
    volume of [i]. *)
Theorem volume_terms_and_storage `{!WellTyped} p element self fvGeom :
  fvElemGeom_ self = Some fvGeom →
  volumesInRange fvGeom →
  volumesInRange (fvGeomUpdate p element) →
  shaped (numVertices fvGeom) (residual_ self) →
  timeStepSize p ≠ 0 →
  (∃ self', evalVolumeTerms_ p self = Some self'
     ∧ ∀ i j, (i < numVertices fvGeom)%nat → (j < numEq)%nat →
         ∃ x scv cur prev src,
           component (residual_ self) i j = Some x
           ∧ subContVol fvGeom !! i = Some scv
           ∧ computeStorage p (ptrs_ self) i false !! j = Some cur
           ∧ computeStorage p (ptrs_ self) i true !! j = Some prev
           ∧ computeSource p (ptrs_ self) i !! j = Some src
           ∧ component (residual_ self') i j
             = Some (x + (cur - prev) * (volume scv / timeStepSize p)
                       - src * volume scv))
  ∧ (∃ self', evalStorage p element self = Some self'
       ∧ ∀ i j, (i < numVertices (fvGeomUpdate p element))%nat →
           (j < numEq)%nat →
           ∃ scv cur,
             subContVol (fvGeomUpdate p element) !! i = Some scv
             ∧ computeStorage p (ptrs_ self') i false !! j = Some cur
             ∧ component (residual_ self') i j = Some (cur * volume scv)).
Proof.
  intros Hg Hvol Hvol' Hr Hdt. split.
  - destruct (evalVolumeTerms_spec p self fvGeom)
      as (self' & E & _ & _ & Hc); [done..|].
    exists self'. split; [done|]. intros i j Hi Hj.
    destruct (shaped_component _ _ i j Hr Hi Hj) as [x Hx].
    destruct (Hvol i Hi) as [scv Hscv].
    destruct (lookup_lt_is_Some_2 (computeStorage p (ptrs_ self) i false) j)
      as [cur Hcur]; [by rewrite computeStorage_length|].
    destruct (lookup_lt_is_Some_2 (computeStorage p (ptrs_ self) i true) j)
      as [prev Hprev]; [by rewrite computeStorage_length|].
    destruct (lookup_lt_is_Some_2 (computeSource p (ptrs_ self) i) j)
      as [src Hsrc]; [by rewrite computeSource_length|].
    exists x, scv, cur, prev, src. split_and!; try done.
    rewrite Hc by done. rewrite Hx. simpl. unfold withVolumeTerms.
    rewrite Hscv. simpl. rewrite Hcur. simpl. rewrite Hprev. simpl.
    by rewrite Hsrc.
  - unfold evalStorage.
    set (g := fvGeomUpdate p element) in *.
    set (self0 := {| residual_ := zeroResidual (numVertices g); ptrs_ := _ |}).
    destruct (evalStorage__spec p self0 g) as (self' & E & Hp & Hrows);
      [done | done | apply length_replicate |].
    exists self'. split; [done|]. intros i j Hi Hj.
    destruct (Hvol' i Hi) as [scv Hscv].
    destruct (lookup_lt_is_Some_2 (computeStorage p (ptrs_ self') i false) j)
      as [cur Hcur]; [by rewrite computeStorage_length|].
    exists scv, cur. split_and!; try done.
    unfold component. rewrite Hrows by done. rewrite Hscv. simpl.
    rewrite scale_lookup. rewrite Hp in Hcur. simpl in Hcur.
    by rewrite Hcur.
Qed.

End VolumeTerms.

(** * The boundary passes *)

Section Boundary.
Context `{TypeTag} `{!ProblemInterface} `{!Implementation} `{!WellTyped}.

Lemma isDirichlet_hasDirichlet bc e :
  (e < numEq)%nat → isDirichlet bc e = true → hasDirichlet bc = true.
Proof.
  intros He Hd. unfold hasDirichlet. apply existsb_exists.
  exists e. split; [|done]. apply in_seq. lia.
Qed.

Lemma hasDirichlet_elem (bcs : list BoundaryTypes) i bc :
  bcs !! i = Some bc → hasDirichlet bc = true → elemHasDirichlet bcs = true.
Proof.
  intros Hi Hd. unfold elemHasDirichlet. apply existsb_exists.
  exists bc. split; [|done]. apply list_elem_of_In.
  by eapply list_elem_of_lookup_2.
Qed.

(** One Neumann segment: the whole vector of fluxes, scaled by the area of
    the boundary face, is added to the residual of the sub-control volume
    when it has a Neumann equation; otherwise nothing happens. *)
Lemma evalNeumannSegment__spec p isIt scvIdx bfIdx self bc elem fvGeom bf :
  bcTypes_ self scvIdx = Some bc →
  elem_ self = Some elem →
  fvElemGeom_ self = Some fvGeom →
  boundaryFace fvGeom !! bfIdx = Some bf →
  (scvIdx < numVertices fvGeom)%nat →
  shaped (numVertices fvGeom) (residual_ self) →
  ∃ self', evalNeumannSegment_ p isIt scvIdx bfIdx self = Some self'
    ∧ ptrs_ self' = ptrs_ self
    ∧ shaped (numVertices fvGeom) (residual_ self')
    ∧ if hasNeumann bc then
        ∀ i eq, (i < numVertices fvGeom)%nat → (eq < numEq)%nat →
          ∃ x v,
            component (residual_ self) i eq = Some x
            ∧ neumann p elem fvGeom isIt scvIdx bfIdx !! eq = Some v
            ∧ component (residual_ self') i eq
              = Some (if decide (i = scvIdx) then x + v * area bf else x)
      else self' = self.
Proof.
  intros Hbc Helem Hg Hbf Hi Hr.
  unfold evalNeumannSegment_. rewrite Hbc. simpl.
  destruct (hasNeumann bc); [|by exists self].
  rewrite Helem, Hg. simpl. rewrite Hbf. simpl.
  destruct (shaped_lookup _ _ scvIdx Hr Hi) as (row & Hrow & Hlen).
  unfold alterRow. rewrite Hrow. simpl.
  set (values := FieldVector.scale _ (area bf)).
  assert (Hvalues : length values = numEq).
  { unfold values. by rewrite scale_length, neumann_length. }
  eexists. split; [done|]. split; [done|]. split.
  - simpl. apply shaped_insert; [done|].
    rewrite add_length; congruence.
  - intros i eq Hi' Heq. simpl.
    destruct (shaped_component _ _ i eq Hr Hi' Heq) as [x Hx].
    destruct (lookup_lt_is_Some_2
                (neumann p elem fvGeom isIt scvIdx bfIdx) eq) as [v Hv].
    { by rewrite neumann_length. }
    exists x, v. split; [done|]. split; [done|].
    destruct Hr as [Hlenr _].
    rewrite component_insert by lia.
    case_decide as Hd; [|done]. subst i.
    rewrite add_lookup. unfold values. rewrite scale_lookup, Hv. simpl.
    unfold component in Hx. rewrite Hrow in Hx. simpl in Hx.
    by rewrite Hx.
Qed.

(** C4, as amended.  For a sub-control volume of a boundary face with at
    least one Neumann equation, the boundary pass adds the Neumann flux times
    the area of the boundary face to every entry of the residual of that
    sub-control volume, whatever the classification of the equation; the
    residuals of the other sub-control volumes are left as they are, and a
    sub-control volume without a Neumann equation is left as it is. *)
Theorem neumann_segment_adds_whole_vector
    p isIt scvIdx bfIdx self bc elem fvGeom bf :
  bcTypes_ self scvIdx = Some bc →
  elem_ self = Some elem →
  fvElemGeom_ self = Some fvGeom →
  boundaryFace fvGeom !! bfIdx = Some bf →
  (scvIdx < numVertices fvGeom)%nat →
  shaped (numVertices fvGeom) (residual_ self) →
  ∃ self', evalNeumannSegment_ p isIt scvIdx bfIdx self = Some self'
    ∧ (hasNeumann bc = true →
       ∀ i eq, (i < numVertices fvGeom)%nat → (eq < numEq)%nat →
         ∃ x v,
           component (residual_ self) i eq = Some x
           ∧ neumann p elem fvGeom isIt scvIdx bfIdx !! eq = Some v
           ∧ component (residual_ self') i eq
             = Some (if decide (i = scvIdx) then x + v * area bf else x))
    ∧ (hasNeumann bc = false → self' = self).
Proof.
  intros Hbc Helem Hg Hbf Hi Hr.
  destruct (evalNeumannSegment__spec p isIt scvIdx bfIdx self bc elem fvGeom
              bf) as (self' & E & _ & _ & Hres); [done..|].
  exists self'. split; [done|].
  destruct (hasNeumann bc); split; (done || by intros).
Qed.

Lemma evalNeumann__total p self elem fvGeom cur bcTypes :
  elem_ self = Some elem →
  fvElemGeom_ self = Some fvGeom →
  bcTypesPtr_ (ptrs_ self) = Some bcTypes →
  WellFormed p elem fvGeom cur bcTypes →
  shaped (numVertices fvGeom) (residual_ self) →
  ∃ self', evalNeumann_ p self = Some self'
    ∧ ptrs_ self' = ptrs_ self
    ∧ shaped (numVertices fvGeom) (residual_ self').
Proof.
  intros Helem Hg Hbcs Hwf Hr.
  unfold evalNeumann_. rewrite Helem. simpl.
  pose (P := λ s : BoxLocalResidual,
    ptrs_ s = ptrs_ self ∧ shaped (numVertices fvGeom) (residual_ s)).
  assert (Hloop : ∀ isIts s,
    (∀ isIt, isIt ∈ isIts → isIt ∈ intersections p elem) → P s →
    ∃ s', evalNeumannLoop p isIts s = Some s' ∧ P s').
  { induction isIts as [|isIt isIts IH]; intros s Hsub Hs; simpl.
    { by exists s. }
    assert (Hrest : ∀ i, i ∈ isIts → i ∈ intersections p elem).
    { intros i Hi. apply Hsub. by right. }
    destruct (boundary isIt) eqn:Hb; [|by apply IH].
    assert (∃ s1, evalNeumannFace p isIt s = Some s1 ∧ P s1)
      as (s1 & E1 & Hs1).
    { destruct Hs as [Hp Hs]. unfold evalNeumannFace, elem_, fvElemGeom_.
      rewrite Hp. fold (elem_ self) (fvElemGeom_ self).
      rewrite Helem, Hg. simpl.
      apply (for_range_total P); [|done].
      intros fv t Hfv [Hpt Ht].
      destruct (wf_neumann _ _ _ _ _ Hwf isIt fv) as [Hscv [bf Hbf]];
        [apply Hsub; by left | done | done |].
      destruct (lookup_lt_is_Some_2 bcTypes
        (refElemSubEntity elem (indexInInside isIt) fv)) as [bc Hbc].
      { rewrite (wf_bcTypes _ _ _ _ _ Hwf). done. }
      destruct (evalNeumannSegment__spec p isIt
                  (refElemSubEntity elem (indexInInside isIt) fv)
                  (boundaryFaceIndex fvGeom (indexInInside isIt) fv)
                  t bc elem fvGeom bf)
        as (t' & E & Hpt' & Ht' & _); try done.
      - unfold bcTypes_. rewrite Hpt, Hbcs. done.
      - unfold elem_. rewrite Hpt. done.
      - unfold fvElemGeom_. rewrite Hpt. done.
      - exists t'. split; [done|]. split; [congruence | done]. }
    rewrite E1. simpl. by apply IH. }
  destruct (Hloop (intersections p elem) self) as (s' & E & Hp & Hs);
    [done | done |].
  by exists s'.
Qed.

Lemma setDirichlet_spec n bc i curPriVars tmp r :
  shaped n r → (i < n)%nat →
  length curPriVars = numEq → length tmp = numEq →
  (∀ e, (e < numEq)%nat → isDirichlet bc e = true →
        (eqToDirichletIndex bc e < numEq)%nat) →
  ∃ r', setDirichlet bc i curPriVars tmp r = Some r'
    ∧ shaped n r'
    ∧ ∀ i' e, (e < numEq)%nat →
        component r' i' e
        = if decide (i' = i ∧ isDirichlet bc e = true)
          then c ← curPriVars !! eqToDirichletIndex bc e;
               v ← tmp !! eqToDirichletIndex bc e;
               Some (c - v)
          else component r i' e.
Proof.
  intros Hr Hi Hcur Htmp Hidx.
  pose (Q := λ (k : nat) (r' : list (list Qc)),
    shaped n r'
    ∧ ∀ i' e, component r' i' e
        = if decide (i' = i ∧ (e < k)%nat ∧ isDirichlet bc e = true)
          then c ← curPriVars !! eqToDirichletIndex bc e;
               v ← tmp !! eqToDirichletIndex bc e;
               Some (c - v)
          else component r i' e).
  destruct (for_range_steps Q numEq
    (λ eqIdx r,
      if isDirichlet bc eqIdx then
        let pvIdx := eqToDirichletIndex bc eqIdx in
        c ← curPriVars !! pvIdx;
        v ← tmp !! pvIdx;
        alterComponent (λ _, c - v) i eqIdx r
      else Some r) r) as (r' & E & Hr' & Hc).
  - intros k r1 Hk (Hr1 & Hc1).
    destruct (isDirichlet bc k) eqn:Hd.
    + specialize (Hidx k Hk Hd).
      destruct (lookup_lt_is_Some_2 curPriVars (eqToDirichletIndex bc k))
        as [c Hcv]; [lia|].
      destruct (lookup_lt_is_Some_2 tmp (eqToDirichletIndex bc k))
        as [v Hv]; [lia|].
      simpl. rewrite Hcv. simpl. rewrite Hv. simpl.
      destruct (alterComponent_spec n (λ _, c - v) i k r1)
        as (y & r2 & Hy & E2 & Hr2 & Hc2); [done..|].
      exists r2. split; [done|]. split; [done|].
      intros i' e. rewrite Hc2.
      destruct (decide (i' = i ∧ e = k)) as [[-> ->]|Hne].
      * rewrite decide_True by (split_and!; [done | lia | done]).
        rewrite Hcv. simpl. by rewrite Hv.
      * rewrite Hc1.
        destruct (decide (i' = i ∧ (e < k)%nat ∧ isDirichlet bc e = true))
          as [Ha|Ha],
          (decide (i' = i ∧ (e < S k)%nat ∧ isDirichlet bc e = true))
          as [Hb|Hb]; try done; exfalso.
        -- apply Hb. split_and!; [tauto | lia | tauto].
        -- apply Ha. split_and!; [tauto | | tauto].
           destruct (decide (e = k)); [tauto | lia].
    + exists r1. split; [done|]. split; [done|].
      intros i' e. rewrite Hc1.
      destruct (decide (i' = i ∧ (e < k)%nat ∧ isDirichlet bc e = true))
        as [Ha|Ha],
        (decide (i' = i ∧ (e < S k)%nat ∧ isDirichlet bc e = true))
        as [Hb|Hb]; try done; exfalso.
      * apply Hb. split_and!; [tauto | lia | tauto].
      * apply Ha. split_and!; [tauto | | tauto].
        destruct (decide (e = k)) as [->|]; [|lia].
        destruct Hb as (_ & _ & Hb). congruence.
  - split; [done|]. intros i' e. by rewrite decide_False by lia.
  - exists r'. split; [done|]. split; [done|].
    intros i' e He. rewrite Hc.
    destruct (decide (i' = i ∧ (e < numEq)%nat ∧ isDirichlet bc e = true)),
      (decide (i' = i ∧ isDirichlet bc e = true)); try done; exfalso; tauto.
Qed.

Lemma hasDirichlet_false bc e :
  hasDirichlet bc = false → (e < numEq)%nat → isDirichlet bc e = false.
Proof.
  intros Hh He. destruct (isDirichlet bc e) eqn:Hd; [|done].
  by rewrite (isDirichlet_hasDirichlet bc e He Hd) in Hh.
Qed.

Lemma dirichletOf_spec p self elem fvGeom cur bcTypes i :
  elem_ self = Some elem →
  curVolVarsPtr_ (ptrs_ self) = Some cur →
  bcTypesPtr_ (ptrs_ self) = Some bcTypes →
  WellFormed p elem fvGeom cur bcTypes →
  (i < numVertices fvGeom)%nat →
  shaped (numVertices fvGeom) (residual_ self) →
  ∃ self', dirichletOf p i self = Some self'
    ∧ ptrs_ self' = ptrs_ self
    ∧ shaped (numVertices fvGeom) (residual_ self')
    ∧ ∀ i' e, (e < numEq)%nat →
        component (residual_ self') i' e
        = if decide (i' = i)
          then component (residual_ self) i e
               ≫= withDirichlet p elem cur bcTypes i e
          else component (residual_ self) i' e.
Proof.
  intros Helem Hcur Hbcs Hwf Hi Hr.
  destruct (lookup_lt_is_Some_2 bcTypes i) as [bc Hbc].
  { by rewrite (wf_bcTypes _ _ _ _ _ Hwf). }
  destruct (lookup_lt_is_Some_2 cur i) as [vv Hvv].
  { by rewrite (wf_curVolVars _ _ _ _ _ Hwf). }
  unfold dirichletOf, bcTypes_. rewrite Hbcs. simpl. rewrite Hbc. simpl.
  destruct (hasDirichlet bc) eqn:Hh.
  - rewrite Helem. simpl.
    unfold curPrimaryVars_, curVolVars_. rewrite Hcur. simpl.
    rewrite Hvv. simpl.
    destruct (setDirichlet_spec (numVertices fvGeom) bc i (primaryVars vv)
                (dirichlet p (subEntity elem i)) (residual_ self))
      as (r' & E & Hr' & Hc); [done | done | | | |].
    { apply primaryVars_length. }
    { apply dirichlet_length. }
    { intros e He Hd. by eapply (wf_dirichlet _ _ _ _ _ Hwf). }
    rewrite E. simpl. exists (setResidual r' self).
    split; [done|]. split; [done|]. split; [done|].
    intros i' e He. simpl. rewrite Hc by done.
    destruct (decide (i' = i)) as [->|Hne].
    + destruct (shaped_component _ _ i e Hr Hi He) as [x Hx].
      rewrite Hx. simpl. unfold withDirichlet. rewrite Hbc. simpl.
      destruct (isDirichlet bc e) eqn:Hd.
      * rewrite decide_True by done. rewrite Hvv. done.
      * rewrite decide_False by (intros [_ ?]; done). done.
    + by rewrite decide_False by tauto.
  - exists self. split; [done|]. split; [done|]. split; [done|].
    intros i' e He. case_decide as Hd; [|done]. subst i'.
    destruct (shaped_component _ _ i e Hr Hi He) as [x Hx].
    rewrite Hx. simpl. unfold withDirichlet. rewrite Hbc. simpl.
    by rewrite (hasDirichlet_false bc e Hh He).
Qed.

Lemma evalDirichlet__spec p self elem fvGeom cur bcTypes :
  elem_ self = Some elem →
  fvElemGeom_ self = Some fvGeom →
  curVolVarsPtr_ (ptrs_ self) = Some cur →
  bcTypesPtr_ (ptrs_ self) = Some bcTypes →
  WellFormed p elem fvGeom cur bcTypes →
  shaped (numVertices fvGeom) (residual_ self) →
  ∃ self', evalDirichlet_ p self = Some self'
    ∧ ptrs_ self' = ptrs_ self
    ∧ shaped (numVertices fvGeom) (residual_ self')
    ∧ ∀ i e, (i < numVertices fvGeom)%nat → (e < numEq)%nat →
        component (residual_ self') i e
        = component (residual_ self) i e
          ≫= withDirichlet p elem cur bcTypes i e.
Proof.
  intros Helem Hg Hcur Hbcs Hwf Hr.
  pose (Q := λ (k : nat) (s : BoxLocalResidual),
    ptrs_ s = ptrs_ self
    ∧ shaped (numVertices fvGeom) (residual_ s)
    ∧ ∀ i e, (e < numEq)%nat →
        component (residual_ s) i e
        = if decide (i < k)%nat
          then component (residual_ self) i e
               ≫= withDirichlet p elem cur bcTypes i e
          else component (residual_ self) i e).
  destruct (for_range_steps Q (numVertices fvGeom) (dirichletOf p) self)
    as (self' & E & Hp & Hs & Hc).
  - intros k s Hk (Hp & Hs & Hc).
    destruct (dirichletOf_spec p s elem fvGeom cur bcTypes k)
      as (s' & E' & Hp' & Hs' & Hc'); try done.
    { unfold elem_. by rewrite Hp. }
    { by rewrite Hp. }
    { by rewrite Hp. }
    exists s'. split; [done|]. split_and!; [congruence | done |].
    intros i e He. rewrite Hc' by done.
    destruct (decide (i = k)) as [->|Hne].
    + rewrite decide_True by lia. rewrite Hc by done.
      by rewrite decide_False by lia.
    + rewrite Hc by done. repeat case_decide; (done || lia).
  - split_and!; [done | done |].
    intros i e He. by rewrite decide_False by lia.
  - exists self'. unfold evalDirichlet_. rewrite Hg. simpl.
    split; [done|]. split_and!; [done | done |].
    intros i e Hi He. rewrite Hc by done. by rewrite decide_True.
Qed.

(** [eval] runs to the end on arguments that fit together, and its last pass
    is the Dirichlet pass when some sub-control volume has a Dirichlet
    equation. *)
Lemma eval_total p element fvGeom prev cur bcTypes self :
  WellFormed p element fvGeom cur bcTypes →
  ∃ before self',
    eval p element fvGeom prev cur bcTypes self = Some self'
    ∧ ptrs_ self' = evalPointers element fvGeom prev cur bcTypes
    ∧ shaped (numVertices fvGeom) (residual_ before)
    ∧ shaped (numVertices fvGeom) (residual_ self')
    ∧ ∀ i e, (i < numVertices fvGeom)%nat → (e < numEq)%nat →
        component (residual_ self') i e
        = if elemHasDirichlet bcTypes
          then component (residual_ before) i e
               ≫= withDirichlet p element cur bcTypes i e
          else component (residual_ before) i e.
Proof.
  intros Hwf. unfold eval. simpl.
  set (ptrs := {| elemPtr_ := Some element |}).
  set (self0 := setResidual _ _).
  assert (Hs0 : shaped (numVertices fvGeom) (residual_ self0)).
  { apply shaped_zeroResidual. }
  destruct (evalFluxes_prefix p self0 fvGeom (numEdges fvGeom))
    as (s1 & E1 & Hp1 & Hs1 & _); [done | apply Hwf | done | | done |].
  { intros k. apply computeFlux_length. }
  unfold evalFluxes_ at 1. change (fvElemGeom_ self0) with (Some fvGeom).
  simpl. rewrite E1. simpl.
  destruct (evalVolumeTerms_spec p s1 fvGeom)
    as (s2 & E2 & Hp2 & Hs2 & _); [| apply Hwf | done |].
  { unfold fvElemGeom_. by rewrite Hp1. }
  rewrite E2. simpl.
  assert (∃ s3, (if elemHasNeumann bcTypes then evalNeumann_ p s2
                 else Some s2) = Some s3
            ∧ ptrs_ s3 = ptrs
            ∧ shaped (numVertices fvGeom) (residual_ s3))
    as (s3 & E3 & Hp3 & Hs3).
  { destruct (elemHasNeumann bcTypes).
    - destruct (evalNeumann__total p s2 element fvGeom cur bcTypes)
        as (s3 & E3 & Hp3 & Hs3); try done.
      + unfold elem_. by rewrite Hp2, Hp1.
      + unfold fvElemGeom_. by rewrite Hp2, Hp1.
      + by rewrite Hp2, Hp1.
      + exists s3. split; [done|]. split; [by rewrite Hp3, Hp2, Hp1 | done].
    - exists s2. split; [done|]. split; [by rewrite Hp2, Hp1 | done]. }
  rewrite E3. simpl. exists s3.
  destruct (elemHasDirichlet bcTypes).
  - destruct (evalDirichlet__spec p s3 element fvGeom cur bcTypes)
      as (s4 & E4 & Hp4 & Hs4 & Hc4); try done.
    + unfold elem_. by rewrite Hp3.
    + unfold fvElemGeom_. by rewrite Hp3.
    + by rewrite Hp3.
    + by rewrite Hp3.
    + exists s4. split_and!; try done. by rewrite Hp4, Hp3.
  - exists s3. split_and!; try done.
Qed.

(** C2.  After a full residual evaluation, the entry of the residual for a
    sub-control volume [i] and an equation [e] that the boundary types of [i]
    classify as Dirichlet is the current primary variable minus the
    prescribed Dirichlet value (both taken at the primary variable that the
    boundary types associate with [e]): the Dirichlet pass runs last and
    assigns the entry, whatever the fluxes, the storage, the sources and the
    Neumann fluxes had accumulated in it. *)
Theorem dirichlet_overwrites p element fvGeom prev cur bcTypes self :
  WellFormed p element fvGeom cur bcTypes →
  ∃ self', eval p element fvGeom prev cur bcTypes self = Some self'
    ∧ ∀ i bc e,
        bcTypes !! i = Some bc → (e < numEq)%nat →
        isDirichlet bc e = true →
        ∃ vv c v,
          cur !! i = Some vv
          ∧ primaryVars vv !! eqToDirichletIndex bc e = Some c
          ∧ dirichlet p (subEntity element i) !! eqToDirichletIndex bc e
            = Some v
          ∧ component (residual_ self') i e = Some (c - v).
Proof.
  intros Hwf.
  destruct (eval_total p element fvGeom prev cur bcTypes self Hwf)
    as (before & self' & E & _ & Hb & _ & Hc).
  exists self'. split; [done|]. intros i bc e Hbc He Hd.
  assert (Hi : (i < numVertices fvGeom)%nat).
  { rewrite <- (wf_bcTypes _ _ _ _ _ Hwf). by eapply lookup_lt_Some. }
  destruct (lookup_lt_is_Some_2 cur i) as [vv Hvv].
  { by rewrite (wf_curVolVars _ _ _ _ _ Hwf). }
  pose proof (wf_dirichlet _ _ _ _ _ Hwf i bc e Hbc He Hd) as Hidx.
  destruct (lookup_lt_is_Some_2 (primaryVars vv) (eqToDirichletIndex bc e))
    as [c Hcv]; [by rewrite primaryVars_length|].
  destruct (lookup_lt_is_Some_2 (dirichlet p (subEntity element i))
              (eqToDirichletIndex bc e)) as [v Hv];
    [by rewrite dirichlet_length|].
  exists vv, c, v. split_and!; try done.
  rewrite Hc by done.
  rewrite (hasDirichlet_elem bcTypes i bc Hbc
             (isDirichlet_hasDirichlet bc e He Hd)).
  destruct (shaped_component _ _ i e Hb Hi He) as [x Hx].
  rewrite Hx. simpl. unfold withDirichlet. rewrite Hbc. simpl.
  rewrite Hd, Hvv. simpl. rewrite Hcv. simpl. by rewrite Hv.
Qed.

(** The result of [eval] does not depend on the state in which the
    evaluator was left by earlier calls. *)
Lemma eval_forgets p element fvGeom prev cur bcTypes self self' :
  eval p element fvGeom prev cur bcTypes self
  = eval p element fvGeom prev cur bcTypes self'.
Proof. reflexivity. Qed.

(** C6.  Two calls of the residual evaluator in succession with the same
    arguments give the same residual: the second call ends in the state in
    which the first one ended.  The call resizes and zeroes the residual and
    overwrites every pointer, so nothing of the earlier state is read. *)
Theorem eval_twice p element fvGeom prev cur bcTypes self :
  WellFormed p element fvGeom cur bcTypes →
  ∃ first second,
    eval p element fvGeom prev cur bcTypes self = Some first
    ∧ eval p element fvGeom prev cur bcTypes first = Some second
    ∧ residual_ second = residual_ first
    ∧ second = first.
Proof.
  intros Hwf.
  destruct (eval_total p element fvGeom prev cur bcTypes self Hwf)
    as (_ & first & E & _).
  exists first, first. split; [done|].
  split; [|done]. by rewrite (eval_forgets _ _ _ _ _ _ first self).
Qed.

End Boundary.

(** * The line element: the hypotheses hold, the theorems apply *)

Section LineElementFacts.
Import LineElement.

Lemma line_wellTyped : WellTyped.
Proof. split; intros; try reflexivity. by destruct old. Qed.

Lemma line_facesInRange : facesInRange fvGeom.
Proof.
  intros k Hk. simpl in Hk. assert (k = 0%nat) as -> by lia.
  eexists. split; [reflexivity|]. simpl. lia.
Qed.

Lemma line_volumesInRange : volumesInRange fvGeom.
Proof.
  intros i Hi. simpl in Hi. apply lookup_lt_is_Some_2. simpl. lia.
Qed.

Lemma line_shaped : shaped 2 (residual_ self0).
Proof. split; [done|]. repeat constructor. Qed.

Lemma line_wellFormed p : WellFormed p () fvGeom curVolVars bcTypes.
Proof.
  split.
  - apply line_facesInRange.
  - apply line_volumesInRange.
  - reflexivity.
  - reflexivity.
  - intros i bc e Hbc He Hd. simpl in He.
    destruct i as [|[|i]]; simpl in Hbc; [| |done];
      injection Hbc as <-; simpl; lia.
  - intros isIt fv Hin _ Hfv. simpl in Hfv.
    simpl in Hin. rewrite !elem_of_cons, elem_of_nil in Hin.
    destruct Hin as [-> | [-> | []]]; simpl; (split; [lia | by eexists]).
Qed.


(** The full evaluation on the line element: the flux (1, 2) from vertex 0
    to vertex 1, the storage and source terms, the Neumann fluxes (7, 5)
    through faces of area 4 and 5, and the Dirichlet value 10 for the first
    equation at vertex 0, where the primary variable is 11. *)
Example line_eval :
  (λ self, fractions2 (residual_ self))
    <$> eval 0%nat () fvGeom prevVolVars curVolVars bcTypes self0
  = Some [[1; 22]; [36; 33]]%Q.
Proof. vm_compute. reflexivity. Qed.

(** The storage of the line element. *)
Example line_evalStorage :
  (λ self, fractions2 (residual_ self)) <$> evalStorage 0%nat () self0
  = Some [[6; 10]; [9; 15]]%Q.
Proof. vm_compute. reflexivity. Qed.

(** The volume terms and the storage on the line element, whose time step
    size is 2. *)
Lemma volume_terms_and_storage_witness :
  timeStepSize 0%nat ≠ 0
  ∧ (∃ self', evalVolumeTerms_ 0%nat self0 = Some self'
     ∧ ∀ i j, (i < numVertices fvGeom)%nat → (j < numEq)%nat →
         ∃ x scv cur prev src,
           component (residual_ self0) i j = Some x
           ∧ subContVol fvGeom !! i = Some scv
           ∧ computeStorage 0%nat (ptrs_ self0) i false !! j = Some cur
           ∧ computeStorage 0%nat (ptrs_ self0) i true !! j = Some prev
           ∧ computeSource 0%nat (ptrs_ self0) i !! j = Some src
           ∧ component (residual_ self') i j
             = Some (x + (cur - prev) * (volume scv / timeStepSize 0%nat)
                       - src * volume scv))
  ∧ (∃ self', evalStorage 0%nat () self0 = Some self'
       ∧ ∀ i j, (i < numVertices (fvGeomUpdate 0%nat ()))%nat →
           (j < numEq)%nat →
           ∃ scv cur,
             subContVol (fvGeomUpdate 0%nat ()) !! i = Some scv
             ∧ computeStorage 0%nat (ptrs_ self') i false !! j = Some cur
             ∧ component (residual_ self') i j = Some (cur * volume scv)).
Proof.
  assert (Hdt : timeStepSize 0%nat ≠ 0).
  { intros E. apply (f_equal this) in E. vm_compute in E. discriminate. }
  split; [exact Hdt|].
  exact (@volume_terms_and_storage _ _ _ line_wellTyped 0%nat () self0 fvGeom
           eq_refl line_volumesInRange line_volumesInRange line_shaped Hdt).
Defined.

(** The Dirichlet entries of the line element after a full evaluation. *)
Lemma dirichlet_overwrites_witness :
  ∃ self', eval 0%nat () fvGeom prevVolVars curVolVars bcTypes self0
           = Some self'
    ∧ ∀ i bc e,
        bcTypes !! i = Some bc → (e < numEq)%nat →
        isDirichlet bc e = true →
        ∃ vv c v,
          curVolVars !! i = Some vv
          ∧ primaryVars vv !! eqToDirichletIndex bc e = Some c
          ∧ dirichlet 0%nat (subEntity () i) !! eqToDirichletIndex bc e
            = Some v
          ∧ component (residual_ self') i e = Some (c - v).
Proof.
  exact (@dirichlet_overwrites _ _ _ line_wellTyped 0%nat () fvGeom
           prevVolVars curVolVars bcTypes self0 (line_wellFormed 0%nat)).
Defined.

(** Two evaluations of the line element in succession. *)
Lemma eval_twice_witness :
  ∃ first second,
    eval 0%nat () fvGeom prevVolVars curVolVars bcTypes self0 = Some first
    ∧ eval 0%nat () fvGeom prevVolVars curVolVars bcTypes first
      = Some second
    ∧ residual_ second = residual_ first
    ∧ second = first.
Proof.
  exact (@eval_twice _ _ _ line_wellTyped 0%nat () fvGeom
           prevVolVars curVolVars bcTypes self0 (line_wellFormed 0%nat)).
Defined.


(** A Neumann segment at vertex 1 of the line element. *)
Lemma neumann_segment_adds_whole_vector_witness :
  ∃ bc bf self',
    bcTypes_ self0 1 = Some bc
    ∧ boundaryFace fvGeom !! 1%nat = Some bf
    ∧ evalNeumannSegment_ 0%nat 1%nat 1 1 self0 = Some self'
    ∧ (hasNeumann bc = true →
       ∀ i eq, (i < numVertices fvGeom)%nat → (eq < numEq)%nat →
         ∃ x v,
           component (residual_ self0) i eq = Some x
           ∧ neumann 0%nat () fvGeom 1%nat 1 1 !! eq = Some v
           ∧ component (residual_ self') i eq
             = Some (if decide (i = 1%nat) then x + v * area bf else x))
    ∧ (hasNeumann bc = false → self' = self0).
Proof.
  eexists _, _.
  destruct (@neumann_segment_adds_whole_vector _ _ _ line_wellTyped
              0%nat 1%nat 1%nat 1%nat self0 _ () fvGeom _
              eq_refl eq_refl eq_refl eq_refl (le_n 2) line_shaped)
    as (self' & E & Hyes & Hno).
  exists self'. split; [reflexivity|]. split; [reflexivity|]. done.
Defined.

(** C4 fails as stated.  Vertex 1 of the line element has a Neumann
    condition for equation 0 and no condition for equation 1; the problem
    prescribes the flux vector (7, 5) and the boundary face has area 5.  The
    Neumann segment changes the entry of equation 1, which is not a Neumann
    equation, from 9 to 9 + 5 * 5 = 34.  (In the full evaluation above the
    same 25 is part of the final entry 33 of that equation.) *)
Lemma neumann_segment_counterexample :
  ∃ bc self',
    bcTypes_ self0 1 = Some bc
    ∧ hasNeumann bc = true
    ∧ isNeumann bc 1 = false
    ∧ evalNeumannSegment_ 0%nat 1%nat 1 1 self0 = Some self'
    ∧ component (residual_ self0) 1 1 = Some (Q2Qc 9)
    ∧ component (residual_ self') 1 1 = Some (Q2Qc 34)
    ∧ component (residual_ self') 1 1 ≠ component (residual_ self0) 1 1.
Proof.
  eexists _, _. split; [reflexivity|]. split; [reflexivity|].
  split; [reflexivity|]. split; [reflexivity|]. split; [reflexivity|].
  assert (E : ∀ x y : Qc, this x = this y → Some x = Some y).
  { intros x y Exy. f_equal. apply Qc_is_canon. by rewrite Exy. }
  split.
  - apply E. reflexivity.
  - intros Hne. apply (f_equal (fmap this)) in Hne. vm_compute in Hne.
    discriminate.
Qed.

(** C5 fails on the code.  The one-argument [eval] hands the problem to
    [updateCouplingParams] before it evaluates the residual: on the line
    element the state of the problem goes from 0 to 1. *)
Theorem evalElement_changes_problem :
  ∃ self', evalElement 0%nat () self0 = Some (1%nat, self').
Proof.
  destruct (@eval_total _ _ _ line_wellTyped 1%nat () fvGeom prevVolVars
              curVolVars bcTypes self0 (line_wellFormed 1%nat))
    as (_ & self' & E & _).
  exists self'. unfold evalElement. simpl.
  change (eval 1%nat () fvGeom prevVolVars curVolVars bcTypes self0
          ≫= (λ self', Some (1%nat, self')) = Some (1%nat, self')).
  by rewrite E.
Qed.

End LineElementFacts.

(** The problem that the one-argument [eval] leaves is the one that
    [updateCouplingParams] returns; the five-argument [eval] only reads the
    problem. *)
Lemma evalElement_problem `{TypeTag} `{!ProblemInterface} `{!Implementation}
    p element self p' self' :
  evalElement p element self = Some (p', self') →
  p' = updateCouplingParams p element.
Proof.
  unfold evalElement. intros E.
  destruct (eval _ _ _ _ _ _ _); simpl in E; [|done]. by injection E.
Qed.

(** * The triangle: the flux pass in two arithmetics *)

Section TriangleElementFacts.
Import TriangleElement.

Lemma triangle_facesInRange : facesInRange fvGeom.
Proof.
  intros k Hk. simpl in Hk.
  destruct k as [|[|[|k]]]; [| | |lia];
    (eexists; split; [reflexivity|]; simpl; lia).
Qed.

Lemma triangle_shaped : shaped 3 (residual_ self0).
Proof. split; [done|]. repeat constructor. Qed.

Lemma triangle_flux_length k :
  length (computeFlux () (ptrs_ self0) k) = numEq.
Proof. by destruct k as [|[|k]]. Qed.

(** The flux pass on the triangle in exact arithmetic: 1 goes from
    sub-control volume 0 to 1, 1 from 0 to 2 and 10^16 from 1 to 2. *)
Example triangle_evalFluxes :
  (λ self, fractions2 (residual_ self)) <$> evalFluxes_ () self0
  = Some [ [-2]%list; [-9999999999999999]%list;
           [10000000000000001]%list ]%Q.
Proof. vm_compute. reflexivity. Qed.

(** The flux pass on the triangle, face by face. *)
Lemma flux_pass_face_by_face_witness :
  ∃ self' (trace : list (list (list Qc))),
    evalFluxes_ () self0 = Some self'
    ∧ ptrs_ self' = ptrs_ self0
    ∧ length trace = S (numEdges fvGeom)
    ∧ trace !! 0%nat = Some (residual_ self0)
    ∧ trace !! numEdges fvGeom = Some (residual_ self')
    ∧ (∀ k face, (k < numEdges fvGeom)%nat →
         subContVolFace fvGeom !! k = Some face →
         ∃ before after,
           trace !! k = Some before
           ∧ trace !! S k = Some after
           ∧ shaped (numVertices fvGeom) after
           ∧ ∀ v eq, (v < numVertices fvGeom)%nat → (eq < numEq)%nat →
               ∃ x f,
                 component before v eq = Some x
                 ∧ computeFlux () (ptrs_ self0) k !! eq = Some f
                 ∧ component after v eq
                   = Some (transfer (scvf_i face) (scvf_j face) f v x))
    ∧ ∀ eq, (eq < numEq)%nat →
        sumComponent eq (residual_ self')
        - sumComponent eq (residual_ self0) = 0.
Proof.
  exact (flux_pass_face_by_face () self0 fvGeom eq_refl
           triangle_facesInRange triangle_shaped triangle_flux_length).
Defined.

(** C1 fails as stated.  On the triangle the flux pass of the embedding is
    the loop of [AnyScalar] at the rationals and leaves the residuals -2,
    1 - 10^16 and 10^16 + 1, whose sum is zero.  The same loop on binary64
    numbers, the arithmetic of the compiled code, has -2, 1 and 1 after the
    first two faces and leaves -2, -10^16 and 10^16: the two fluxes 1 that
    entered the sub-control volumes 1 and 2 are lost when the flux 10^16 is
    subtracted and added there.  The net contribution of the pass, summed
    over the sub-control volumes in whichever order, is -2 and not zero. *)
Lemma flux_pass_rounding_counterexample :
  evalFluxes_ () self0
  = (λ r, setResidual r self0)
      <$> AnyScalar.evalFluxes_ Qcminus Qcplus numEq (numEdges fvGeom)
            (subContVolFace fvGeom) exactFlux (residual_ self0)
  ∧ (λ self, this (sumComponent 0 (residual_ self))) <$> evalFluxes_ () self0
    = Some 0%Q
  ∧ doublePass 2 doubleFlux
    = Some [ [(-2)%float]%list; [1%float]%list; [1%float]%list ]
  ∧ doublePass (numEdges fvGeom) doubleFlux
    = Some [ [(-2)%float]%list; [(-10000000000000000)%float]%list;
             [10000000000000000%float]%list ]
  ∧ doubleSum <$> doublePass (numEdges fvGeom) doubleFlux = Some (-2)%float
  ∧ doubleSum <$> doublePass (numEdges fvGeom) doubleFlux ≠ Some 0%float
  ∧ ((-2 + -10000000000000000) + 10000000000000000 = -2
     ∧ (-2 + 10000000000000000) + -10000000000000000 = -2
     ∧ (-10000000000000000 + 10000000000000000) + -2 = -2)%float.
Proof.
  split_and!.
  - exact (evalFluxes__anyScalar () self0 fvGeom eq_refl).
  - vm_compute. reflexivity.
  - vm_compute. reflexivity.
  - vm_compute. reflexivity.
  - vm_compute. reflexivity.
  - assert (E : doubleSum <$> doublePass (numEdges fvGeom) doubleFlux
                = Some (-2)%float)
      by (vm_compute; reflexivity).
    rewrite E. discriminate.
  - vm_compute. reflexivity.
  - vm_compute. reflexivity.
  - vm_compute. reflexivity.
Qed.

(** Fluxes of like size leave a residue as well: with 1, 0.2 and 0.1 the
    pass on binary64 numbers leaves the numbers next to -1.2, 0.9 and 0.3,
    and their sum is 2^-52 or 2^-53, according to the order. *)
Example triangle_like_fluxes :
  doublePass (numEdges fvGeom) likeFlux
  = Some [ [(-0x1.3333333333333p+0)%float]%list;
           [0x1.ccccccccccccdp-1%float]%list;
           [0x1.3333333333334p-2%float]%list ]
  ∧ doubleSum <$> doublePass (numEdges fvGeom) likeFlux
    = Some 0x1p-52%float
  ∧ ((-0x1.3333333333333p+0 + 0x1.ccccccccccccdp-1) + 0x1.3333333333334p-2
     = 0x1p-53
     ∧ (-0x1.3333333333333p+0 + 0x1.3333333333334p-2) + 0x1.ccccccccccccdp-1
       = 0x1p-53
     ∧ (0x1.ccccccccccccdp-1 + 0x1.3333333333334p-2) + -0x1.3333333333333p+0
       = 0x1p-52)%float.
Proof. split_and!; vm_compute; reflexivity. Qed.

End TriangleElementFacts.

(** * Matrices *)

Section Matrices.
Implicit Types (M N : list (list Qc)) (v w : list Qc).

Lemma sumTo_S n (f : nat → Qc) :
  FieldMatrix.sumTo (S n) f = f 0%nat + FieldMatrix.sumTo n (λ k, f (S k)).
Proof.
  unfold FieldMatrix.sumTo. simpl. f_equal.
  rewrite <- fmap_S_seq. by rewrite foldr_fmap.
Qed.

(** The scalar product is the sum of the products of the entries. *)
Lemma dot_sumTo v w :
  length w = length v →
  FieldVector.dot v w
  = FieldMatrix.sumTo (length v)
      (λ k, default 0 (v !! k) * default 0 (w !! k)).
Proof.
  revert w. induction v as [|x v IH]; intros [|y w] Hlen; try done.
  simpl in Hlen. change (length (x :: v)) with (S (length v)).
  rewrite sumTo_S. simpl.
  unfold FieldVector.dot in *. simpl. f_equal. apply IH. lia.
Qed.

(** [mul] is the product of matrices: entry (i, j) of M N is the sum over k
    of M[i][k] N[k][j]. *)
Lemma mul_get M N n i j :
  length N = n → Forall (λ row, length row = n) M →
  (i < length M)%nat → (j < n)%nat →
  FieldMatrix.get (FieldMatrix.mul M N) i j
  = FieldMatrix.sumTo n
      (λ k, FieldMatrix.get M i k * FieldMatrix.get N k j).
Proof.
  intros HN HM Hi Hj.
  destruct (lookup_lt_is_Some_2 M i Hi) as [row Hrow].
  assert (Hlen : length row = n) by (by eapply Forall_lookup_1 in HM).
  unfold FieldMatrix.get at 1. unfold FieldMatrix.mul.
  rewrite list_lookup_fmap, Hrow. simpl.
  rewrite list_lookup_fmap, lookup_seq_lt by lia. simpl.
  rewrite dot_sumTo by (unfold FieldMatrix.column; rewrite length_fmap; lia).
  rewrite Hlen. unfold FieldMatrix.sumTo.
  apply foldr_ext; [|done|done]. intros k acc. f_equal. f_equal.
  - unfold FieldMatrix.get. by rewrite Hrow.
  - unfold FieldMatrix.get, FieldMatrix.column.
    rewrite list_lookup_fmap. by destruct (N !! k).
Qed.

Lemma add_get M N i j :
  FieldMatrix.get (FieldMatrix.add M N) i j
  = match M !! i, N !! i with
    | Some r, Some r' =>
        default 0 (x ← r !! j; y ← r' !! j; Some (x + y))
    | _, _ => 0
    end.
Proof.
  unfold FieldMatrix.get, FieldMatrix.add. rewrite lookup_zip_with.
  destruct (M !! i) as [r|]; simpl; [|done].
  destruct (N !! i) as [r'|]; simpl; [|done].
  unfold FieldVector.add. by rewrite lookup_zip_with.
Qed.

Lemma add_get_in_range M N i j r r' :
  M !! i = Some r → N !! i = Some r' →
  (j < length r)%nat → (j < length r')%nat →
  FieldMatrix.get (FieldMatrix.add M N) i j
  = FieldMatrix.get M i j + FieldMatrix.get N i j.
Proof.
  intros Hr Hr' Hj Hj'. rewrite add_get, Hr, Hr'.
  unfold FieldMatrix.get. rewrite Hr, Hr'. simpl.
  destruct (lookup_lt_is_Some_2 r j Hj) as [x ->].
  by destruct (lookup_lt_is_Some_2 r' j Hj') as [y ->].
Qed.

Lemma sumTo_ext n (f f' : nat → Qc) :
  (∀ k, (k < n)%nat → f k = f' k) →
  FieldMatrix.sumTo n f = FieldMatrix.sumTo n f'.
Proof.
  revert f f'. induction n as [|n IH]; intros f f' Hff'; [done|].
  rewrite !sumTo_S. rewrite (Hff' 0%nat) by lia. f_equal.
  apply IH. intros k Hk. apply Hff'. lia.
Qed.

Lemma square_mul n M N : length M = n → length N = n →
  FieldMatrix.isSquare n (FieldMatrix.mul M N).
Proof.
  intros HM HN. unfold FieldMatrix.mul. split.
  - by rewrite length_fmap.
  - apply Forall_fmap, Forall_true. intros row. simpl.
    by rewrite length_fmap, length_seq.
Qed.

Lemma square_invert n M :
  length M = n → FieldMatrix.isSquare n (FieldMatrix.invert M).
Proof.
  intros HM. unfold FieldMatrix.invert. rewrite HM. split.
  - by rewrite length_fmap, length_seq.
  - apply Forall_fmap, Forall_true. intros i. simpl.
    by rewrite length_fmap, length_seq.
Qed.

Lemma square_lookup n M i :
  FieldMatrix.isSquare n M → (i < n)%nat →
  ∃ row, M !! i = Some row ∧ length row = n.
Proof.
  intros [Hlen Hrows] Hi.
  destruct (lookup_lt_is_Some_2 M i) as [row Hrow]; [lia|].
  exists row. split; [done|]. by eapply Forall_lookup_1 in Hrows.
Qed.

End Matrices.

(** * The velocity reconstruction: exceptions *)

Section NoThrow.
Import MPFAO.

Lemma noThrow_ret {A : Type} (a : A) : noThrow (ret a).
Proof. by intros s e s'. Qed.

Lemma noThrow_lift {A : Type} (o : option A) : noThrow (lift o).
Proof. intros s e s'. unfold lift. by destruct o. Qed.

Lemma noThrow_getVariables : noThrow getVariables.
Proof. by intros s e s'. Qed.

Lemma noThrow_putVariables vars : noThrow (putVariables vars).
Proof. by intros s e s'. Qed.

Lemma noThrow_print msg : noThrow (print msg).
Proof. by intros s e s'. Qed.

Lemma noThrow_bind {A B : Type} (m : M A) (k : A → M B) :
  noThrow m → (∀ a, noThrow (k a)) → noThrow (bind m k).
Proof.
  intros Hm Hk s e s'. unfold bind.
  destruct (m s) as [a s1|e1 s1|] eqn:E.
  - apply Hk.
  - by destruct (Hm s e1 s1).
  - done.
Qed.

Lemma noThrow_foldM {A L : Type} (body : A → L → M L) (l : list A) :
  (∀ a locals, noThrow (body a locals)) →
  ∀ locals, noThrow (foldM body l locals).
Proof.
  intros Hbody. induction l as [|a l IH]; intros locals; simpl.
  - apply noThrow_ret.
  - apply noThrow_bind; [apply Hbody | apply IH].
Qed.

Lemma noThrow_if {A : Type} (b : bool) (m1 m2 : M A) :
  noThrow m1 → noThrow m2 → noThrow (if b then m1 else m2).
Proof. by destruct b. Qed.

Lemma noThrow_nextIntersection impl n pos :
  (∀ id, impl ≠ otherGrid id) → noThrow (nextIntersection impl n pos).
Proof.
  intros Himpl. unfold nextIntersection.
  destruct impl; repeat case_decide; try apply noThrow_ret.
  by destruct (Himpl id).
Qed.

Create HintDb nothrow.

#[local] Hint Resolve noThrow_ret noThrow_lift noThrow_getVariables
  noThrow_putVariables noThrow_print : nothrow.

Ltac nothrow :=
  repeat first
    [ apply noThrow_bind; [|intros ?]
    | apply noThrow_if
    | solve [auto with nothrow] ].

Lemma noThrow_conservationCheck props globalIdx1 q1 volume1 locals :
  noThrow (conservationCheck props globalIdx1 q1 volume1 locals).
Proof.
  unfold conservationCheck. case_decide; [|apply noThrow_ret].
  nothrow. destruct (Qclt_le_dec _ _); auto with nothrow.
Qed.

Lemma noThrow_potentials globalIdx1 locals :
  noThrow (potentials globalIdx1 locals).
Proof. unfold potentials. nothrow. Qed.

Lemma noThrow_interiorRegion prob globalIdx1 press1 lambda1 K1 globalPos1
    isIt nextisIt corner1234 e2 press2 lambda2 K2 :
  noThrow (interiorRegion prob globalIdx1 press1 lambda1 K1 globalPos1
             isIt nextisIt corner1234 e2 press2 lambda2 K2).
Proof. unfold interiorRegion. nothrow. Qed.

Lemma noThrow_intersectionBody props prob boundaryRegion cell1 e1 globalIdx1
    press1 lambda1 K1 pos locals :
  (∀ id, GridImplementation props ≠ otherGrid id) →
  noThrow (intersectionBody props prob boundaryRegion cell1 e1 globalIdx1
             press1 lambda1 K1 pos locals).
Proof.
  intros Himpl. unfold intersectionBody.
  apply noThrow_bind; [by apply noThrow_nextIntersection | intros nextpos].
  nothrow.
Qed.

Lemma noThrow_elementBody props prob boundaryRegion cell1 u :
  (∀ id, GridImplementation props ≠ otherGrid id) →
  noThrow (elementBody props prob boundaryRegion cell1 u).
Proof.
  intros Himpl. unfold elementBody. nothrow.
  - apply noThrow_foldM. intros pos locals.
    by apply noThrow_intersectionBody.
  - apply noThrow_conservationCheck.
Qed.

Lemma noThrow_calculateVelocity props prob boundaryRegion :
  (∀ id, GridImplementation props ≠ otherGrid id) →
  noThrow (calculateVelocity props prob boundaryRegion).
Proof.
  intros Himpl. unfold calculateVelocity. apply noThrow_foldM.
  intros cell1 u. by apply noThrow_elementBody.
Qed.

End NoThrow.

(** * The velocity reconstruction: the conservation check *)

Section ConservationCheck.
Import MPFAO.

Lemma state_eta (s : State) :
  {| variables := variables s; cout := cout s |} = s.
Proof. by destruct s. Qed.

(** C9, as amended.  In two dimensions and when the velocity formulation is
    the total velocity, the conservation check at the end of the loop body
    computes the relative difference between the sum of the four face fluxes
    and the source term times the volume of the cell, and writes one
    diagnostic when it exceeds 1e-8; for every other velocity formulation
    the check is skipped.  In every case it returns normally, it raises no
    exception, and it leaves the variables, the velocity among them, as they
    are. *)
Theorem conservation_check_only_logs
    props globalIdx1 q1 volume1 locals s f0 f1 f2 f3 :
  faceFlux (variables s) locals globalIdx1 0 = Some f0 →
  faceFlux (variables s) locals globalIdx1 1 = Some f1 →
  faceFlux (variables s) locals globalIdx1 2 = Some f2 →
  faceFlux (variables s) locals globalIdx1 3 = Some f3 →
  let diff := relativeDefect f0 f1 f2 f3 q1 volume1 in
  let msg := {| msgDiff := diff; msgGlobalIdx := globalIdx1;
                msgFluxes := [f0; f1; f2; f3] |} in
  conservationCheck props globalIdx1 q1 volume1 locals s
  = Done ()
      {| variables := variables s;
         cout :=
           if decide (dim = 2%nat ∧ VelocityFormulation props = vt props)
           then if Qclt_le_dec tolerance diff then cout s ++ [msg]
                else cout s
           else cout s |}
  ∧ noThrow (conservationCheck props globalIdx1 q1 volume1 locals).
Proof.
  intros H0 H1 H2 H3 diff msg. split; [|apply noThrow_conservationCheck].
  unfold conservationCheck.
  destruct (decide (dim = 2%nat ∧ VelocityFormulation props = vt props));
    [|by rewrite state_eta].
  unfold bind, getVariables, lift. rewrite H0, H1, H2, H3.
  fold diff. destruct (Qclt_le_dec tolerance diff); [done|].
  unfold ret. by rewrite state_eta.
Qed.

End ConservationCheck.

Section ConservationCheckExamples.
Import MPFAO SquareGrid.

(** The check on a cell with four unit fluxes and no source, for the total
    velocity formulation: one diagnostic, nothing else. *)
Lemma conservation_check_only_logs_witness :
  let diff := relativeDefect 1 1 1 1 0 1 in
  let msg := {| msgDiff := diff; msgGlobalIdx := 0;
                msgFluxes := [1; 1; 1; 1] |} in
  conservationCheck (properties yaspGrid 2) 0 0 1 leakyLocals leakyState
  = Done ()
      {| variables := variables leakyState;
         cout :=
           if decide (dim = 2%nat
                      ∧ VelocityFormulation (properties yaspGrid 2)
                        = vt (properties yaspGrid 2))
           then if Qclt_le_dec tolerance diff
                then cout leakyState ++ [msg] else cout leakyState
           else cout leakyState |}
  ∧ noThrow (conservationCheck (properties yaspGrid 2) 0 0 1 leakyLocals).
Proof.
  assert (E : ∀ i, (i < 4)%nat →
    faceFlux (variables leakyState) leakyLocals 0 i = Some 1).
  { intros i Hi. unfold faceFlux, normalVelocity. simpl.
    do 4 (destruct i as [|i]; [simpl; f_equal; apply Qc_is_canon;
                                 reflexivity|]).
    lia. }
  apply (conservation_check_only_logs (properties yaspGrid 2) 0 0 1
           leakyLocals leakyState 1 1 1 1); apply E; lia.
Defined.

(** C9 fails as stated.  In two dimensions, for the velocity formulation 0
    (not the total velocity), the relative difference of the cell above is 1,
    far above 1e-8, and yet the check writes nothing. *)
Lemma conservation_check_counterexample :
  dim = 2%nat
  ∧ faceFlux (variables leakyState) leakyLocals 0 0 = Some 1
  ∧ faceFlux (variables leakyState) leakyLocals 0 1 = Some 1
  ∧ faceFlux (variables leakyState) leakyLocals 0 2 = Some 1
  ∧ faceFlux (variables leakyState) leakyLocals 0 3 = Some 1
  ∧ tolerance < relativeDefect 1 1 1 1 0 1
  ∧ conservationCheck (properties yaspGrid 0) 0 0 1 leakyLocals leakyState
    = Done () leakyState
  ∧ cout leakyState = [].
Proof.
  assert (E : ∀ i, (i < 4)%nat →
    faceFlux (variables leakyState) leakyLocals 0 i = Some 1).
  { intros i Hi. unfold faceFlux, normalVelocity. simpl.
    do 4 (destruct i as [|i]; [simpl; f_equal; apply Qc_is_canon;
                                 reflexivity|]).
    lia. }
  split_and!; try (apply E; lia); try reflexivity.
Qed.

End ConservationCheckExamples.

(** * The velocity reconstruction: the switch on the grid implementation *)

Section GridSwitch.
Import MPFAO.

(** C8, as amended.  For a grid implementation other than SGrid, YaspGrid
    and UGGrid, and a grid view with at least one cell, the velocity
    reconstruction raises [NotImplemented] at the first intersection of the
    first cell, before it computes any flux; the one thing it has written by
    then is the velocity of the first cell, which it has reset to zero.  On
    an empty grid view it returns without an exception.  For the three
    supported grid implementations it never raises an exception. *)
Theorem grid_type_switch props prob boundaryRegion :
  (∀ id s e1 rest isIt isIts press1 qw qn mw mn vel0 dW dNW,
     GridImplementation props = otherGrid id →
     gridView prob = e1 :: rest →
     intersections e1 = isIt :: isIts →
     pressure (variables s) !! index prob 0 = Some press1 →
     source prob 0 !! wPhaseIdx props = Some qw →
     source prob 0 !! nPhaseIdx props = Some qn →
     mobilityWetting (variables s) !! index prob 0 = Some mw →
     mobilityNonwetting (variables s) !! index prob 0 = Some mn →
     zeroVelocity (index prob 0) (velocity (variables s)) = Some vel0 →
     densityWetting (variables s) !! index prob 0 = Some dW →
     densityNonwetting (variables s) !! index prob 0 = Some dNW →
     calculateVelocity props prob boundaryRegion s
     = Thrown
         (NotImplemented
            "GridType can not be used with MPFAO implementation!")
         {| variables := setVelocity vel0 (variables s); cout := cout s |})
  ∧ (∀ s, gridView prob = [] →
       calculateVelocity props prob boundaryRegion s = Done () s)
  ∧ ((∀ id, GridImplementation props ≠ otherGrid id) →
     noThrow (calculateVelocity props prob boundaryRegion)).
Proof.
  split_and!.
  - intros id s e1 rest isIt isIts press1 qw qn mw mn vel0 dW dNW
      Himpl Hgrid His Hp Hqw Hqn Hmw Hmn Hz HdW HdNW.
    unfold calculateVelocity. rewrite Hgrid. simpl.
    unfold bind at 1. unfold elementBody.
    unfold bind, lift, getVariables, putVariables.
    rewrite Hgrid. simpl.
    rewrite Hp, Hqw, Hqn, Hmw, Hmn, Hz. simpl.
    rewrite HdW, HdNW, His. simpl.
    unfold intersectionBody. unfold bind at 1.
    unfold nextIntersection. rewrite Himpl. done.
  - intros s Hgrid. unfold calculateVelocity. rewrite Hgrid. done.
  - apply noThrow_calculateVelocity.
Qed.

End GridSwitch.

Section GridSwitchExamples.
Import MPFAO SquareGrid.

Lemma zeroVelocity_moving :
  zeroVelocity 0 (velocity (variables movingState))
  = Some (<[0%nat := replicate 4 [0; 0]]>
            (velocity (variables movingState))).
Proof. reflexivity. Qed.

(** The switch on the four cells: an unsupported grid implementation raises
    the exception after the velocity of cell 0 is reset, and YaspGrid raises
    no exception. *)
Lemma grid_type_switch_witness :
  calculateVelocity (properties (otherGrid 7) 2) (problem square)
    noBoundaryRegion movingState
  = Thrown
      (NotImplemented "GridType can not be used with MPFAO implementation!")
      {| variables :=
           setVelocity
             (<[0%nat := replicate 4 [0; 0]]>
                (velocity (variables movingState)))
             (variables movingState);
         cout := cout movingState |}
  ∧ noThrow (calculateVelocity (properties yaspGrid 2) (problem square)
               noBoundaryRegion).
Proof.
  split.
  - eapply (proj1 (grid_type_switch (properties (otherGrid 7) 2)
                     (problem square) noBoundaryRegion));
      try reflexivity.
  - apply (proj2 (proj2 (grid_type_switch (properties yaspGrid 2)
                           (problem square) noBoundaryRegion))).
    intros id. discriminate.
Defined.

(** C8 fails as stated.  On the four cells with an unsupported grid
    implementation the exception is raised, but the velocity of cell 0,
    (1, 0) on every face before the call, has been written by then: it is
    zero in the state that the exception leaves. *)
Lemma grid_type_switch_counterexample :
  ∃ e s',
    calculateVelocity (properties (otherGrid 7) 2) (problem square)
      noBoundaryRegion movingState = Thrown e s'
    ∧ velocity (variables movingState) !! 0%nat = Some (replicate 4 [1; 0])
    ∧ velocity (variables s') !! 0%nat = Some (replicate 4 [0; 0])
    ∧ velocity (variables s') ≠ velocity (variables movingState).
Proof.
  eexists _, _. split; [reflexivity|]. split; [reflexivity|].
  split; [reflexivity|].
  intros E. apply (f_equal fractions3) in E.
  vm_compute in E. discriminate.
Qed.

End GridSwitchExamples.

(** * The velocity reconstruction: the interior interaction region *)

Section InteriorRegion.
Import MPFAO.

(** For a 4 x 4 matrix with a determinant other than zero, [invert] is the
    inverse on both sides. *)
Lemma invert_inverse (a b c d e f g h i j k l m n o p : Qc) :
  let A := [[a; b; c; d]; [e; f; g; h]; [i; j; k; l]; [m; n; o; p]] in
  FieldMatrix.det 4 A ≠ 0 →
  FieldMatrix.mul A (FieldMatrix.invert A) = FieldMatrix.identity 4
  ∧ FieldMatrix.mul (FieldMatrix.invert A) A = FieldMatrix.identity 4.
Proof.
  intros A Hdet.
  unfold FieldMatrix.invert.
  change (FieldMatrix.det (length A) A) with (FieldMatrix.det 4 A).
  remember (FieldMatrix.det 4 A) as D eqn:HD.
  change (FieldMatrix.identity 4)
    with [[1; 0; 0; 0]; [0; 1; 0; 0]; [0; 0; 1; 0]; [0; 0; 0; (1 : Qc)]].
  unfold FieldMatrix.mul, FieldMatrix.column, FieldVector.dot,
    FieldMatrix.minor, Qcdiv.
  cbn -[Qcplus Qcmult Qcinv Qcopp Qcminus] in *.
  unfold FieldMatrix.sign in *.
  cbn -[Qcplus Qcmult Qcinv Qcopp Qcminus] in *.
  set (Dinv := / D).
  assert (HDinv : D * Dinv = 1) by (apply Qcmult_inv_r; exact Hdet).
  clearbody Dinv.
  split; repeat (f_equal;
    try first
      [ ring
      | transitivity (D * Dinv); [rewrite HD; ring | exact HDinv] ]).
Qed.

Lemma assign_length entries (M : list (list Qc)) :
  length (assign entries M) = length M.
Proof.
  revert M. induction entries as [|e entries IH]; intros M; [done|].
  simpl. rewrite IH. unfold FieldMatrix.set. apply length_alter.
Qed.

Lemma add_zero_l n (v : list Qc) :
  length v = n → FieldVector.add (FieldVector.const n 0) v = v.
Proof.
  revert n. induction v as [|x v IH]; intros n Hn; simpl in Hn; subst n.
  - done.
  - unfold FieldVector.add, FieldVector.const in *. simpl.
    rewrite (IH (length v) eq_refl). f_equal. ring.
Qed.

Lemma transmissibility_length g : length (transmissibility g) = 4%nat.
Proof.
  unfold transmissibility, FieldMatrix.add, FieldMatrix.leftmultiply,
    FieldMatrix.rightmultiply, FieldMatrix.mul.
  rewrite length_zip_with, !length_fmap.
  unfold matrixF, matrixC. rewrite !assign_length.
  unfold FieldMatrix.zero. rewrite !length_replicate. reflexivity.
Qed.

(** The four matrices, entry by entry. *)
Lemma matrices_entries g :
  matrixC g
  = [ [ - g111 g; 0;        - g121 g; 0        ];
      [ 0;        g114 g;   0;        g124 g   ];
      [ 0;        - g213 g; g223 g;   0        ];
      [ g212 g;   0;        0;        - g222 g ] ]
  ∧ matrixF g
    = [ [ g111 g + g121 g; 0; 0; 0 ];
        [ 0; 0; 0; - g114 g - g124 g ];
        [ 0; 0; g213 g - g223 g; 0 ];
        [ 0; - g212 g + g222 g; 0; 0 ] ]
  ∧ matrixA g
    = [ [ g111 g + g112 g; 0; g121 g; - g122 g ];
        [ 0; g114 g + g113 g; - g123 g; g124 g ];
        [ g211 g; - g213 g; g223 g + g221 g; 0 ];
        [ - g212 g; g214 g; 0; g222 g + g224 g ] ]
  ∧ matrixB g
    = [ [ g111 g + g121 g; g112 g - g122 g; 0; 0 ];
        [ 0; 0; g113 g - g123 g; g114 g + g124 g ];
        [ g211 g + g221 g; 0; - g213 g + g223 g; 0 ];
        [ 0; - g212 g + g222 g; 0; g214 g + g224 g ] ].
Proof. split_and!; reflexivity. Qed.

Lemma matrices_square g :
  FieldMatrix.isSquare 4 (matrixC g) ∧ FieldMatrix.isSquare 4 (matrixF g)
  ∧ FieldMatrix.isSquare 4 (matrixA g) ∧ FieldMatrix.isSquare 4 (matrixB g).
Proof.
  destruct (matrices_entries g) as (-> & -> & -> & ->).
  split_and!; (split; [done | by repeat constructor]).
Qed.

(** The entries of the transmissibility:
    T[i][j] = F[i][j] + sum_k (sum_l C[i][l] A^-1[l][k]) B[k][j]. *)
Lemma transmissibility_get g i j :
  (i < 4)%nat → (j < 4)%nat →
  FieldMatrix.get (transmissibility g) i j
  = FieldMatrix.get (matrixF g) i j
    + FieldMatrix.sumTo 4 (λ k,
        FieldMatrix.sumTo 4 (λ l,
          FieldMatrix.get (matrixC g) i l
          * FieldMatrix.get (FieldMatrix.invert (matrixA g)) l k)
        * FieldMatrix.get (matrixB g) k j).
Proof.
  intros Hi Hj.
  destruct (matrices_square g) as (HC & HF & HA & HB).
  pose proof (square_invert 4 (matrixA g) (proj1 HA)) as HAinv.
  set (Ainv := FieldMatrix.invert (matrixA g)) in *.
  pose proof (square_mul 4 (matrixC g) Ainv (proj1 HC) (proj1 HAinv))
    as HCA.
  pose proof (square_mul 4 (FieldMatrix.mul (matrixC g) Ainv) (matrixB g)
                (proj1 HCA) (proj1 HB)) as HCAB.
  unfold transmissibility, FieldMatrix.leftmultiply,
    FieldMatrix.rightmultiply. fold Ainv.
  destruct (square_lookup 4 _ i HF Hi) as (r & Hr & Hlr).
  destruct (square_lookup 4 _ i HCAB Hi) as (r' & Hr' & Hlr').
  rewrite (add_get_in_range _ _ i j r r' Hr Hr') by lia. f_equal.
  rewrite (mul_get _ _ 4 i j (proj1 HB) (proj2 HCA))
    by (rewrite ?(proj1 HCA); lia).
  apply sumTo_ext. intros k Hk. f_equal.
  apply (mul_get _ _ 4 i k (proj1 HAinv) (proj2 HC));
    rewrite ?(proj1 HC); lia.
Qed.

Lemma addVelocity_Some globalIdx face v vel row :
  vel !! globalIdx = Some row → (face < length row)%nat →
  ∃ old, row !! face = Some old
    ∧ addVelocity globalIdx face v vel
      = Some (<[globalIdx := <[face := FieldVector.add old v]> row]> vel).
Proof.
  intros Hrow Hface.
  destruct (lookup_lt_is_Some_2 row face Hface) as [old Hold].
  exists old. split; [done|].
  unfold addVelocity. rewrite Hrow. simpl. by rewrite Hold.
Qed.

Lemma writeVelocities_eq globalIdx1 isIt nextisIt Tu vel Tu0 Tu2 vel1 vel2 :
  Tu !! 0%nat = Some Tu0 →
  Tu !! 2%nat = Some Tu2 →
  addVelocity globalIdx1 (indexInInside isIt)
    (FieldVector.scale (centerUnitOuterNormal isIt) (Tu0 / isVolume isIt))
    vel = Some vel1 →
  addVelocity globalIdx1 (indexInInside nextisIt)
    (FieldVector.scale (centerUnitOuterNormal nextisIt)
       (Tu2 / isVolume nextisIt))
    vel1 = Some vel2 →
  writeVelocities globalIdx1 isIt nextisIt Tu vel = Some vel2.
Proof.
  intros H0 H2 E1 E3. unfold writeVelocities.
  rewrite H0. simpl. rewrite H2. simpl. rewrite E1. simpl. exact E3.
Qed.

(** The interior region, from the gathered data to the velocities. *)
Lemma interiorRegion_spec
    prob globalIdx1 press1 lambda1 K1 globalPos1 isIt nextisIt corner1234
    e2 press2 lambda2 K2 s r row :
  gatherInterior prob (variables s) press1 lambda1 K1 globalPos1
    isIt nextisIt corner1234 e2 press2 lambda2 K2 = Some r →
  velocity (variables s) !! globalIdx1 = Some row →
  (indexInInside isIt < length row)%nat →
  (indexInInside nextisIt < length row)%nat →
  let g := fluxCoefficients r in
  let Ainv := FieldMatrix.invert (matrixA g) in
  let T := FieldMatrix.add (matrixF g)
             (FieldMatrix.mul (FieldMatrix.mul (matrixC g) Ainv)
                (matrixB g)) in
  let u := [MPFAO.press1 r; MPFAO.press2 r; press3 r; press4 r] in
  transmissibility g = T
  ∧ (∀ i j, (i < 4)%nat → (j < 4)%nat →
       FieldMatrix.get T i j
       = FieldMatrix.get (matrixF g) i j
         + FieldMatrix.sumTo 4 (λ k,
             FieldMatrix.sumTo 4 (λ l,
               FieldMatrix.get (matrixC g) i l * FieldMatrix.get Ainv l k)
             * FieldMatrix.get (matrixB g) k j))
  ∧ halfEdgeFluxes r = FieldMatrix.mv T u
  ∧ ∃ Tu0 Tu2 vel1 vel2,
      FieldMatrix.mv T u !! 0%nat = Some Tu0
      ∧ FieldMatrix.mv T u !! 2%nat = Some Tu2
      ∧ addVelocity globalIdx1 (indexInInside isIt)
          (FieldVector.scale (centerUnitOuterNormal isIt)
             (Tu0 / isVolume isIt))
          (velocity (variables s)) = Some vel1
      ∧ addVelocity globalIdx1 (indexInInside nextisIt)
          (FieldVector.scale (centerUnitOuterNormal nextisIt)
             (Tu2 / isVolume nextisIt))
          vel1 = Some vel2
      ∧ interiorRegion prob globalIdx1 press1 lambda1 K1 globalPos1
          isIt nextisIt corner1234 e2 press2 lambda2 K2 s
        = Done () {| variables := setVelocity vel2 (variables s);
                     cout := cout s |}.
Proof.
  intros Hr Hrow H1 H3 g Ainv T u.
  assert (HT : transmissibility g = T) by reflexivity.
  assert (HTu : halfEdgeFluxes r = FieldMatrix.mv T u).
  { unfold halfEdgeFluxes. fold g. rewrite HT. fold u.
    unfold FieldMatrix.umv. apply add_zero_l.
    unfold FieldMatrix.mv. rewrite length_fmap, <- HT.
    apply transmissibility_length. }
  split; [done|].
  split; [intros i j Hi Hj; rewrite <- HT; by apply transmissibility_get|].
  split; [done|].
  assert (Hlen : length (FieldMatrix.mv T u) = 4%nat).
  { unfold FieldMatrix.mv. rewrite length_fmap, <- HT.
    apply transmissibility_length. }
  destruct (lookup_lt_is_Some_2 (FieldMatrix.mv T u) 0) as [Tu0 HTu0];
    [lia|].
  destruct (lookup_lt_is_Some_2 (FieldMatrix.mv T u) 2) as [Tu2 HTu2];
    [lia|].
  destruct (addVelocity_Some globalIdx1 (indexInInside isIt)
              (FieldVector.scale (centerUnitOuterNormal isIt)
                 (Tu0 / isVolume isIt))
              (velocity (variables s)) row Hrow H1)
    as (old1 & Hold1 & E1).
  set (row1 := <[indexInInside isIt := _]> row) in E1.
  set (vel1 := <[globalIdx1 := row1]> (velocity (variables s))) in E1.
  destruct (addVelocity_Some globalIdx1 (indexInInside nextisIt)
              (FieldVector.scale (centerUnitOuterNormal nextisIt)
                 (Tu2 / isVolume nextisIt))
              vel1 row1) as (old3 & Hold3 & E3).
  { unfold vel1. apply list_lookup_insert_eq. by eapply lookup_lt_Some. }
  { unfold row1. by rewrite length_insert. }
  set (vel2 := <[globalIdx1 := _]> vel1) in E3.
  exists Tu0, Tu2, vel1, vel2. split_and!; [done | done | done | exact E3 |].
  unfold interiorRegion, bind, getVariables, lift. rewrite Hr.
  rewrite (writeVelocities_eq globalIdx1 isIt nextisIt (halfEdgeFluxes r)
             (velocity (variables s)) Tu0 Tu2 vel1 vel2);
    [done | by rewrite HTu | by rewrite HTu | exact E1 | exact E3].
Qed.


End InteriorRegion.

Section InteriorRegionExamples.
Import MPFAO SquareGrid.

(** The velocities of the four cells at rest, with pressures 3, 2, 2, 1 and
    permeabilities 1, 2, 3, 4: through the face between cells 0 and 1 the
    velocity is 2/3 seen from either cell, and the check of conservation
    reports every cell, whose boundary faces carry no flux here. *)
Example square_velocities :
  match calculateVelocity (properties yaspGrid 2) (problem square)
          noBoundaryRegion stillState with
  | Done _ s =>
      Some (fractions3 (velocity (variables s)), msgGlobalIdx <$> cout s)
  | _ => None
  end
  = Some ([ [[0; 0]; [2 # 3; 0]; [0; 0]; [0; 3 # 4]];
            [[2 # 3; 0]; [0; 0]; [0; 0]; [0; 4 # 3]];
            [[0; 0]; [12 # 7; 0]; [0; 3 # 4]; [0; 0]];
            [[12 # 7; 0]; [0; 0]; [0; 4 # 3]; [0; 0]] ]%Q,
          [0; 1; 2; 3]%nat).
Proof. vm_compute. reflexivity. Qed.



End InteriorRegionExamples.

(** * The velocity reconstruction: the search for the fourth cell *)

Section FourthCell.
Import MPFAO.

Lemma forM__unchanged {A S : Type} (body : A → S → option S) (l : list A)
    (s : S) :
  (∀ a, a ∈ l → body a s = Some s) → forM_ l body s = Some s.
Proof.
  induction l as [|a l IH]; intros Hbody; simpl; [done|].
  rewrite Hbody by (by left). simpl. apply IH.
  intros a' Ha'. apply Hbody. by right.
Qed.

Lemma matchCell4_unchanged prob vars cell1 i2 i3 c4 :
  ¬ commonNeighbour cell1 i2 i3 →
  matchCell4 prob vars cell1 i2 i3 c4 = Some c4.
Proof.
  intros Hno. unfold matchCell4.
  destruct (neighbor i2) eqn:H2, (neighbor i3) eqn:H3; simpl; try done.
  case_decide as Hd; [|done].
  destruct Hno. unfold commonNeighbour. tauto.
Qed.


Lemma findFace_is_Some corner1234 cell1 isIts :
  isIts ≠ [] → is_Some (findFace corner1234 cell1 isIts).
Proof.
  intros Hne. unfold findFace.
  assert (Hhead : is_Some (head isIts)) by (by destruct isIts).
  revert Hhead. generalize (head isIts). clear Hne.
  induction isIts as [|i isIts IH]; intros found Hfound; simpl; [done|].
  apply IH.
  destruct (neighbor i); [|done]. case_decide; [|done].
  revert found Hfound.
  induction (corners i) as [|c cs IHc]; intros found Hfound; simpl; [done|].
  apply IHc. by case_decide.
Qed.


End FourthCell.

Section FourthCellExamples.
Import MPFAO SquareGrid.

(** On the L of three squares the search for the face between cells 2 and
    4 finds no face and stays at the first intersection of cell 2, which is
    the face between cells 1 and 2 itself: the area dF2 is zero, the source
    divides by zero, and what the branch then computes is outside the
    rationals. *)
Example ell_divides_by_zero :
  (λ r, (this (dF1 r), this (dF2 r), this (dF3 r), this (dF4 r)))
    <$> gatherInterior (problem ell) (variables ellState)
          (q 3) 1 (isotropic 1) (center (element ell (0, 0)%Z))
          rightOfEll topOfEll (commonCorner rightOfEll topOfEll)
          (element ell (1, 0)%Z) (q 2) 1 (isotropic (q 2))
  = Some (1 # 4, 0, 1 # 4, 3 # 2)%Q.
Proof. vm_compute. reflexivity. Qed.

End FourthCellExamples.

Section FiveCellsExamples.
Import MPFAO SquareGrid FiveCells.

(** The velocities of the five cells at rest, paired as on an unstructured
    grid.  Every region around the vertex lacks a fourth cell, and every
    one is computed; the faces on the boundary carry no flux here, and the
    check of conservation reports every cell. *)
Example fiveCells_velocities :
  match calculateVelocity (properties ugGrid 2) problem noBoundaryRegion
          state with
  | Done _ s =>
      Some (fractions3 (velocity (variables s)), msgGlobalIdx <$> cout s)
  | _ => None
  end
  = Some ([ [[0; -36 # 55]; [0; 0]; [0; 0]; [-64 # 275; 48 # 275]];
            [[-16 # 35; 12 # 35]; [0; 0]; [0; 0]; [216 # 1525; 288 # 1525]];
            [[684 # 3575; 912 # 3575]; [0; 0]; [0; 0];
             [-1548 # 3575; 2064 # 3575]];
            [[-432 # 1075; 576 # 1075]; [0; 0]; [0; 0]; [32 # 25; 24 # 25]];
            [[544 # 485; 408 # 485]; [0; 0]; [0; 0]; [0; -64 # 97]] ]%Q,
          [0; 1; 2; 3; 4]%nat).
Proof. vm_compute. reflexivity. Qed.


(** The two velocities of that region: the half-edge fluxes -516/143
    through face 3 and 228/143 through face 0, over the length 5 of a face,
    along the unit outer normals (3/5, -4/5) and (3/5, 4/5). *)
Example fiveCells_region :
  match interiorRegion problem 2
          (q 3) 1 (isotropic (q 3)) (center (element 2))
          toCell3 toCell1 (commonCorner toCell3 toCell1)
          (element 3) (q 5) 1 (isotropic (q 4)) state with
  | Done _ s => fractions2 <$> velocity (variables s) !! 2%nat
  | _ => None
  end
  = Some [ [684 # 3575; 912 # 3575]; [0; 0]; [0; 0];
           [-1548 # 3575; 2064 # 3575] ]%Q.
Proof. vm_compute. reflexivity. Qed.

End FiveCellsExamples.

(** * The local residual: the passes together *)

Section Passes.
Context `{TypeTag} `{!ProblemInterface} `{!Implementation} `{!WellTyped}.

(** Two residuals of the same shape with the same entries are equal. *)
Lemma shaped_ext n (r r' : list (list Qc)) :
  shaped n r → shaped n r' →
  (∀ i e, (i < n)%nat → (e < numEq)%nat →
     component r i e = component r' i e) →
  r = r'.
Proof.
  intros Hr Hr' Hc. apply list_eq. intros i.
  destruct (decide (i < n)%nat) as [Hi|Hi].
  - destruct (shaped_lookup _ _ i Hr Hi) as (row & Hrow & Hlen).
    destruct (shaped_lookup _ _ i Hr' Hi) as (row' & Hrow' & Hlen').
    rewrite Hrow, Hrow'. f_equal. apply list_eq. intros e.
    destruct (decide (e < numEq)%nat) as [He|He].
    + specialize (Hc i e Hi He). unfold component in Hc.
      by rewrite Hrow, Hrow' in Hc.
    + rewrite !lookup_ge_None_2 by lia. done.
  - destruct Hr as [Hl _], Hr' as [Hl' _].
    rewrite !lookup_ge_None_2 by lia. done.
Qed.

(** The Neumann pass leaves the residual of a sub-control volume without a
    Neumann equation as it is. *)
Lemma evalNeumann__frame p self elem fvGeom cur bcTypes :
  elem_ self = Some elem →
  fvElemGeom_ self = Some fvGeom →
  bcTypesPtr_ (ptrs_ self) = Some bcTypes →
  WellFormed p elem fvGeom cur bcTypes →
  shaped (numVertices fvGeom) (residual_ self) →
  ∃ self', evalNeumann_ p self = Some self'
    ∧ ptrs_ self' = ptrs_ self
    ∧ shaped (numVertices fvGeom) (residual_ self')
    ∧ ∀ i bc eq,
        bcTypes !! i = Some bc → hasNeumann bc = false → (eq < numEq)%nat →
        component (residual_ self') i eq = component (residual_ self) i eq.
Proof.
  intros Helem Hg Hbcs Hwf Hr.
  unfold evalNeumann_. rewrite Helem. simpl.
  pose (P := λ s : BoxLocalResidual,
    ptrs_ s = ptrs_ self ∧ shaped (numVertices fvGeom) (residual_ s)
    ∧ ∀ i bc eq,
        bcTypes !! i = Some bc → hasNeumann bc = false → (eq < numEq)%nat →
        component (residual_ s) i eq = component (residual_ self) i eq).
  assert (Hloop : ∀ isIts s,
    (∀ isIt, isIt ∈ isIts → isIt ∈ intersections p elem) → P s →
    ∃ s', evalNeumannLoop p isIts s = Some s' ∧ P s').
  { induction isIts as [|isIt isIts IH]; intros s Hsub Hs; simpl.
    { by exists s. }
    assert (Hrest : ∀ i, i ∈ isIts → i ∈ intersections p elem).
    { intros i Hi. apply Hsub. by right. }
    destruct (boundary isIt) eqn:Hb; [|by apply IH].
    assert (∃ s1, evalNeumannFace p isIt s = Some s1 ∧ P s1)
      as (s1 & E1 & Hs1).
    { destruct Hs as (Hp & Hs & Hfr). unfold evalNeumannFace, elem_, fvElemGeom_.
      rewrite Hp. fold (elem_ self) (fvElemGeom_ self).
      rewrite Helem, Hg. simpl.
      apply (for_range_total P); [|done].
      intros fv t Hfv (Hpt & Ht & Hfrt).
      destruct (wf_neumann _ _ _ _ _ Hwf isIt fv) as [Hscv [bf Hbf]];
        [apply Hsub; by left | done | done |].
      set (scvIdx := refElemSubEntity elem (indexInInside isIt) fv) in *.
      destruct (lookup_lt_is_Some_2 bcTypes scvIdx) as [bc Hbc].
      { rewrite (wf_bcTypes _ _ _ _ _ Hwf). done. }
      destruct (evalNeumannSegment__spec p isIt scvIdx
                  (boundaryFaceIndex fvGeom (indexInInside isIt) fv)
                  t bc elem fvGeom bf)
        as (t' & E & Hpt' & Ht' & Hres); try done.
      - unfold bcTypes_. rewrite Hpt, Hbcs. done.
      - unfold elem_. rewrite Hpt. done.
      - unfold fvElemGeom_. rewrite Hpt. done.
      - exists t'. split; [done|]. split_and!; [congruence | done |].
        intros i bc0 eq Hbc0 Hn0 Heq.
        rewrite <- (Hfrt i bc0 eq Hbc0 Hn0 Heq).
        destruct (hasNeumann bc) eqn:Hn; [|by rewrite Hres].
        assert (Hi : (i < numVertices fvGeom)%nat).
        { rewrite <- (wf_bcTypes _ _ _ _ _ Hwf). by eapply lookup_lt_Some. }
        destruct (Hres i eq Hi Heq) as (x & v & Hx & _ & Hx').
        rewrite Hx', Hx. rewrite decide_False; [done|].
        intros ->. congruence. }
    rewrite E1. simpl. by apply IH. }
  destruct (Hloop (intersections p elem) self) as (s' & E & Hp & Hs & Hfr);
    [done | done |].
  by exists s'.
Qed.

(** The four passes of [eval], one after the other. *)
Lemma eval_passes p element fvGeom prev cur bcTypes self :
  WellFormed p element fvGeom cur bcTypes →
  let ptrs := evalPointers element fvGeom prev cur bcTypes in
  let n := numVertices fvGeom in
  ∃ s1 s2 s3 s4,
    evalFluxes_ p {| residual_ := zeroResidual n; ptrs_ := ptrs |} = Some s1
    ∧ evalVolumeTerms_ p s1 = Some s2
    ∧ (if elemHasNeumann bcTypes then evalNeumann_ p s2 else Some s2)
      = Some s3
    ∧ (if elemHasDirichlet bcTypes then evalDirichlet_ p s3 else Some s3)
      = Some s4
    ∧ eval p element fvGeom prev cur bcTypes self = Some s4
    ∧ (shaped n (residual_ s1) ∧ shaped n (residual_ s2)
       ∧ shaped n (residual_ s3) ∧ shaped n (residual_ s4))
    ∧ (∀ i j, (i < n)%nat → (j < numEq)%nat →
         component (residual_ s2) i j
         = component (residual_ s1) i j ≫= withVolumeTerms p ptrs fvGeom i j)
    ∧ (∀ i bc eq,
         bcTypes !! i = Some bc → hasNeumann bc = false → (eq < numEq)%nat →
         component (residual_ s3) i eq = component (residual_ s2) i eq)
    ∧ (∀ i e, (i < n)%nat → (e < numEq)%nat →
         component (residual_ s4) i e
         = if elemHasDirichlet bcTypes
           then component (residual_ s3) i e
                ≫= withDirichlet p element cur bcTypes i e
           else component (residual_ s3) i e).
Proof.
  intros Hwf ptrs n. unfold eval. simpl.
  fold (evalPointers element fvGeom prev cur bcTypes). fold ptrs. fold n.
  set (self0 := setResidual _ _).
  change (setResidual (zeroResidual n)
            {| residual_ := residual_ self; ptrs_ := ptrs |})
    with {| residual_ := zeroResidual n; ptrs_ := ptrs |} in self0.
  assert (Hs0 : shaped n (residual_ self0)) by apply shaped_zeroResidual.
  destruct (evalFluxes_prefix p self0 fvGeom (numEdges fvGeom))
    as (s1 & E1 & Hp1 & Hs1 & Hsum1); [done | apply Hwf | done | | done |].
  { intros k. apply computeFlux_length. }
  assert (E1' : evalFluxes_ p self0 = Some s1) by exact E1.
  rewrite E1'. simpl.
  destruct (evalVolumeTerms_spec p s1 fvGeom)
    as (s2 & E2 & Hp2 & Hs2 & Hc2); [| apply Hwf | done |].
  { unfold fvElemGeom_. by rewrite Hp1. }
  rewrite E2. simpl.
  assert (∃ s3, (if elemHasNeumann bcTypes then evalNeumann_ p s2
                 else Some s2) = Some s3
            ∧ ptrs_ s3 = ptrs
            ∧ shaped n (residual_ s3)
            ∧ ∀ i bc eq,
                bcTypes !! i = Some bc → hasNeumann bc = false →
                (eq < numEq)%nat →
                component (residual_ s3) i eq
                = component (residual_ s2) i eq)
    as (s3 & E3 & Hp3 & Hs3 & Hc3).
  { destruct (elemHasNeumann bcTypes).
    - destruct (evalNeumann__frame p s2 element fvGeom cur bcTypes)
        as (s3 & E3 & Hp3 & Hs3 & Hc3); try done.
      + unfold elem_. by rewrite Hp2, Hp1.
      + unfold fvElemGeom_. by rewrite Hp2, Hp1.
      + by rewrite Hp2, Hp1.
      + exists s3. split; [done|].
        split_and!; [by rewrite Hp3, Hp2, Hp1 | done | done].
    - exists s2. split; [done|].
      split_and!; [by rewrite Hp2, Hp1 | done | done]. }
  rewrite E3. simpl.
  assert (∃ s4, (if elemHasDirichlet bcTypes then evalDirichlet_ p s3
                 else Some s3) = Some s4
            ∧ shaped n (residual_ s4)
            ∧ ∀ i e, (i < n)%nat → (e < numEq)%nat →
                component (residual_ s4) i e
                = if elemHasDirichlet bcTypes
                  then component (residual_ s3) i e
                       ≫= withDirichlet p element cur bcTypes i e
                  else component (residual_ s3) i e)
    as (s4 & E4 & Hs4 & Hc4).
  { destruct (elemHasDirichlet bcTypes).
    - destruct (evalDirichlet__spec p s3 element fvGeom cur bcTypes)
        as (s4 & E4 & Hp4 & Hs4 & Hc4); try done.
      + unfold elem_. by rewrite Hp3.
      + unfold fvElemGeom_. by rewrite Hp3.
      + by rewrite Hp3.
      + by rewrite Hp3.
      + by exists s4.
    - by exists s3. }
  exists s1, s2, s3, s4. split_and!; try done.
  intros i j Hi Hj. rewrite Hc2 by done. by rewrite Hp1.
Qed.

(** X3.  For a sub-control volume without a Neumann and without a Dirichlet
    equation, the two boundary passes of [eval] change nothing: with a time
    step size other than zero, its residual is what the flux pass left
    there plus its volume terms. *)
Theorem eval_interior_vertex p element fvGeom prev cur bcTypes self :
  WellFormed p element fvGeom cur bcTypes →
  timeStepSize p ≠ 0 →
  let ptrs := evalPointers element fvGeom prev cur bcTypes in
  ∃ fluxes self',
    evalFluxes_ p {| residual_ := zeroResidual (numVertices fvGeom);
                     ptrs_ := ptrs |} = Some fluxes
    ∧ eval p element fvGeom prev cur bcTypes self = Some self'
    ∧ ∀ i bc eq,
        bcTypes !! i = Some bc →
        hasNeumann bc = false → hasDirichlet bc = false →
        (eq < numEq)%nat →
        component (residual_ self') i eq
        = component (residual_ fluxes) i eq
          ≫= withVolumeTerms p ptrs fvGeom i eq.
Proof.
  intros Hwf _ ptrs.
  destruct (eval_passes p element fvGeom prev cur bcTypes self Hwf)
    as (s1 & s2 & s3 & s4 & E1 & _ & _ & _ & E & (_ & _ & Hs3 & _)
        & Hc2 & Hc3 & Hc4).
  exists s1, s4. split_and!; [done | done |].
  intros i bc eq Hbc Hn Hd Heq.
  assert (Hi : (i < numVertices fvGeom)%nat).
  { rewrite <- (wf_bcTypes _ _ _ _ _ Hwf). by eapply lookup_lt_Some. }
  rewrite <- Hc2, <- (Hc3 i bc eq) by done.
  rewrite Hc4 by done.
  destruct (elemHasDirichlet bcTypes); [|done].
  destruct (shaped_component _ _ i eq Hs3 Hi Heq) as [x ->]. simpl.
  unfold withDirichlet. rewrite Hbc. simpl.
  by rewrite (hasDirichlet_false bc eq Hd Heq).
Qed.

(** X4.  The Neumann pass runs to its end on arguments that fit together
    and changes the residual only of sub-control volumes with a Neumann
    equation: the entries of every other sub-control volume are what they
    were. *)
Theorem evalNeumann_only_neumann_volumes p self elem fvGeom cur bcTypes :
  elem_ self = Some elem →
  fvElemGeom_ self = Some fvGeom →
  bcTypesPtr_ (ptrs_ self) = Some bcTypes →
  WellFormed p elem fvGeom cur bcTypes →
  shaped (numVertices fvGeom) (residual_ self) →
  ∃ self', evalNeumann_ p self = Some self'
    ∧ ∀ i bc eq,
        bcTypes !! i = Some bc → hasNeumann bc = false → (eq < numEq)%nat →
        component (residual_ self') i eq = component (residual_ self) i eq.
Proof.
  intros Helem Hg Hbcs Hwf Hr.
  destruct (evalNeumann__frame p self elem fvGeom cur bcTypes)
    as (self' & E & _ & _ & Hfr); try done.
  by exists self'.
Qed.

(** X5.  The Dirichlet pass is idempotent and touches the Dirichlet entries
    only: run on its own result it changes nothing, and an entry whose
    equation is not classified as Dirichlet is what it was. *)
Theorem evalDirichlet_idempotent p self elem fvGeom cur bcTypes :
  elem_ self = Some elem →
  fvElemGeom_ self = Some fvGeom →
  curVolVarsPtr_ (ptrs_ self) = Some cur →
  bcTypesPtr_ (ptrs_ self) = Some bcTypes →
  WellFormed p elem fvGeom cur bcTypes →
  shaped (numVertices fvGeom) (residual_ self) →
  ∃ self', evalDirichlet_ p self = Some self'
    ∧ evalDirichlet_ p self' = Some self'
    ∧ ∀ i bc e,
        bcTypes !! i = Some bc → (e < numEq)%nat →
        isDirichlet bc e = false →
        component (residual_ self') i e = component (residual_ self) i e.
Proof.
  intros Helem Hg Hcur Hbcs Hwf Hr.
  destruct (evalDirichlet__spec p self elem fvGeom cur bcTypes)
    as (s1 & E1 & Hp1 & Hs1 & Hc1); try done.
  destruct (evalDirichlet__spec p s1 elem fvGeom cur bcTypes)
    as (s2 & E2 & Hp2 & Hs2 & Hc2); try done.
  { unfold elem_. by rewrite Hp1. }
  { unfold fvElemGeom_. by rewrite Hp1. }
  { by rewrite Hp1. }
  { by rewrite Hp1. }
  exists s1. split_and!; [done | |].
  - rewrite E2. f_equal.
    assert (residual_ s2 = residual_ s1) as Hres.
    { apply (shaped_ext (numVertices fvGeom)); [done | done |].
      intros i e Hi He. rewrite Hc2, Hc1 by done.
      destruct (shaped_component _ _ i e Hr Hi He) as [x ->]. simpl.
      unfold withDirichlet.
      destruct (bcTypes !! i) as [bc|]; simpl; [|done].
      destruct (isDirichlet bc e) eqn:Hd; simpl; [|done].
      destruct (cur !! i) as [vv|]; simpl; [|done].
      destruct (primaryVars vv !! eqToDirichletIndex bc e) as [c|];
        simpl; [|done].
      by destruct (dirichlet p (subEntity elem i)
                     !! eqToDirichletIndex bc e) as [v|]. }
    destruct s1, s2. simpl in *. congruence.
  - intros i bc e Hbc He Hd.
    assert (Hi : (i < numVertices fvGeom)%nat).
    { rewrite <- (wf_bcTypes _ _ _ _ _ Hwf). by eapply lookup_lt_Some. }
    rewrite Hc1 by done.
    destruct (shaped_component _ _ i e Hr Hi He) as [x ->]. simpl.
    unfold withDirichlet. rewrite Hbc. simpl. by rewrite Hd.
Qed.

End Passes.

Section PassesExamples.
Import LineElement.

Lemma halfBoundary_wellFormed p :
  WellFormed p () fvGeom curVolVars HalfBoundary.bcTypes.
Proof.
  split.
  - apply line_facesInRange.
  - apply line_volumesInRange.
  - reflexivity.
  - reflexivity.
  - intros i bc e Hbc He Hd. simpl in He.
    destruct i as [|[|i]]; simpl in Hbc; [| |done];
      injection Hbc as <-; simpl; lia.
  - intros isIt fv Hin _ Hfv. simpl in Hfv.
    simpl in Hin. rewrite !elem_of_cons, elem_of_nil in Hin.
    destruct Hin as [-> | [-> | []]]; simpl; (split; [lia | by eexists]).
Qed.

Lemma interior_wellFormed p :
  WellFormed p () fvGeom curVolVars Interior.bcTypes.
Proof.
  split.
  - apply line_facesInRange.
  - apply line_volumesInRange.
  - reflexivity.
  - reflexivity.
  - intros i bc e Hbc He Hd. simpl in He.
    destruct i as [|[|i]]; simpl in Hbc; [| |done];
      injection Hbc as <-; simpl; lia.
  - intros isIt fv Hin _ Hfv. simpl in Hfv.
    simpl in Hin. rewrite !elem_of_cons, elem_of_nil in Hin.
    destruct Hin as [-> | [-> | []]]; simpl; (split; [lia | by eexists]).
Qed.

Lemma halfBoundary_shaped : shaped 2 (residual_ HalfBoundary.self0).
Proof. split; [done|]. repeat constructor. Qed.

(** The flux pass alone on the line element: the flux (1, 2) leaves vertex 0
    and enters vertex 1. *)
Example line_evalFluxes :
  (λ self, fractions2 (residual_ self))
    <$> evalFluxes 0%nat () curVolVars self0
  = Some [[-1; -2]; [1; 2]]%Q.
Proof. vm_compute. reflexivity. Qed.

(** The line element without boundary conditions: the volume terms are
    (0, 4) at vertex 0 and (0, 6) at vertex 1, and the flux (1, 2) moves
    from the first row to the second. *)
Example interior_eval :
  (λ self, fractions2 (residual_ self))
    <$> eval 0%nat () fvGeom prevVolVars curVolVars Interior.bcTypes self0
  = Some [[-1; 2]; [1; 8]]%Q.
Proof. vm_compute. reflexivity. Qed.

Lemma eval_interior_vertex_witness :
  let ptrs :=
    evalPointers () fvGeom prevVolVars curVolVars HalfBoundary.bcTypes in
  timeStepSize 0%nat ≠ 0
  ∧ ∃ fluxes self',
    evalFluxes_ 0%nat {| residual_ := zeroResidual (numVertices fvGeom);
                         ptrs_ := ptrs |} = Some fluxes
    ∧ eval 0%nat () fvGeom prevVolVars curVolVars HalfBoundary.bcTypes self0
      = Some self'
    ∧ ∀ i bc eq,
        HalfBoundary.bcTypes !! i = Some bc →
        hasNeumann bc = false → hasDirichlet bc = false →
        (eq < numEq)%nat →
        component (residual_ self') i eq
        = component (residual_ fluxes) i eq
          ≫= withVolumeTerms 0%nat ptrs fvGeom i eq.
Proof.
  assert (Hdt : timeStepSize 0%nat ≠ 0).
  { intros E. apply (f_equal this) in E. vm_compute in E. discriminate. }
  intros ptrs. split; [exact Hdt|].
  exact (@eval_interior_vertex _ _ _ line_wellTyped 0%nat () fvGeom
           prevVolVars curVolVars HalfBoundary.bcTypes self0
           (halfBoundary_wellFormed 0%nat) Hdt).
Defined.

Lemma evalNeumann_only_neumann_volumes_witness :
  ∃ self', evalNeumann_ 0%nat HalfBoundary.self0 = Some self'
    ∧ ∀ i bc eq,
        HalfBoundary.bcTypes !! i = Some bc → hasNeumann bc = false →
        (eq < numEq)%nat →
        component (residual_ self') i eq
        = component (residual_ HalfBoundary.self0) i eq.
Proof.
  exact (@evalNeumann_only_neumann_volumes _ _ _ line_wellTyped 0%nat
           HalfBoundary.self0 () fvGeom curVolVars HalfBoundary.bcTypes
           eq_refl eq_refl eq_refl (halfBoundary_wellFormed 0%nat)
           halfBoundary_shaped).
Defined.

Lemma evalDirichlet_idempotent_witness :
  ∃ self', evalDirichlet_ 0%nat HalfBoundary.self0 = Some self'
    ∧ evalDirichlet_ 0%nat self' = Some self'
    ∧ ∀ i bc e,
        HalfBoundary.bcTypes !! i = Some bc → (e < numEq)%nat →
        isDirichlet bc e = false →
        component (residual_ self') i e
        = component (residual_ HalfBoundary.self0) i e.
Proof.
  exact (@evalDirichlet_idempotent _ _ _ line_wellTyped 0%nat
           HalfBoundary.self0 () fvGeom curVolVars HalfBoundary.bcTypes
           eq_refl eq_refl eq_refl eq_refl (halfBoundary_wellFormed 0%nat)
           halfBoundary_shaped).
Defined.

End PassesExamples.

(** * The velocity reconstruction: pairing the intersections *)

Section Pairing.
Import MPFAO MPFAOFacts.

(** X6.  For the three supported grid implementations the [switch] pairs
    every intersection of a cell with another position of the same cell,
    without raising an exception and without touching the state, and no two
    intersections are paired with the same one: the pairing is a permutation
    of the intersections of the cell. *)
Theorem nextIntersection_permutation impl n pos s :
  (∀ id, impl ≠ otherGrid id) → (pos < n)%nat →
  ∃ next, nextIntersection impl n pos s = Done next s
    ∧ (next < n)%nat
    ∧ ∀ pos', (pos' < n)%nat →
        nextIntersection impl n pos' s = Done next s → pos' = pos.
Proof.
  intros Himpl Hpos. unfold nextIntersection, ret.
  destruct impl as [| | |id]; [| | |by destruct (Himpl id)];
    repeat case_decide;
    (eexists; split; [reflexivity|]; split; [lia|];
     intros pos' Hpos'; repeat case_decide; intros ?; simplify_eq; lia).
Qed.

(** The inner loop of the search for [corner1234]. *)
Lemma commonCorner_inner (isItcorner : list Qc) cs corner1234 :
  foldl (λ corner1234 nextisItcorner,
           if decide (nextisItcorner = isItcorner)
           then isItcorner else corner1234) corner1234 cs
  = if decide (isItcorner ∈ cs) then isItcorner else corner1234.
Proof.
  revert corner1234. induction cs as [|c cs IH]; intros corner1234.
  - destruct (decide (isItcorner ∈ [])) as [Hin|];
      [by apply elem_of_nil in Hin | done].
  - cbn [foldl]. rewrite IH.
    destruct (decide (isItcorner ∈ c :: cs)) as [Hin|Hnin],
      (decide (c = isItcorner)) as [->|Hne],
      (decide (isItcorner ∈ cs)) as [Hin'|Hnin']; try done;
      exfalso;
      first [ apply elem_of_cons in Hin as [?|?]; naive_solver
            | apply Hnin, elem_of_cons; naive_solver ].
Qed.

Lemma commonCorner_outer (ncs : list (list Qc)) cs corner1234 :
  foldl (λ corner1234 isItcorner,
           foldl (λ corner1234 nextisItcorner,
                    if decide (nextisItcorner = isItcorner)
                    then isItcorner else corner1234)
                 corner1234 ncs) corner1234 cs
  = foldl (λ corner1234 isItcorner,
             if decide (isItcorner ∈ ncs) then isItcorner else corner1234)
          corner1234 cs.
Proof.
  revert corner1234. induction cs as [|c cs IH]; intros corner1234; simpl.
  - done.
  - by rewrite commonCorner_inner, IH.
Qed.

(** A search that keeps the last element passing a test. *)
Lemma foldl_keep {A B : Type} (g : B → A → B) (l : list A) (x : B) :
  (∀ y a, a ∈ l → g y a = y) → foldl g x l = x.
Proof.
  revert x. induction l as [|a l IH]; intros x Hg; simpl; [done|].
  rewrite Hg by (by left). apply IH.
  intros y a' Ha'. apply Hg. by right.
Qed.

Lemma foldl_last {A B : Type} (g : B → A → B) (before after : list A)
    (a : A) (x z : B) :
  (∀ y, g y a = z) → (∀ y a', a' ∈ after → g y a' = y) →
  foldl g x (before ++ a :: after) = z.
Proof.
  intros Ha Hafter. rewrite foldl_app. simpl. rewrite Ha.
  by apply foldl_keep.
Qed.

(** X7.  [corner1234] is the last corner of [isIt], in the order of its
    corners, that is also a corner of [nextisIt]; when the two
    intersections have no corner in common it stays at the origin, its
    initial value, without any error. *)
Theorem commonCorner_spec isIt nextisIt :
  (∀ before c after,
     corners isIt = before ++ c :: after →
     c ∈ corners nextisIt →
     (∀ c', c' ∈ after → c' ∉ corners nextisIt) →
     commonCorner isIt nextisIt = c)
  ∧ ((∀ c, c ∈ corners isIt → c ∉ corners nextisIt) →
     commonCorner isIt nextisIt = FieldVector.const dim 0).
Proof.
  unfold commonCorner. rewrite commonCorner_outer. split.
  - intros before c after -> Hc Hafter. apply foldl_last.
    + intros y. by rewrite decide_True.
    + intros y c' Hc'. rewrite decide_False; [done | by apply Hafter].
  - intros Hno. apply foldl_keep.
    intros y c Hc. rewrite decide_False; [done | by apply Hno].
Qed.

(** One step of the search for [isIt24] or [isIt34]. *)
Lemma findFace_inner (corner1234 : list Qc) (innerisIt : Intersection) cs
    found :
  foldl (λ found innerisItcorner,
           if decide (innerisItcorner = corner1234)
           then Some innerisIt else found) found cs
  = if decide (corner1234 ∈ cs) then Some innerisIt else found.
Proof.
  revert found. induction cs as [|c cs IH]; intros found.
  - destruct (decide (corner1234 ∈ [])) as [Hin|];
      [by apply elem_of_nil in Hin | done].
  - cbn [foldl]. rewrite IH.
    destruct (decide (corner1234 ∈ c :: cs)) as [Hin|Hnin],
      (decide (c = corner1234)) as [->|Hne],
      (decide (corner1234 ∈ cs)) as [Hin'|Hnin']; try done;
      exfalso;
      first [ apply elem_of_cons in Hin as [?|?]; naive_solver
            | apply Hnin, elem_of_cons; naive_solver ].
Qed.

Lemma findFace_step corner1234 cell1 innerisIt found :
  (if neighbor innerisIt then
     if decide (outside innerisIt ≠ cell1) then
       foldl (λ found innerisItcorner,
                if decide (innerisItcorner = corner1234)
                then Some innerisIt else found)
             found (corners innerisIt)
     else found
   else found)
  = (if neighbor innerisIt then
       if decide (outside innerisIt ≠ cell1) then
         if decide (corner1234 ∈ corners innerisIt) then Some innerisIt
         else found
       else found
     else found).
Proof. by rewrite findFace_inner. Qed.

(** X8.  The search for the face of a neighbouring cell at [corner1234]
    returns the last intersection, in the order of the cell's intersections,
    that has a neighbour other than cell 1 and [corner1234] among its
    corners; when no intersection passes the test it silently returns the
    first intersection of the cell, the initial value of the iterator. *)
Theorem findFace_spec corner1234 cell1 isIts :
  (∀ before innerisIt after,
     isIts = before ++ innerisIt :: after →
     touchesCorner corner1234 cell1 innerisIt →
     (∀ i, i ∈ after → ¬ touchesCorner corner1234 cell1 i) →
     findFace corner1234 cell1 isIts = Some innerisIt)
  ∧ ((∀ i, i ∈ isIts → ¬ touchesCorner corner1234 cell1 i) →
     findFace corner1234 cell1 isIts = head isIts).
Proof.
  unfold findFace, touchesCorner. split.
  - intros before i after -> (Hn & Ho & Hc) Hafter. apply foldl_last.
    + intros y. rewrite findFace_step, Hn.
      by rewrite decide_True, decide_True.
    + intros y i' Hi'. rewrite findFace_step.
      destruct (neighbor i') eqn:Hn'; [|done].
      repeat case_decide; try done. destruct (Hafter i' Hi'). done.
  - intros Hno. apply foldl_keep.
    intros y i Hi. rewrite findFace_step.
    destruct (neighbor i) eqn:Hn'; [|done].
    repeat case_decide; try done. destruct (Hno i Hi). done.
Qed.

(** A pair of intersections that passes the test of the search. *)
Lemma matchCell4_match prob vars cell1 i2 i3 c4 e4 mw mn :
  commonNeighbour cell1 i2 i3 →
  gridView prob !! outside i2 = Some e4 →
  mobilityWetting vars !! index prob (outside i2) = Some mw →
  mobilityNonwetting vars !! index prob (outside i2) = Some mn →
  matchCell4 prob vars cell1 i2 i3 c4
  = Some {| globalIdx4 := index prob (outside i2);
            globalPos4 := center e4;
            K4 := FieldMatrix.add (K4 c4)
                    (intrinsicPermeability prob (outside i2));
            lambda4 := mw + mn |}.
Proof.
  intros (Hn2 & Hn3 & Hout & Hne) He4 Hmw Hmn.
  unfold matchCell4. rewrite Hn2, Hn3. cbn [andb].
  rewrite decide_True by done. by rewrite He4, Hmw, Hmn.
Qed.

(** X9.  When exactly one pair of intersections of cells 2 and 3 leads to a
    common neighbour other than cell 1, the search for the fourth cell
    returns the index, the centre and the total mobility of that cell, and
    the permeability of that cell added to the zero matrix. *)
Theorem findCell4_unique
    prob vars cell1 before2 i2 after2 before3 i3 after3 e4 mw mn :
  commonNeighbour cell1 i2 i3 →
  (∀ x y, x ∈ before2 → y ∈ before3 ++ i3 :: after3 →
          ¬ commonNeighbour cell1 x y) →
  (∀ x y, x ∈ after2 → y ∈ before3 ++ i3 :: after3 →
          ¬ commonNeighbour cell1 x y) →
  (∀ y, y ∈ before3 → ¬ commonNeighbour cell1 i2 y) →
  (∀ y, y ∈ after3 → ¬ commonNeighbour cell1 i2 y) →
  gridView prob !! outside i2 = Some e4 →
  mobilityWetting vars !! index prob (outside i2) = Some mw →
  mobilityNonwetting vars !! index prob (outside i2) = Some mn →
  findCell4 prob vars cell1 (before2 ++ i2 :: after2)
    (before3 ++ i3 :: after3)
  = Some {| globalIdx4 := index prob (outside i2);
            globalPos4 := center e4;
            K4 := FieldMatrix.add (FieldMatrix.zero dim dim)
                    (intrinsicPermeability prob (outside i2));
            lambda4 := mw + mn |}.
Proof.
  intros Hmatch Hbefore2 Hafter2 Hbefore3 Hafter3 He4 Hmw Hmn.
  unfold findCell4. rewrite forM__app.
  rewrite forM__unchanged; last first.
  { intros x Hx. apply forM__unchanged. intros y Hy.
    apply matchCell4_unchanged. by apply Hbefore2. }
  cbn [mbind option_bind forM_].
  rewrite forM__app.
  rewrite (forM__unchanged _ before3); last first.
  { intros y Hy. apply matchCell4_unchanged. by apply Hbefore3. }
  cbn [mbind option_bind forM_].
  rewrite (matchCell4_match prob vars cell1 i2 i3 defaultCell4 e4 mw mn)
    by done.
  cbn [mbind option_bind].
  rewrite (forM__unchanged _ after3); last first.
  { intros y Hy. apply matchCell4_unchanged. by apply Hafter3. }
  cbn [mbind option_bind].
  apply forM__unchanged.
  intros x Hx. apply forM__unchanged. intros y Hy.
  apply matchCell4_unchanged. by apply Hafter2.
Qed.

Lemma rotation_entries : rotation = [[0; 1]; [- (1); 0]].
Proof. reflexivity. Qed.

(** X10.  The matrix [R] turns a vector of the plane by a quarter turn: the
    image is perpendicular to the vector and has its length, and two turns
    give the opposite vector. *)
Theorem rotation_quarter_turn (x y : Qc) :
  let v := [x; y] in
  FieldVector.dot v (rotate v) = 0
  ∧ FieldVector.dot (rotate v) (rotate v) = FieldVector.dot v v
  ∧ rotate (rotate v) = FieldVector.scale v (- (1)).
Proof.
  intros v. unfold v, rotate. rewrite rotation_entries.
  unfold FieldMatrix.umv, FieldMatrix.mv,
    FieldVector.add, FieldVector.dot, FieldVector.scale, FieldVector.const.
  cbn -[Qcplus Qcmult Qcopp].
  split_and!; [ring | ring | repeat f_equal; ring].
Qed.

End Pairing.

Section PairingExamples.
Import MPFAO MPFAOFacts SquareGrid SquareStates.

(** The pairing on a cell of a structured grid with four intersections:
    the intersection at position 1 is paired with the one at position 3. *)
Lemma nextIntersection_permutation_witness :
  ∃ next, nextIntersection yaspGrid 4 1 stillState = Done next stillState
    ∧ (next < 4)%nat
    ∧ ∀ pos', (pos' < 4)%nat →
        nextIntersection yaspGrid 4 pos' stillState = Done next stillState →
        pos' = 1%nat.
Proof.
  apply (nextIntersection_permutation yaspGrid 4 1 stillState);
    [intros id; discriminate | lia].
Defined.

(** The right and the top intersection of cell 0 meet in the corner (1, 1);
    its left and its right intersection have no corner in common, and the
    search leaves the origin. *)
Example commonCorner_examples :
  fractions (commonCorner rightOf0 topOf0) = [1; 1]%Q
  ∧ fractions (commonCorner leftOf0 rightOf0) = [0; 0]%Q.
Proof. split; vm_compute; reflexivity. Qed.

(** In cell 1 of the four cells, the face at the corner (1, 1) that does not
    lead back to cell 0 is its top intersection; at the corner (5, 5), which
    no intersection touches, the search returns the first intersection. *)
Example findFace_examples :
  indexInInside
    <$> findFace [q 1; q 1] 0 (intersections (element square (1, 0)%Z))
  = Some 3%nat
  ∧ indexInInside
      <$> findFace [q 5; q 5] 0 (intersections (element square (1, 0)%Z))
    = Some 0%nat.
Proof. split; vm_compute; reflexivity. Qed.

(** The fourth cell of the region around the corner (1, 1), seen from cell
    0: cell 3, reached through the top of cell 1 and the right of cell 2. *)
Lemma findCell4_unique_witness :
  let f2 := intersection square (1, 0)%Z in
  let f3 := intersection square (0, 1)%Z in
  findCell4 (problem square) (variables stillState) 0
    ([f2 0%nat; f2 1%nat; f2 2%nat] ++ f2 3%nat :: [])
    ([f3 0%nat] ++ f3 1%nat :: [f3 2%nat; f3 3%nat])
  = Some {| globalIdx4 := index (problem square) (outside (f2 3%nat));
            globalPos4 := center (element square (1, 1)%Z);
            K4 := FieldMatrix.add (FieldMatrix.zero dim dim)
                    (intrinsicPermeability (problem square)
                       (outside (f2 3%nat)));
            lambda4 := 1 + 0 |}.
Proof.
  intros f2 f3.
  apply (findCell4_unique (problem square) (variables stillState) 0%nat
           [f2 0%nat; f2 1%nat; f2 2%nat] (f2 3%nat) []
           [f3 0%nat] (f3 1%nat) [f3 2%nat; f3 3%nat]
           (element square (1, 1)%Z) 1 0);
    try reflexivity;
    try (split_and!; [reflexivity | reflexivity | reflexivity
                      | vm_compute; discriminate]);
    intros;
    repeat match goal with
           | H : _ ∈ _ ++ _ |- _ => apply elem_of_app in H as [H|H]
           | H : _ ∈ _ :: _ |- _ => apply elem_of_cons in H as [->|H]
           | H : _ ∈ [] |- _ => apply elem_of_nil in H; destruct H
           end;
    intros (Hn2 & Hn3 & Ho & Hne);
    vm_compute in Hn2, Hn3, Ho, Hne; congruence.
Defined.

End PairingExamples.

(** * The velocity reconstruction: what the loop body writes *)

Section LoopBody.
Import MPFAO MPFAOFacts.

(** X13.  A cell whose four face fluxes add up to its source term times its
    volume is never reported: the check leaves the state, the output
    included, as it is, also when every flux and the source are zero and
    the relative difference is the quotient 0 / 0. *)
Theorem conservative_cell_not_reported
    props globalIdx1 q1 volume1 locals s f0 f1 f2 f3 :
  faceFlux (variables s) locals globalIdx1 0 = Some f0 →
  faceFlux (variables s) locals globalIdx1 1 = Some f1 →
  faceFlux (variables s) locals globalIdx1 2 = Some f2 →
  faceFlux (variables s) locals globalIdx1 3 = Some f3 →
  f0 + f1 + f2 + f3 = q1 * volume1 →
  conservationCheck props globalIdx1 q1 volume1 locals s = Done () s.
Proof.
  intros H0 H1 H2 H3 Hsum.
  assert (Hdiff : relativeDefect f0 f1 f2 f3 q1 volume1 = 0).
  { unfold relativeDefect. rewrite Hsum.
    replace (q1 * volume1 - q1 * volume1) with 0 by ring.
    replace (Qcabs 0) with 0 by (apply Qc_is_canon; reflexivity).
    unfold Qcdiv. ring. }
  unfold conservationCheck.
  destruct (decide (dim = 2%nat ∧ VelocityFormulation props = vt props));
    [|done].
  unfold bind, getVariables, lift. rewrite H0, H1, H2, H3, Hdiff.
  destruct (Qclt_le_dec tolerance 0) as [Hlt|_]; [|done].
  by vm_compute in Hlt.
Qed.

(** X14.  The loop that resets the velocity of cell 1 writes the zero
    vector to its first [2 * dim] faces and to nothing else: the other faces
    of the cell and the other cells keep their velocities.  A cell with
    fewer than [2 * dim] face velocities is accessed out of range. *)
Theorem zeroVelocity_resets_one_cell globalIdx1 vel row :
  vel !! globalIdx1 = Some row →
  zeroVelocity globalIdx1 vel
  = if decide (2 * dim ≤ length row)%nat
    then Some (<[globalIdx1 :=
                   replicate (2 * dim) (FieldVector.const dim 0)
                   ++ drop (2 * dim) row]> vel)
    else None.
Proof.
  intros Hrow.
  assert (Hlt : (globalIdx1 < length vel)%nat) by (by eapply lookup_lt_Some).
  unfold zeroVelocity, for_range. simpl. rewrite Hrow. simpl.
  destruct row as [|v0 row]; [done|]. simpl.
  rewrite list_lookup_insert_eq by done. simpl.
  destruct row as [|v1 row]; [done|]. simpl.
  rewrite list_insert_insert_eq.
  rewrite list_lookup_insert_eq by done. simpl.
  destruct row as [|v2 row]; [done|]. simpl.
  rewrite list_insert_insert_eq.
  rewrite list_lookup_insert_eq by done. simpl.
  destruct row as [|v3 row]; [done|]. simpl.
  rewrite list_insert_insert_eq.
  by rewrite drop_0.
Qed.

Lemma setPotential_Some globalIdx1 i x pot row :
  pot !! globalIdx1 = Some row → (i < length row)%nat →
  setPotential globalIdx1 i x pot
  = Some (<[globalIdx1 := <[i := x]> row]> pot).
Proof.
  intros Hrow Hi. unfold setPotential. rewrite Hrow. simpl.
  by destruct (lookup_lt_is_Some_2 row i Hi) as [old ->].
Qed.

(** X15.  After the loop over the faces of cell 1, the wetting and the
    non-wetting potential of every face hold one and the same number, the
    velocity of the face times its unit outer normal; the velocities and
    the output are as they were. *)
Theorem potentials_both_phases globalIdx1 locals s row pw pn :
  velocity (variables s) !! globalIdx1 = Some row →
  potentialWetting (variables s) !! globalIdx1 = Some pw →
  potentialNonwetting (variables s) !! globalIdx1 = Some pn →
  (length row ≤ length pw)%nat → (length row ≤ length pn)%nat →
  (∀ i, (i < length row)%nat →
        ∃ n, unitOuterNormal locals !! i = Some (Some n)) →
  ∃ s', potentials globalIdx1 locals s = Done () s'
    ∧ velocity (variables s') = velocity (variables s)
    ∧ cout s' = cout s
    ∧ ∀ i, (i < length row)%nat →
        ∃ x, normalVelocity (variables s) locals globalIdx1 i = Some x
          ∧ potentialWetting (variables s') !! globalIdx1 ≫= (.!! i)
            = Some x
          ∧ potentialNonwetting (variables s') !! globalIdx1 ≫= (.!! i)
            = Some x.
Proof.
  intros Hrow Hpw Hpn Hlw Hln Hnormal.
  pose (Q := λ (k : nat) (vars : Variables),
    velocity vars = velocity (variables s)
    ∧ ∃ rw rn,
        potentialWetting vars !! globalIdx1 = Some rw
        ∧ potentialNonwetting vars !! globalIdx1 = Some rn
        ∧ length rw = length pw ∧ length rn = length pn
        ∧ ∀ i, (i < k)%nat →
            ∃ x, normalVelocity (variables s) locals globalIdx1 i = Some x
              ∧ rw !! i = Some x ∧ rn !! i = Some x).
  destruct (for_range_steps Q (length row) (λ i vars,
      x ← normalVelocity vars locals globalIdx1 i;
      pw ← setPotential globalIdx1 i x (potentialWetting vars);
      pn ← setPotential globalIdx1 i x (potentialNonwetting vars);
      Some (setPotentials pw pn vars)) (variables s))
    as (vars' & E & Hvel & rw & rn & Hrw & Hrn & _ & _ & Hx).
  - intros k vars Hk (Hvel & rw & rn & Hrw & Hrn & Hlrw & Hlrn & Hx).
    destruct (lookup_lt_is_Some_2 row k Hk) as [v Hv].
    destruct (Hnormal k Hk) as [n Hn].
    assert (Hnv : ∀ vars0, velocity vars0 = velocity (variables s) →
      normalVelocity vars0 locals globalIdx1 k
      = Some (FieldVector.dot v n)).
    { intros vars0 Hvars0. unfold normalVelocity.
      rewrite Hvars0, Hrow. simpl. rewrite Hv. simpl. by rewrite Hn. }
    rewrite (Hnv vars Hvel). simpl.
    rewrite (setPotential_Some _ _ _ _ rw Hrw) by lia. simpl.
    rewrite (setPotential_Some _ _ _ _ rn Hrn) by lia. simpl.
    eexists. split; [done|]. split; [done|].
    exists (<[k := FieldVector.dot v n]> rw),
      (<[k := FieldVector.dot v n]> rn). simpl.
    split_and!.
    + apply list_lookup_insert_eq. by eapply lookup_lt_Some.
    + apply list_lookup_insert_eq. by eapply lookup_lt_Some.
    + by rewrite length_insert.
    + by rewrite length_insert.
    + intros i Hi. destruct (decide (i = k)) as [->|Hne].
      * exists (FieldVector.dot v n). split_and!; [by apply Hnv | |];
          apply list_lookup_insert_eq; lia.
      * destruct (Hx i) as (x & Hxi & Hwi & Hni); [lia|].
        exists x. split_and!; [done | |];
          by rewrite list_lookup_insert_ne.
  - split; [done|]. exists pw, pn. split_and!; try done. lia.
  - unfold potentials, bind, getVariables, lift. rewrite Hrow, E.
    eexists. split; [done|]. simpl. split_and!; [done | done |].
    intros i Hi. destruct (Hx i Hi) as (x & Hxi & Hwi & Hni).
    exists x. rewrite Hrw, Hrn. done.
Qed.

(** X16.  An interior interaction region adds to the velocities of two
    faces of cell 1, the faces of [isIt] and of [nextisIt], and to nothing
    else: the other faces of cell 1, the velocities of every other cell,
    its neighbours included, and the output are as they were. *)
Theorem interiorRegion_writes_two_faces
    prob globalIdx1 press1 lambda1 K1 globalPos1 isIt nextisIt corner1234
    e2 press2 lambda2 K2 s r row :
  gatherInterior prob (variables s) press1 lambda1 K1 globalPos1
    isIt nextisIt corner1234 e2 press2 lambda2 K2 = Some r →
  velocity (variables s) !! globalIdx1 = Some row →
  (indexInInside isIt < length row)%nat →
  (indexInInside nextisIt < length row)%nat →
  ∃ s' row',
    interiorRegion prob globalIdx1 press1 lambda1 K1 globalPos1
      isIt nextisIt corner1234 e2 press2 lambda2 K2 s = Done () s'
    ∧ cout s' = cout s
    ∧ (∀ globalIdx, globalIdx ≠ globalIdx1 →
         velocity (variables s') !! globalIdx
         = velocity (variables s) !! globalIdx)
    ∧ velocity (variables s') !! globalIdx1 = Some row'
    ∧ length row' = length row
    ∧ ∀ face, face ≠ indexInInside isIt → face ≠ indexInInside nextisIt →
        row' !! face = row !! face.
Proof.
  intros Hr Hrow H1 H3.
  destruct (interiorRegion_spec prob globalIdx1 press1 lambda1 K1 globalPos1
              isIt nextisIt corner1234 e2 press2 lambda2 K2 s r row
              Hr Hrow H1 H3)
    as (_ & _ & _ & Tu0 & Tu2 & vel1 & vel2 & _ & _ & E1 & E3 & E).
  assert (Hlt : (globalIdx1 < length (velocity (variables s)))%nat)
    by (by eapply lookup_lt_Some).
  destruct (addVelocity_Some globalIdx1 (indexInInside isIt)
              (FieldVector.scale (centerUnitOuterNormal isIt)
                 (Tu0 / isVolume isIt))
              (velocity (variables s)) row Hrow H1) as (old1 & _ & E1').
  rewrite E1 in E1'. injection E1' as ->.
  set (row1 := <[indexInInside isIt := _]> row) in *.
  destruct (addVelocity_Some globalIdx1 (indexInInside nextisIt)
              (FieldVector.scale (centerUnitOuterNormal nextisIt)
                 (Tu2 / isVolume nextisIt))
              (<[globalIdx1 := row1]> (velocity (variables s))) row1)
    as (old3 & _ & E3').
  { by apply list_lookup_insert_eq. }
  { unfold row1. by rewrite length_insert. }
  rewrite E3 in E3'. injection E3' as ->.
  eexists _, _. split; [exact E|]. simpl. split_and!.
  - done.
  - intros globalIdx Hne. by rewrite !list_lookup_insert_ne.
  - apply list_lookup_insert_eq. by rewrite length_insert.
  - unfold row1. by rewrite !length_insert.
  - intros face Hf1 Hf3. unfold row1. by rewrite !list_lookup_insert_ne.
Qed.

End LoopBody.

(** * The velocity reconstruction: the data it reads *)

Section Inputs.
Import MPFAO MPFAOFacts.

Lemma sameInputs_setVelocity vars0 vars vel :
  sameInputs vars0 vars → sameInputs vars0 (setVelocity vel vars).
Proof. done. Qed.

Lemma sameInputs_setPotentials vars0 vars pw pn :
  sameInputs vars0 vars → sameInputs vars0 (setPotentials pw pn vars).
Proof. done. Qed.

Lemma keepsInputs_ret {A : Type} vars0 (Q : A → Prop) (a : A) :
  Q a → keepsInputs vars0 Q (ret a).
Proof. by intros Ha s Hs. Qed.

Lemma keepsInputs_lift {A : Type} vars0 (Q : A → Prop) (o : option A) :
  (∀ a, o = Some a → Q a) → keepsInputs vars0 Q (lift o).
Proof.
  intros Ho s Hs. unfold lift. destruct o as [a|]; [|done].
  split; [done | by apply Ho].
Qed.

Lemma keepsInputs_getVariables vars0 :
  keepsInputs vars0 (sameInputs vars0) getVariables.
Proof. by intros s Hs. Qed.

Lemma keepsInputs_putVariables vars0 vars :
  sameInputs vars0 vars → keepsInputs vars0 (λ _, True) (putVariables vars).
Proof. by intros Hvars s Hs. Qed.

Lemma keepsInputs_print vars0 msg :
  keepsInputs vars0 (λ _, True) (print msg).
Proof. by intros s Hs. Qed.

Lemma keepsInputs_throw {A : Type} vars0 (Q : A → Prop) e :
  keepsInputs vars0 Q (throw e).
Proof. by intros s Hs. Qed.

Lemma keepsInputs_bind {A B : Type} vars0 (Q : A → Prop) (Q' : B → Prop)
    (m : M A) (k : A → M B) :
  keepsInputs vars0 Q m → (∀ a, Q a → keepsInputs vars0 Q' (k a)) →
  keepsInputs vars0 Q' (bind m k).
Proof.
  intros Hm Hk s Hs. unfold bind. specialize (Hm s Hs).
  destruct (m s) as [a s1|e s1|]; [|done|done].
  destruct Hm as [Hs1 Ha]. by apply Hk.
Qed.

Lemma keepsInputs_foldM {A L : Type} vars0 (body : A → L → M L)
    (l : list A) :
  (∀ a locals, keepsInputs vars0 (λ _, True) (body a locals)) →
  ∀ locals, keepsInputs vars0 (λ _, True) (foldM body l locals).
Proof.
  intros Hbody. induction l as [|a l IH]; intros locals; simpl.
  - by apply keepsInputs_ret.
  - eapply keepsInputs_bind; [apply Hbody | intros locals' _; apply IH].
Qed.

(** A step that needs no fact about the value bound. *)
Ltac keeps_step lemma :=
  eapply keepsInputs_bind; [apply lemma | intros ? _].

Ltac keeps_lift :=
  eapply keepsInputs_bind;
    [apply (keepsInputs_lift _ (λ _, True)); done | intros ? _].

Lemma keepsInputs_nextIntersection vars0 impl n pos :
  keepsInputs vars0 (λ _, True) (nextIntersection impl n pos).
Proof.
  unfold nextIntersection.
  destruct impl; repeat case_decide;
    first [by apply keepsInputs_ret | apply keepsInputs_throw].
Qed.

Lemma keepsInputs_interiorRegion vars0 prob globalIdx1 press1 lambda1 K1
    globalPos1 isIt nextisIt corner1234 e2 press2 lambda2 K2 :
  keepsInputs vars0 (λ _, True)
    (interiorRegion prob globalIdx1 press1 lambda1 K1 globalPos1 isIt
       nextisIt corner1234 e2 press2 lambda2 K2).
Proof.
  unfold interiorRegion.
  eapply keepsInputs_bind; [apply keepsInputs_getVariables|].
  intros vars Hvars. keeps_lift. keeps_lift.
  by apply keepsInputs_putVariables, sameInputs_setVelocity.
Qed.

Lemma keepsInputs_intersectionBody vars0 props prob boundaryRegion cell1 e1
    globalIdx1 press1 lambda1 K1 pos locals :
  keepsInputs vars0 (λ _, True)
    (intersectionBody props prob boundaryRegion cell1 e1 globalIdx1
       press1 lambda1 K1 pos locals).
Proof.
  unfold intersectionBody.
  keeps_step keepsInputs_nextIntersection.
  keeps_lift. keeps_lift. keeps_lift.
  eapply keepsInputs_bind; [|intros ? _; by apply keepsInputs_ret].
  destruct (neighbor _).
  - eapply keepsInputs_bind; [apply keepsInputs_getVariables|].
    intros vars Hvars. keeps_lift. keeps_lift. keeps_lift. keeps_lift.
    destruct (neighbor _).
    + apply keepsInputs_interiorRegion.
    + keeps_lift.
      by apply keepsInputs_putVariables, sameInputs_setVelocity.
  - eapply keepsInputs_bind; [apply keepsInputs_getVariables|].
    intros vars Hvars. keeps_lift.
    by apply keepsInputs_putVariables, sameInputs_setVelocity.
Qed.

Lemma keepsInputs_potentials vars0 globalIdx1 locals :
  keepsInputs vars0 (λ _, True) (potentials globalIdx1 locals).
Proof.
  unfold potentials.
  eapply keepsInputs_bind; [apply keepsInputs_getVariables|].
  intros vars Hvars. keeps_lift.
  eapply keepsInputs_bind;
    [apply (keepsInputs_lift _ (sameInputs vars0))
    | intros vars' Hvars'; by apply keepsInputs_putVariables].
  intros vars' E.
  eapply (for_range_invariant (sameInputs vars0)); [|exact Hvars|exact E].
  intros k t t' _ Ht Et. simpl in Et.
  destruct (normalVelocity t locals globalIdx1 k) as [x|]; [|done].
  simpl in Et.
  destruct (setPotential globalIdx1 k x (potentialWetting t)) as [pw|];
    [|done].
  simpl in Et.
  destruct (setPotential globalIdx1 k x (potentialNonwetting t)) as [pn|];
    [|done].
  injection Et as <-. by apply sameInputs_setPotentials.
Qed.

Lemma keepsInputs_conservationCheck vars0 props globalIdx1 q1 volume1
    locals :
  keepsInputs vars0 (λ _, True)
    (conservationCheck props globalIdx1 q1 volume1 locals).
Proof.
  unfold conservationCheck. case_decide; [|by apply keepsInputs_ret].
  eapply keepsInputs_bind; [apply keepsInputs_getVariables|].
  intros vars Hvars. keeps_lift. keeps_lift. keeps_lift. keeps_lift.
  destruct (Qclt_le_dec _ _);
    [apply keepsInputs_print | by apply keepsInputs_ret].
Qed.

Lemma keepsInputs_elementBody vars0 props prob boundaryRegion cell1 u :
  keepsInputs vars0 (λ _, True)
    (elementBody props prob boundaryRegion cell1 u).
Proof.
  unfold elementBody. keeps_lift.
  eapply keepsInputs_bind; [apply keepsInputs_getVariables|].
  intros vars Hvars.
  keeps_lift. keeps_lift. keeps_lift. keeps_lift. keeps_lift. keeps_lift.
  eapply keepsInputs_bind;
    [by apply keepsInputs_putVariables, sameInputs_setVelocity
    | intros ? _].
  keeps_lift. keeps_lift.
  eapply keepsInputs_bind;
    [apply keepsInputs_foldM; intros; apply keepsInputs_intersectionBody
    | intros ? _].
  keeps_step keepsInputs_potentials.
  apply keepsInputs_conservationCheck.
Qed.

Lemma sameInputs_refl vars : sameInputs vars vars.
Proof. done. Qed.

(** X17.  The velocity reconstruction reads the pressures, the mobilities
    and the densities of the cells and never writes them: whether it
    returns or raises an exception, these five fields of the variables are
    in the end what they were at the start. *)
Theorem calculateVelocity_keeps_inputs props prob boundaryRegion s :
  match calculateVelocity props prob boundaryRegion s with
  | Done _ s' | Thrown _ s' => sameInputs (variables s) (variables s')
  | Undefined => True
  end.
Proof.
  pose proof (keepsInputs_foldM (variables s)
                (elementBody props prob boundaryRegion)
                (seq 0 (length (gridView prob)))
                (keepsInputs_elementBody (variables s) props prob
                   boundaryRegion) () s (sameInputs_refl _)) as H.
  unfold calculateVelocity.
  destruct (foldM _ _ _ s) as [a s'|e s'|]; [by destruct H | done | done].
Qed.

End Inputs.

Section LoopBodyExamples.
Import MPFAO MPFAOFacts SquareGrid SquareStates.

(** A cell crossed by the uniform velocity (1, 0): what enters through the
    left face leaves through the right one, and the check is silent. *)
Lemma conservative_cell_not_reported_witness :
  conservationCheck (properties yaspGrid 2) 0 0 1 squareLocals leakyState
  = Done () leakyState.
Proof.
  apply (conservative_cell_not_reported (properties yaspGrid 2) 0 0 1
           squareLocals leakyState (- (1)) 1 0 0);
    first [ apply Qc_is_canon; reflexivity
          | unfold faceFlux, normalVelocity; simpl; f_equal;
            apply Qc_is_canon; reflexivity ].
Defined.

(** The velocities of cell 0 of the four cells are reset. *)
Lemma zeroVelocity_resets_one_cell_witness :
  zeroVelocity 0 (velocity (variables movingState))
  = if decide (2 * dim ≤ length (replicate 4 [1; 0]%Qc))%nat
    then Some (<[0%nat :=
                   replicate (2 * dim) (FieldVector.const dim 0)
                   ++ drop (2 * dim) (replicate 4 [1; 0])]>
                 (velocity (variables movingState)))
    else None.
Proof.
  apply (zeroVelocity_resets_one_cell 0 (velocity (variables movingState))
           (replicate 4 [1; 0])).
  reflexivity.
Defined.

(** The potentials of the cell crossed by the uniform velocity (1, 0). *)
Lemma potentials_both_phases_witness :
  ∃ s', potentials 0 squareLocals leakyState = Done () s'
    ∧ velocity (variables s') = velocity (variables leakyState)
    ∧ cout s' = cout leakyState
    ∧ ∀ i, (i < length (replicate 4 [1; 0]%Qc))%nat →
        ∃ x, normalVelocity (variables leakyState) squareLocals 0 i = Some x
          ∧ potentialWetting (variables s') !! 0%nat ≫= (.!! i) = Some x
          ∧ potentialNonwetting (variables s') !! 0%nat ≫= (.!! i)
            = Some x.
Proof.
  apply (potentials_both_phases 0 squareLocals leakyState
           (replicate 4 [1; 0]) (replicate 4 0) (replicate 4 0));
    try reflexivity; try (simpl; lia).
  intros i Hi. simpl in Hi.
  do 4 (destruct i as [|i]; [by eexists|]). lia.
Defined.

Example leaky_potentials :
  match potentials 0 squareLocals leakyState with
  | Done _ s =>
      Some (fractions2 (potentialWetting (variables s)
                        ++ potentialNonwetting (variables s)))
  | _ => None
  end
  = Some [[-1; 1; 0; 0]; [-1; 1; 0; 0]]%Q.
Proof. vm_compute. reflexivity. Qed.

(** The interior region around the corner (1, 1), seen from cell 0. *)
Lemma interiorRegion_writes_two_faces_witness :
  ∃ r s' row',
    regionOf0 = Some r
    ∧ interiorRegion (problem square) 0
        (q 3) 1 (isotropic 1) (center (element square (0, 0)%Z))
        rightOf0 topOf0 (commonCorner rightOf0 topOf0)
        (element square (1, 0)%Z) (q 2) 1 (isotropic (q 2)) stillState
      = Done () s'
    ∧ cout s' = cout stillState
    ∧ (∀ globalIdx, globalIdx ≠ 0%nat →
         velocity (variables s') !! globalIdx
         = velocity (variables stillState) !! globalIdx)
    ∧ velocity (variables s') !! 0%nat = Some row'
    ∧ length row' = length (replicate 4 [0; 0]%Qc)
    ∧ ∀ face,
        face ≠ indexInInside rightOf0 → face ≠ indexInInside topOf0 →
        row' !! face = replicate 4 [0; 0] !! face.
Proof.
  destruct regionOf0 as [r|] eqn:Hr; [|by vm_compute in Hr].
  exists r.
  destruct (interiorRegion_writes_two_faces (problem square) 0%nat
              (q 3) 1 (isotropic 1) (center (element square (0, 0)%Z))
              rightOf0 topOf0 (commonCorner rightOf0 topOf0)
              (element square (1, 0)%Z) (q 2) 1 (isotropic (q 2))
              stillState r (replicate 4 [0; 0]))
    as (s' & row' & H); [exact Hr | reflexivity | simpl; lia | simpl; lia |].
  exists s', row'. split; [done | exact H].
Defined.

End LoopBodyExamples.

(** * The velocity reconstruction: the arrays of the conservation check *)

Section LocalArrays.
Import MPFAO MPFAOFacts.

Lemma bind_Done {A B : Type} (m : M A) (k : A → M B) s b s' :
  bind m k s = Done b s' → ∃ a s1, m s = Done a s1 ∧ k a s1 = Done b s'.
Proof.
  unfold bind. destruct (m s) as [a s1|e s1|]; [|done|done].
  intros E. by exists a, s1.
Qed.

Lemma lift_Done {A : Type} (o : option A) s a s' :
  lift o s = Done a s' → o = Some a ∧ s' = s.
Proof. unfold lift. destruct o; [|done]. by intros [= -> ->]. Qed.

Lemma foldM_Done {A L : Type} (P : L → Prop) (body : A → L → M L)
    (l : list A) locals s locals' s' :
  (∀ a locals s locals' s',
     a ∈ l → P locals → body a locals s = Done locals' s' → P locals') →
  P locals → foldM body l locals s = Done locals' s' → P locals'.
Proof.
  revert locals s. induction l as [|a l IH]; intros locals s Hbody HP E.
  - injection E as <- <-. done.
  - simpl in E. apply bind_Done in E as (locals1 & s1 & E1 & E).
    eapply IH; [|by eapply Hbody; [by left| |]|exact E].
    intros a' l0 s0 l0' s0' Ha'. apply Hbody. by right.
Qed.

(** What an intersection leaves in the local arrays: its own entry. *)
Lemma intersectionBody_locals props prob boundaryRegion cell1 e1 globalIdx1
    press1 lambda1 K1 pos locals s locals' s' :
  intersectionBody props prob boundaryRegion cell1 e1 globalIdx1
    press1 lambda1 K1 pos locals s = Done locals' s' →
  ∃ isIt, intersections e1 !! pos = Some isIt
    ∧ locals'
      = {| facevol := <[indexInInside isIt := Some (isVolume isIt)]>
                        (facevol locals);
           unitOuterNormal :=
             <[indexInInside isIt := Some (centerUnitOuterNormal isIt)]>
               (unitOuterNormal locals) |}.
Proof.
  unfold intersectionBody. intros E.
  apply bind_Done in E as (nextpos & s1 & _ & E).
  apply bind_Done in E as (isIt & s2 & [HisIt _]%lift_Done & E).
  apply bind_Done in E as (nextisIt & s3 & _ & E).
  apply bind_Done in E as (? & s4 & _ & E).
  apply bind_Done in E as (? & s5 & _ & E).
  injection E as <- _. by exists isIt.
Qed.

(** X18.  A cell none of whose intersections has the local index [i], one
    of the four the conservation check addresses (a triangle has no
    intersection 3), leaves [facevol[i]] and [unitOuterNormal[i]] as they
    were declared, without a value; for the total velocity formulation and
    a supported grid implementation the check then reads them
    uninitialised, so the loop body has no defined result. *)
Theorem missing_face_read_uninitialised
    props prob boundaryRegion cell1 e1 i s :
  VelocityFormulation props = vt props →
  (∀ id, GridImplementation props ≠ otherGrid id) →
  gridView prob !! cell1 = Some e1 →
  (i < 2 * dim)%nat →
  (∀ isIt, isIt ∈ intersections e1 → indexInInside isIt ≠ i) →
  elementBody props prob boundaryRegion cell1 () s = Undefined.
Proof.
  intros Hvt Himpl He1 Hi Hno.
  destruct (elementBody props prob boundaryRegion cell1 () s)
    as [u s'|e s'|] eqn:E; [exfalso| |done].
  2: { by destruct (noThrow_elementBody props prob boundaryRegion cell1 ()
                      Himpl s e s'). }
  unfold elementBody in E.
  apply bind_Done in E as (e1' & s1 & [He1' ->]%lift_Done & E).
  assert (e1' = e1) as -> by congruence.
  apply bind_Done in E as (vars & s2 & _ & E).
  do 5 (apply bind_Done in E as (? & ? & _ & E)).
  apply bind_Done in E as (vel & ? & _ & E).
  do 3 (apply bind_Done in E as (? & ? & _ & E)).
  apply bind_Done in E as (locals & s3 & Hloop & E).
  apply bind_Done in E as (? & s4 & _ & E).
  assert (Hlocals : unitOuterNormal locals !! i = Some None).
  { eapply (foldM_Done (λ l, unitOuterNormal l !! i = Some None));
      [| |exact Hloop].
    - intros pos l t l' t' _ Hl Ebody.
      apply intersectionBody_locals in Ebody as (isIt & HisIt & ->).
      simpl. rewrite list_lookup_insert_ne; [done|].
      apply Hno. by eapply list_elem_of_lookup_2.
    - cbn [unitOuterNormal]. by apply lookup_replicate_2. }
  unfold conservationCheck in E.
  rewrite decide_True in E by done.
  apply bind_Done in E as (vars4 & ? & _ & E).
  apply bind_Done in E as (f0 & ? & [H0 _]%lift_Done & E).
  apply bind_Done in E as (f1 & ? & [H1 _]%lift_Done & E).
  apply bind_Done in E as (f2 & ? & [H2 _]%lift_Done & E).
  apply bind_Done in E as (f3 & ? & [H3 _]%lift_Done & E).
  assert (Hnone : faceFlux vars4 locals (index prob cell1) i = None).
  { unfold faceFlux, normalVelocity. rewrite Hlocals. simpl.
    destruct (velocity vars4 !! index prob cell1) as [row|]; [|done].
    simpl. by destruct (row !! i). }
  simpl in Hi.
  destruct i as [|[|[|[|i]]]]; [congruence.. | lia].
Qed.

End LocalArrays.

Section LocalArraysExamples.
Import MPFAO MPFAOFacts SquareGrid.

(** The triangle: the intersections have the local indices 0, 1 and 2, and
    the check addresses the face 3. *)
Lemma missing_face_read_uninitialised_witness :
  elementBody (properties ugGrid 2) TriangleGrid.problem noBoundaryRegion
    0 () TriangleGrid.state
  = Undefined.
Proof.
  apply (missing_face_read_uninitialised (properties ugGrid 2)
           TriangleGrid.problem noBoundaryRegion 0 TriangleGrid.triangle 3
           TriangleGrid.state);
    [reflexivity | intros id; discriminate | reflexivity | simpl; lia |].
  intros isIt Hin. simpl in Hin.
  rewrite !elem_of_cons, elem_of_nil in Hin.
  destruct Hin as [-> | [-> | [-> | []]]]; simpl; lia.
Defined.

End LocalArraysExamples.

(** * The black-oil problem: the time integration *)

Section TimeIntegrationFacts.
Import BlackOilProblem.
Context `{Collaborators}.

Lemma toInt_nonpos (u : N) :
  (u = 0 ∨ 2 ^ 31 ≤ u < 2 ^ 32)%N → (toInt u ≤ 0)%Z.
Proof.
  intros Hu. unfold toInt.
  assert (0 ≤ Z.of_N u < 2 ^ 32)%Z as Hr by lia.
  rewrite Z.mod_small by done.
  destruct (Z.ltb_spec (Z.of_N u) (2 ^ 31)); lia.
Qed.

(** X19.  With [MaxTimeStepDivisions] equal to 0, or so large that the
    conversion of the [unsigned] parameter to [int] gives a negative number,
    the loop is not entered: [timeIntegration] raises the [runtime_error]
    without a single update of the model; the solver, the three timers and
    the output are untouched, and the one thing that may have changed is the
    time step, raised to the minimum by the first statement. *)
Theorem timeIntegration_without_attempt params p :
  (MaxTimeStepDivisions params = 0
   ∨ 2 ^ 31 ≤ MaxTimeStepDivisions params < 2 ^ 32)%N →
  let maxFails := toInt (MaxTimeStepDivisions params) in
  let p' := raiseTimeStep params p in
  timeIntegration params p
  = Thrown {| reportedFails := maxFails;
              reportedDt := timeStepSize (simulator p') |} p'
  ∧ (maxFails ≤ 0)%Z
  ∧ solver p' = solver p
  ∧ assembleTime_ p' = assembleTime_ p
  ∧ solveTime_ p' = solveTime_ p
  ∧ updateTime_ p' = updateTime_ p
  ∧ cout p' = cout p.
Proof.
  intros Hu maxFails p'.
  pose proof (toInt_nonpos _ Hu) as Hle. fold maxFails in Hle.
  split_and!; try done.
  - unfold timeIntegration. fold maxFails. fold p'.
    replace (Z.to_nat maxFails) with 0%nat by lia. done.
  - unfold p', raiseTimeStep. by repeat case_match.
  - unfold p', raiseTimeStep. by repeat case_match.
  - unfold p', raiseTimeStep. by repeat case_match.
  - unfold p', raiseTimeStep. by repeat case_match.
  - unfold p', raiseTimeStep. by repeat case_match.
Qed.

Lemma report_simulator dt nextDt p :
  simulator (report dt nextDt p) = simulator p.
Proof. unfold report. by case_decide. Qed.

Lemma report_rank dt nextDt p : rank (report dt nextDt p) = rank p.
Proof. unfold report. by case_decide. Qed.

Lemma report_cout dt nextDt p :
  length (cout (report dt nextDt p))
  = (length (cout p) + if decide (rank p = 0%nat) then 1 else 0)%nat.
Proof.
  unfold report. case_decide; simpl; [|lia].
  rewrite length_app. simpl. lia.
Qed.

Section Kept.
Context `{!TimeStepKept}.

Lemma attempts_min_step params maxFails n p :
  MinTimeStepSize params ≤ timeStepSize (simulator p) →
  match attempts params maxFails n p with
  | Returned p' | Thrown _ p' =>
      MinTimeStepSize params ≤ timeStepSize (simulator p')
  end.
Proof.
  revert p. induction n as [|n IH]; intros p Hp; simpl; [done|].
  pose proof (timeStepSize_update (simulator p) (solver p)) as Hkept.
  destruct (update (simulator p) (solver p)) as [[converged sim] sol].
  simpl in Hkept. destruct converged; simpl; [by rewrite Hkept|].
  destruct (Qclt_le_dec _ _) as [Hlt|Hle]; simpl; [by rewrite Hkept|].
  apply IH. rewrite report_simulator. simpl. by rewrite timeStepSize_set.
Qed.

(** X20.  The time integration never leaves a time step below the
    minimum behind: when the time step is at least [MinTimeStepSize] at the
    start, or is raised to it by the first statement, it is at least
    [MinTimeStepSize] when the function returns and also when it raises the
    exception, however many updates fail. *)
Theorem timeIntegration_min_step params p :
  MinTimeStepSize params ≤ timeStepSize (simulator p)
  ∨ (episodeWillBeOver (simulator p) = false
     ∧ willBeFinished (simulator p) = false) →
  match timeIntegration params p with
  | Returned p' | Thrown _ p' =>
      MinTimeStepSize params ≤ timeStepSize (simulator p')
  end.
Proof.
  intros Hp. unfold timeIntegration. apply attempts_min_step.
  unfold raiseTimeStep.
  destruct (Qclt_le_dec _ _) as [Hlt|Hle]; [|done].
  destruct Hp as [Hp|[-> ->]].
  - by apply Qclt_not_le in Hlt.
  - simpl. rewrite timeStepSize_set. apply Qcle_refl.
Qed.

Lemma halve_again (x : Qc) (k : nat) :
  x / Q2Qc 2 / Q2Qc 2 ^ k = x / Q2Qc 2 ^ S k.
Proof.
  unfold Qcdiv. simpl. rewrite Qcinv_mult_distr. ring.
Qed.

Lemma halve_never (x : Qc) : x / Q2Qc 2 ^ 0 = x.
Proof. simpl. unfold Qcdiv. replace (/ 1) with 1; [ring|]. done. Qed.

Lemma attempts_halves params maxFails n p :
  ∃ k, (k ≤ n)%nat ∧
    match attempts params maxFails n p with
    | Returned p' =>
        (k < n)%nat
        ∧ timeStepSize (simulator p')
          = timeStepSize (simulator p) / Q2Qc 2 ^ k
        ∧ rank p' = rank p
        ∧ length (cout p')
          = (length (cout p) + if decide (rank p = 0%nat) then k else 0)%nat
    | Thrown e p' =>
        timeStepSize (simulator p')
        = timeStepSize (simulator p) / Q2Qc 2 ^ k
        ∧ rank p' = rank p
        ∧ length (cout p')
          = (length (cout p) + if decide (rank p = 0%nat) then k else 0)%nat
        ∧ reportedDt e = timeStepSize (simulator p')
        ∧ reportedFails e = maxFails
        ∧ (k = n
           ∨ timeStepSize (simulator p') / Q2Qc 2 < MinTimeStepSize params)
    end.
Proof.
  revert p. induction n as [|n IH]; intros p; simpl.
  { exists 0%nat. rewrite halve_never. split_and!; try done.
    - case_decide; lia.
    - by left. }
  pose proof (timeStepSize_update (simulator p) (solver p)) as Hkept.
  destruct (update (simulator p) (solver p)) as [[converged sim] sol].
  simpl in Hkept. destruct converged; simpl.
  { exists 0%nat. rewrite halve_never. split_and!; try done; try lia.
    case_decide; lia. }
  destruct (Qclt_le_dec _ _) as [Hlt|Hle]; simpl.
  { exists 0%nat. rewrite halve_never. split_and!; try done; try lia.
    - case_decide; lia.
    - by right. }
  set (p2 := report _ _ _).
  destruct (IH p2) as (k & Hk & Hres). exists (S k). split; [lia|].
  assert (Hdt2 : timeStepSize (simulator p2)
                 = timeStepSize (simulator p) / Q2Qc 2).
  { unfold p2. rewrite report_simulator. simpl.
    by rewrite timeStepSize_set, Hkept. }
  assert (Hrank2 : rank p2 = rank p).
  { unfold p2. by rewrite report_rank. }
  assert (Hcout2 : length (cout p2)
                   = (length (cout p)
                      + if decide (rank p = 0%nat) then 1 else 0)%nat).
  { unfold p2. by rewrite report_cout. }
  destruct (attempts params maxFails n p2) as [p'|e p'].
  - destruct Hres as (Hlt & Hdt & Hrank & Hcout).
    split_and!; [lia | | congruence |].
    + by rewrite Hdt, Hdt2, halve_again.
    + rewrite Hcout, Hcout2, Hrank2. case_decide; lia.
  - destruct Hres as (Hdt & Hrank & Hcout & He & Hf & Hend).
    split_and!; [ | congruence | | done | done | ].
    + by rewrite Hdt, Hdt2, halve_again.
    + rewrite Hcout, Hcout2, Hrank2. case_decide; lia.
    + destruct Hend as [->|Hend]; [by left | by right].
Qed.

(** X21.  Every failed update that is followed by another iteration halves
    the time step and, on the process of rank 0, writes one line announcing
    the retry.  So after [k] such halvings the time step is the initial one
    (after the first statement) divided by [2 ^ k], with [k] lines written;
    the function returns only with [k] below the number of iterations, and
    it raises the exception either because the next halving would fall
    below [MinTimeStepSize] or with [k] equal to the number of iterations,
    in which case the last line announces a retry that never takes place
    and the exception reports the halved time step. *)
Theorem timeIntegration_halves params p :
  let n := Z.to_nat (toInt (MaxTimeStepDivisions params)) in
  let dt0 := timeStepSize (simulator (raiseTimeStep params p)) in
  let lines k := if decide (rank p = 0%nat) then k else 0%nat in
  ∃ k, (k ≤ n)%nat ∧
    match timeIntegration params p with
    | Returned p' =>
        (k < n)%nat
        ∧ timeStepSize (simulator p') = dt0 / Q2Qc 2 ^ k
        ∧ length (cout p') = (length (cout p) + lines k)%nat
    | Thrown e p' =>
        timeStepSize (simulator p') = dt0 / Q2Qc 2 ^ k
        ∧ length (cout p') = (length (cout p) + lines k)%nat
        ∧ reportedDt e = dt0 / Q2Qc 2 ^ k
        ∧ (k = n ∨ dt0 / Q2Qc 2 ^ k / Q2Qc 2 < MinTimeStepSize params)
    end.
Proof.
  intros n dt0 lines. unfold timeIntegration. fold n.
  assert (Hrank : rank (raiseTimeStep params p) = rank p).
  { unfold raiseTimeStep. by repeat case_match. }
  assert (Hcout : cout (raiseTimeStep params p) = cout p).
  { unfold raiseTimeStep. by repeat case_match. }
  destruct (attempts_halves params (toInt (MaxTimeStepDivisions params)) n
              (raiseTimeStep params p)) as (k & Hk & Hres).
  exists k. split; [done|]. fold dt0 in Hres.
  rewrite Hrank, Hcout in Hres. fold (lines k) in Hres.
  destruct (attempts _ _ n _) as [p'|e p'].
  - by destruct Hres as (? & ? & _ & ?).
  - destruct Hres as (Hdt & _ & Hc & He & _ & Hend).
    split_and!; [done | done | congruence |].
    destruct Hend as [->|Hend]; [by left | right; by rewrite <- Hdt].
Qed.

End Kept.

End TimeIntegrationFacts.

Section TimeIntegrationExamples.
Import BlackOilProblem CountingSolver.

Lemma counting_kept : TimeStepKept.
Proof. by split. Qed.

(** Time step 4, a solver that converges below 1: three updates fail, with
    4, 2 and 1, and the fourth converges with 1/2. *)
Example counting_timeIntegration :
  match timeIntegration (params 5) start with
  | Returned p =>
      Some (this (simulator p), solver p,
            fractions [assembleTime_ p; solveTime_ p; updateTime_ p],
            (λ m, fractions [failedDt m; retryDt m]) <$> cout p)
  | Thrown _ _ => None
  end
  = Some ((1 # 2)%Q, 4%nat, [4; 8; 12]%Q,
          [[4; 2]; [2; 1]; [1; 1 # 2]]%Q).
Proof. vm_compute. reflexivity. Qed.

(** With two iterations both updates fail, the second line announces a
    retry with the time step 1, and the exception reports that time step. *)
Example counting_exhausted :
  match timeIntegration (params 2) start with
  | Returned _ => None
  | Thrown e p =>
      Some (reportedFails e, this (reportedDt e), solver p,
            (λ m, fractions [failedDt m; retryDt m]) <$> cout p)
  end
  = Some (2%Z, 1%Q, 2%nat, [[4; 2]; [2; 1]]%Q).
Proof. vm_compute. reflexivity. Qed.

(** [MaxTimeStepDivisions] = 2^31: the [int] is negative and no update is
    attempted. *)
Lemma timeIntegration_without_attempt_witness :
  let maxFails := toInt (MaxTimeStepDivisions (params (2 ^ 31))) in
  let p' := raiseTimeStep (params (2 ^ 31)) start in
  timeIntegration (params (2 ^ 31)) start
  = Thrown {| reportedFails := maxFails;
              reportedDt := timeStepSize (simulator p') |} p'
  ∧ (maxFails ≤ 0)%Z
  ∧ solver p' = solver start
  ∧ assembleTime_ p' = assembleTime_ start
  ∧ solveTime_ p' = solveTime_ start
  ∧ updateTime_ p' = updateTime_ start
  ∧ cout p' = cout start.
Proof.
  apply (timeIntegration_without_attempt (params (2 ^ 31)) start).
  right. simpl. lia.
Defined.

Lemma timeIntegration_min_step_witness :
  match timeIntegration (params 5) start with
  | Returned p' | Thrown _ p' =>
      MinTimeStepSize (params 5) ≤ timeStepSize (simulator p')
  end.
Proof.
  apply (@timeIntegration_min_step counting counting_kept (params 5) start).
  left. by vm_compute.
Defined.

Lemma timeIntegration_halves_witness :
  let n := Z.to_nat (toInt (MaxTimeStepDivisions (params 5))) in
  let dt0 := timeStepSize (simulator (raiseTimeStep (params 5) start)) in
  let lines k := if decide (rank start = 0%nat) then k else 0%nat in
  ∃ k, (k ≤ n)%nat ∧
    match timeIntegration (params 5) start with
    | Returned p' =>
        (k < n)%nat
        ∧ timeStepSize (simulator p') = dt0 / Q2Qc 2 ^ k
        ∧ length (cout p') = (length (cout start) + lines k)%nat
    | Thrown e p' =>
        timeStepSize (simulator p') = dt0 / Q2Qc 2 ^ k
        ∧ length (cout p') = (length (cout start) + lines k)%nat
        ∧ reportedDt e = dt0 / Q2Qc 2 ^ k
        ∧ (k = n
           ∨ dt0 / Q2Qc 2 ^ k / Q2Qc 2 < MinTimeStepSize (params 5))
    end.
Proof.
  exact (@timeIntegration_halves counting counting_kept (params 5) start).
Defined.

End TimeIntegrationExamples.

(** * The assembler: rescaling of the linear system *)

Section EntryLoops.
Context {A B : Type}.

(** A loop that reads and writes the entries [0 .. n - 1] of row [r], one
    after the other. *)
Lemma for_range_row (n r : nat) (pre : nat → option B) (g : nat → B → A → A)
    (v : list (list A)) (row : list A) :
  v !! r = Some row → (n ≤ length row)%nat →
  (∀ i, (i < n)%nat → is_Some (pre i)) →
  ∃ row',
    for_range n (λ i v,
      y ← pre i; row ← v !! r; x ← row !! i;
      Some (<[r := <[i := g i y x]> row]> v)) v
    = Some (<[r := row']> v)
    ∧ length row' = length row
    ∧ ∀ i, row' !! i
           = if decide (i < n)%nat
             then x ← row !! i; y ← pre i; Some (g i y x)
             else row !! i.
Proof.
  intros Hrow Hn Hpre.
  assert (Hr : (r < length v)%nat) by (by eapply lookup_lt_Some).
  pose (Q := λ (k : nat) (v' : list (list A)),
    ∃ row', v' = <[r := row']> v
      ∧ length row' = length row
      ∧ ∀ i, row' !! i
             = if decide (i < k)%nat
               then x ← row !! i; y ← pre i; Some (g i y x)
               else row !! i).
  destruct (for_range_steps Q n (λ i v,
      y ← pre i; row ← v !! r; x ← row !! i;
      Some (<[r := <[i := g i y x]> row]> v)) v)
    as (v' & E & row' & -> & Hlen & Hrow').
  - intros k v' Hk (row' & -> & Hlen & Hrow').
    destruct (Hpre k Hk) as [y Hy]. rewrite Hy. simpl.
    rewrite list_lookup_insert_eq by done. simpl.
    destruct (lookup_lt_is_Some_2 row k) as [x Hx]; [lia|].
    assert (Hx' : row' !! k = Some x).
    { rewrite Hrow'. by rewrite decide_False by lia. }
    rewrite Hx'. simpl. eexists. split; [done|].
    exists (<[k := g k y x]> row'). split_and!.
    + by rewrite list_insert_insert_eq.
    + by rewrite length_insert.
    + intros i. destruct (decide (i = k)) as [->|Hne].
      * rewrite list_lookup_insert_eq by lia.
        rewrite decide_True by lia. by rewrite Hx, Hy.
      * rewrite list_lookup_insert_ne by done. rewrite Hrow'.
        repeat case_decide; (done || lia).
  - exists row. split_and!; [by rewrite list_insert_id | done |].
    intros i. by rewrite decide_False by lia.
  - by exists row'.
Qed.

End EntryLoops.

(** Two loops whose bodies agree on the states that the loop reaches. *)
Lemma for_range_ext_inv {S : Type} (P : S → Prop) (n : nat)
    (body body' : nat → S → option S) (s : S) :
  (∀ k s, (k < n)%nat → P s → body k s = body' k s) →
  (∀ k s s', (k < n)%nat → P s → body' k s = Some s' → P s') →
  P s → for_range n body s = for_range n body' s.
Proof.
  intros Hext Hinv Hs. induction n as [|n IH]; [done|].
  rewrite !for_range_S. rewrite IH; [| intros; apply Hext; (lia || done)
                                     | intros ????; apply Hinv; lia ].
  destruct (for_range n body' s) as [s1|] eqn:E; [|done]. simpl.
  apply Hext; [lia|].
  eapply (for_range_invariant P); [|exact Hs|exact E].
  intros k t t' Hk. apply Hinv. lia.
Qed.

(** A loop that accumulates over the entries of a list. *)
Lemma for_range_foldl {A S : Type} (f : S → A → S) (l : list A) (s : S) :
  for_range (length l) (λ j s, x ← l !! j; Some (f s x)) s
  = Some (foldl f s l).
Proof.
  induction l as [|x l IH] using rev_ind; [done|].
  rewrite length_app. simpl. rewrite Nat.add_1_r, for_range_S.
  rewrite (for_range_ext_inv (λ _, True) _ _
             (λ j s, x ← l !! j; Some (f s x))); [| |done|done].
  - rewrite IH. simpl. rewrite list_lookup_middle by done. simpl.
    by rewrite foldl_app.
  - intros k t Hk _. by rewrite lookup_app_l.
Qed.

Section Rescale.
Import AssemblerPDELab.
Variables rowsInBlock colsInBlock : nat.

Lemma Qcinv_pos (x : Qc) : 0 < x → 0 < / x.
Proof.
  unfold Qclt. intros Hx.
  change (0 < Qred (/ this x))%Q. rewrite Qred_correct.
  by apply Qinv_lt_0_compat.
Qed.

Lemma threshold_pos : 0 < threshold.
Proof. done. Qed.

Lemma threshold_le_1 : threshold ≤ 1.
Proof. by vm_compute. Qed.

Lemma max_scale (a b c : Qc) : 0 < c → max (a * c) (b * c) = max a b * c.
Proof.
  intros Hc. unfold max.
  destruct (Qclt_le_dec a b) as [Hlt|Hle],
    (Qclt_le_dec (a * c) (b * c)) as [Hlt'|Hle']; try done.
  - apply (Qcmult_lt_compat_r _ _ c Hc) in Hlt.
    by apply Qclt_not_le in Hlt.
  - apply (Qcmult_le_compat_r _ _ c) in Hle; [|by apply Qclt_le_weak].
    by apply Qcle_not_lt in Hle.
Qed.

Lemma max_ge_l (a b : Qc) : a ≤ max a b.
Proof.
  unfold max. destruct (Qclt_le_dec a b) as [Hlt|Hle].
  - by apply Qclt_le_weak.
  - apply Qcle_refl.
Qed.

Lemma foldl_max_nonneg (d0 : Qc) (row : list Qc) :
  0 ≤ d0 → 0 ≤ foldl (λ d x, max d (Qcabs x)) d0 row.
Proof.
  revert d0. induction row as [|x row IH]; intros d0 Hd0; simpl; [done|].
  apply IH. eapply Qcle_trans; [exact Hd0 | apply max_ge_l].
Qed.

Lemma foldl_max_scale (c d0 : Qc) (row : list Qc) :
  0 < c →
  foldl (λ d x, max d (Qcabs x)) (d0 * c) ((λ x, x * c) <$> row)
  = foldl (λ d x, max d (Qcabs x)) d0 row * c.
Proof.
  intros Hc. revert d0. induction row as [|x row IH]; intros d0; simpl;
    [done|].
  rewrite Qcabs_Qcmult, (Qcabs_pos c) by (by apply Qclt_le_weak).
  by rewrite max_scale, IH.
Qed.

(** The largest absolute value of a row of a block. *)
Lemma rowMax_foldl (b : list (list Qc)) i row :
  b !! i = Some row → length row = colsInBlock →
  rowMax colsInBlock b i = Some (foldl (λ d x, max d (Qcabs x)) 0 row).
Proof.
  intros Hrow Hlen. unfold rowMax. rewrite <- Hlen.
  rewrite (for_range_ext_inv (λ _, True) _ _
             (λ j d, x ← row !! j; Some (max d (Qcabs x))));
    [apply for_range_foldl | | done | done].
  intros k d _ _. by rewrite Hrow.
Qed.

Lemma shapedBlock_lookup (b : list (list Qc)) i :
  shapedBlock rowsInBlock colsInBlock b → (i < rowsInBlock)%nat →
  ∃ row, b !! i = Some row ∧ length row = colsInBlock.
Proof.
  intros [Hlen Hrows] Hi.
  destruct (lookup_lt_is_Some_2 b i) as [row Hrow]; [lia|].
  exists row. split; [done|]. by eapply Forall_lookup_1 in Hrows.
Qed.

(** The scaling factor of a row: the largest absolute value of the row of
    the diagonal block, or 1 when that is below the threshold; in either
    case at least the threshold. *)
Lemma diagonalEntry_spec (b : list (list Qc)) i :
  shapedBlock rowsInBlock colsInBlock b → (i < rowsInBlock)%nat →
  ∃ m, rowMax colsInBlock b i = Some m
    ∧ 0 ≤ m
    ∧ diagonalEntry colsInBlock b i
      = Some (if Qclt_le_dec m threshold then 1 else m)
    ∧ threshold ≤ (if Qclt_le_dec m threshold then 1 else m).
Proof.
  intros Hb Hi. destruct (shapedBlock_lookup b i Hb Hi) as (row & Hrow & Hlen).
  eexists. split; [by apply rowMax_foldl|]. split_and!.
  - by apply foldl_max_nonneg.
  - unfold diagonalEntry. by rewrite (rowMax_foldl b i row).
  - destruct (Qclt_le_dec _ _); [apply threshold_le_1 | done].
Qed.

Lemma block_shaped (iBlock : list (nat * list (list Qc))) j b :
  Forall (λ jBlock, shapedBlock rowsInBlock colsInBlock jBlock.2) iBlock →
  block iBlock j = Some b → shapedBlock rowsInBlock colsInBlock b.
Proof.
  intros Hshaped Hb. unfold block in Hb.
  destruct (list_find _ iBlock) as [[k [c b']]|] eqn:E; [|done].
  simpl in Hb. injection Hb as ->.
  apply list_find_Some in E as (Hk & _ & _).
  eapply Forall_lookup_1 in Hshaped; [|exact Hk]. exact Hshaped.
Qed.

Lemma wellShaped_diagonal matrix_ f r iBlock :
  wellShaped rowsInBlock colsInBlock matrix_ f →
  matrix_ !! r = Some iBlock →
  ∃ diagBlock, block iBlock r = Some diagBlock
    ∧ shapedBlock rowsInBlock colsInBlock diagBlock.
Proof.
  intros (_ & _ & Hblocks & Hdiag) Hrow.
  destruct (Hdiag r iBlock Hrow) as [diagBlock Hb].
  exists diagBlock. split; [done|].
  eapply block_shaped; [|exact Hb].
  by eapply Forall_lookup_1 in Hblocks.
Qed.

(** The first loop: the scaling factor of every row of every block row. *)
Lemma computeDiagonalEntries_spec matrix_ f :
  wellShaped rowsInBlock colsInBlock matrix_ f →
  ∃ de, computeDiagonalEntries rowsInBlock colsInBlock matrix_ f = Some de
    ∧ length de = length matrix_
    ∧ Forall (λ row, length row = rowsInBlock) de
    ∧ ∀ r i, (r < length matrix_)%nat → (i < rowsInBlock)%nat →
        ∃ iBlock diagBlock,
          matrix_ !! r = Some iBlock
          ∧ block iBlock r = Some diagBlock
          ∧ entry de r i = diagonalEntry colsInBlock diagBlock i.
Proof.
  intros Hwf. pose proof Hwf as (Hlenf & Hf & _ & _).
  pose (Q := λ (k : nat) (de : list (list Qc)),
    length de = length matrix_
    ∧ Forall (λ row, length row = rowsInBlock) de
    ∧ ∀ r i, (r < k)%nat → (i < rowsInBlock)%nat →
        ∃ iBlock diagBlock,
          matrix_ !! r = Some iBlock
          ∧ block iBlock r = Some diagBlock
          ∧ entry de r i = diagonalEntry colsInBlock diagBlock i).
  destruct (for_range_steps Q (length matrix_) (λ r diagonalEntries,
      iBlock ← matrix_ !! r;
      diagBlock ← block iBlock r;
      for_range rowsInBlock (λ i diagonalEntries,
        d ← diagonalEntry colsInBlock diagBlock i;
        row ← diagonalEntries !! r;
        _ ← row !! i;
        Some (<[r := <[i := d]> row]> diagonalEntries)) diagonalEntries) f)
    as (de & E & Hlen & Hde & Hentries).
  - intros k de Hk (Hlen & Hde & Hentries).
    destruct (lookup_lt_is_Some_2 matrix_ k Hk) as [iBlock HiBlock].
    destruct (wellShaped_diagonal matrix_ f k iBlock Hwf HiBlock)
      as (diagBlock & Hdiag & Hshaped).
    rewrite HiBlock. simpl. rewrite Hdiag. simpl.
    destruct (lookup_lt_is_Some_2 de k) as [row Hrow]; [lia|].
    assert (Hlrow : length row = rowsInBlock)
      by (by eapply Forall_lookup_1 in Hde).
    destruct (for_range_row rowsInBlock k
                (diagonalEntry colsInBlock diagBlock) (λ _ d _, d) de row)
      as (row' & E & Hlen' & Hrow'); [done | lia | |].
    { intros i Hi.
      destruct (diagonalEntry_spec diagBlock i Hshaped Hi)
        as (m & _ & _ & -> & _). done. }
    exists (<[k := row']> de). split; [exact E|].
    split_and!.
    + by rewrite length_insert.
    + apply Forall_insert; [done | congruence].
    + intros r i Hr Hi. destruct (decide (r = k)) as [->|Hne].
      * exists iBlock, diagBlock. split_and!; [done | done |].
        unfold entry. rewrite list_lookup_insert_eq by lia. simpl.
        rewrite Hrow', decide_True by done.
        destruct (lookup_lt_is_Some_2 row i) as [x ->]; [lia|]. simpl.
        by destruct (diagonalEntry colsInBlock diagBlock i).
      * destruct (Hentries r i) as (iBlock' & diagBlock' & ? & ? & He);
          [lia | done |].
        exists iBlock', diagBlock'. split_and!; [done | done |].
        unfold entry in *. by rewrite list_lookup_insert_ne.
  - split_and!; [done | done |]. intros r i Hr. lia.
  - exists de. split_and!; try done.
Qed.

(** The division of a block by the scaling factors of its block row. *)
Lemma divideBlock_spec (de : list (list Qc)) r (b : list (list Qc)) :
  shapedBlock rowsInBlock colsInBlock b →
  (∀ i, (i < rowsInBlock)%nat → is_Some (entry de r i)) →
  ∃ b', divideBlock rowsInBlock colsInBlock de r b = Some b'
    ∧ shapedBlock rowsInBlock colsInBlock b'
    ∧ ∀ i j, entry b' i j
             = if decide (i < rowsInBlock)%nat
               then x ← entry b i j; d ← entry de r i; Some (x / d)
               else entry b i j.
Proof.
  intros Hb Hde.
  pose (Q := λ (k : nat) (b' : list (list Qc)),
    shapedBlock rowsInBlock colsInBlock b'
    ∧ ∀ i j, entry b' i j
             = if decide (i < k)%nat
               then x ← entry b i j; d ← entry de r i; Some (x / d)
               else entry b i j).
  destruct (for_range_steps Q rowsInBlock (λ i jBlock,
      for_range colsInBlock (λ j jBlock,
        d ← entry de r i;
        row ← jBlock !! i;
        x ← row !! j;
        Some (<[i := <[j := x / d]> row]> jBlock)) jBlock) b)
    as (b' & E & Hb' & Hentries).
  - intros k b' Hk (Hb' & Hentries).
    destruct (shapedBlock_lookup b' k Hb' Hk) as (row & Hrow & Hlen).
    destruct (for_range_row colsInBlock k (λ _, entry de r k)
                (λ _ d x, x / d) b' row)
      as (row' & E & Hlen' & Hrow'); [done | lia | |].
    { intros _ _. by apply Hde. }
    exists (<[k := row']> b'). split; [exact E|]. split.
    + destruct Hb' as [Hl Hrows]. split; [by rewrite length_insert|].
      apply Forall_insert; [done | congruence].
    + intros i j. unfold entry at 1.
      destruct (decide (i = k)) as [->|Hne].
      * rewrite list_lookup_insert_eq by (destruct Hb'; lia). simpl.
        rewrite decide_True by lia. rewrite Hrow'.
        assert (Hkj : row !! j = entry b k j).
        { rewrite <- (decide_False (P := (k < k)%nat)
                       (x ← entry b k j; d ← entry de r k; Some (x / d))
                       (entry b k j)) by lia.
          rewrite <- Hentries. unfold entry. by rewrite Hrow. }
        rewrite Hkj. case_decide as Hj; [done|].
        destruct (entry b k j) eqn:Hx; [|done].
        apply lookup_lt_Some in Hkj. lia.
      * rewrite list_lookup_insert_ne by done.
        fold (entry b' i j). rewrite Hentries.
        repeat case_decide; (done || lia).
  - split; [done|]. intros i j. by rewrite decide_False by lia.
  - by exists b'.
Qed.

(** The body of the second loop. *)
Lemma divideRow_spec (de : list (list Qc)) r
    (matrix_ : list (list (nat * list (list Qc)))) (f : list (list Qc))
    iBlock fr :
  matrix_ !! r = Some iBlock →
  Forall (λ jBlock, shapedBlock rowsInBlock colsInBlock jBlock.2) iBlock →
  f !! r = Some fr → length fr = rowsInBlock →
  (∀ i, (i < rowsInBlock)%nat → is_Some (entry de r i)) →
  ∃ iBlock' fr',
    divideRow rowsInBlock colsInBlock de r (matrix_, f)
    = Some (<[r := iBlock']> matrix_, <[r := fr']> f)
    ∧ rowDivided rowsInBlock colsInBlock (entry de r) iBlock iBlock' fr fr'.
Proof.
  intros HiBlock Hshaped Hfr Hlen Hde. unfold divideRow. simpl.
  destruct (for_range_row rowsInBlock r (λ i, entry de r i)
              (λ _ d x, x / d) f fr)
    as (fr' & E & Hlen' & Hfr'); [done | lia | done |].
  rewrite E. simpl. rewrite HiBlock. simpl.
  destruct (mapM_is_Some_2
              (λ jBlock : nat * list (list Qc),
                 b ← divideBlock rowsInBlock colsInBlock de r jBlock.2;
                 Some (jBlock.1, b)) iBlock) as [iBlock' HiBlock'].
  { eapply Forall_impl; [exact Hshaped|]. intros [c b] Hb. simpl in *.
    destruct (divideBlock_spec de r b Hb Hde) as (b' & -> & _). done. }
  rewrite HiBlock'. simpl. exists iBlock', fr'. split; [done|].
  split_and!.
  - congruence.
  - intros i Hi. by rewrite Hfr', decide_True.
  - apply mapM_Some_1 in HiBlock'.
    apply Forall2_same_length_lookup.
    split; [by eapply Forall2_length|].
    intros k [c b] [c' b'] Hk Hk'.
    pose proof (Forall2_lookup_lr _ _ _ _ _ _ HiBlock' Hk Hk') as Hdiv.
    simpl in Hdiv.
    assert (Hb : shapedBlock rowsInBlock colsInBlock b).
    { eapply Forall_lookup_1 in Hshaped; [|exact Hk]. exact Hshaped. }
    destruct (divideBlock_spec de r b Hb Hde) as (b2 & E2 & Hb2 & Hentries).
    rewrite E2 in Hdiv. simpl in Hdiv. injection Hdiv as <- <-.
    simpl. split; [done|]. split; [done|].
    intros i j Hi. by rewrite Hentries, decide_True.
Qed.

(** The second loop. *)
Lemma divideRows_spec (de : list (list Qc))
    (matrix_ : list (list (nat * list (list Qc)))) (f : list (list Qc)) :
  wellShaped rowsInBlock colsInBlock matrix_ f →
  (∀ r i, (r < length matrix_)%nat → (i < rowsInBlock)%nat →
          is_Some (entry de r i)) →
  ∃ matrix' f',
    for_range (length matrix_) (divideRow rowsInBlock colsInBlock de)
      (matrix_, f) = Some (matrix', f')
    ∧ length matrix' = length matrix_
    ∧ length f' = length f
    ∧ ∀ r, (r < length matrix_)%nat →
        ∃ iBlock iBlock' fr fr',
          matrix_ !! r = Some iBlock ∧ matrix' !! r = Some iBlock'
          ∧ f !! r = Some fr ∧ f' !! r = Some fr'
          ∧ rowDivided rowsInBlock colsInBlock (entry de r)
              iBlock iBlock' fr fr'.
Proof.
  intros (Hlenf & Hf & Hblocks & _) Hde.
  pose (Q := λ (k : nat)
      (system : list (list (nat * list (list Qc))) * list (list Qc)),
    length system.1 = length matrix_
    ∧ length system.2 = length f
    ∧ (∀ r, (k ≤ r)%nat →
         system.1 !! r = matrix_ !! r ∧ system.2 !! r = f !! r)
    ∧ ∀ r, (r < k)%nat →
        ∃ iBlock iBlock' fr fr',
          matrix_ !! r = Some iBlock ∧ system.1 !! r = Some iBlock'
          ∧ f !! r = Some fr ∧ system.2 !! r = Some fr'
          ∧ rowDivided rowsInBlock colsInBlock (entry de r)
              iBlock iBlock' fr fr').
  destruct (for_range_steps Q (length matrix_)
              (divideRow rowsInBlock colsInBlock de) (matrix_, f))
    as ([matrix' f'] & E & Hlen & Hlen' & _ & Hrows).
  - intros k [matrix1 f1] Hk (Hlen1 & Hlen1' & Hrest & Hdone). simpl in *.
    destruct (lookup_lt_is_Some_2 matrix_ k Hk) as [iBlock HiBlock].
    destruct (lookup_lt_is_Some_2 f k) as [fr Hfr]; [lia|].
    destruct (Hrest k) as [Hm1 Hf1]; [lia|].
    destruct (divideRow_spec de k matrix1 f1 iBlock fr)
      as (iBlock' & fr' & E & Hdiv).
    { by rewrite Hm1. }
    { by eapply Forall_lookup_1 in Hblocks. }
    { by rewrite Hf1. }
    { by eapply Forall_lookup_1 in Hf. }
    { intros i Hi. by apply Hde. }
    eexists. split; [exact E|]. split_and!.
    + simpl. by rewrite length_insert.
    + simpl. by rewrite length_insert.
    + intros r Hr. simpl. rewrite !list_lookup_insert_ne by lia.
      apply Hrest. lia.
    + intros r Hr. simpl. destruct (decide (r = k)) as [->|Hne].
      * exists iBlock, iBlock', fr, fr'.
        rewrite !list_lookup_insert_eq by lia. done.
      * destruct (Hdone r) as (iB & iB' & fr0 & fr0' & ? & ? & ? & ? & ?);
          [lia|].
        exists iB, iB', fr0, fr0'.
        rewrite !list_lookup_insert_ne by done. done.
  - split_and!; [done | done | done |]. intros r Hr. lia.
  - exists matrix', f'. split_and!; try done.
Qed.

(** The rescaling on one process, as a whole. *)
Lemma rescale_spec commSize communicate
    (matrix_ : list (list (nat * list (list Qc)))) (f : list (list Qc)) :
  (commSize ≤ 1)%nat →
  wellShaped rowsInBlock colsInBlock matrix_ f →
  ∃ de matrix' f',
    computeDiagonalEntries rowsInBlock colsInBlock matrix_ f = Some de
    ∧ rescale rowsInBlock colsInBlock commSize communicate matrix_ f
      = Some (matrix', f')
    ∧ length matrix' = length matrix_
    ∧ length f' = length f
    ∧ ∀ r, (r < length matrix_)%nat →
        ∃ iBlock diagBlock iBlock' fr fr',
          matrix_ !! r = Some iBlock
          ∧ block iBlock r = Some diagBlock
          ∧ shapedBlock rowsInBlock colsInBlock diagBlock
          ∧ matrix' !! r = Some iBlock'
          ∧ f !! r = Some fr ∧ f' !! r = Some fr'
          ∧ (∀ i, (i < rowsInBlock)%nat →
               entry de r i = diagonalEntry colsInBlock diagBlock i)
          ∧ rowDivided rowsInBlock colsInBlock (entry de r)
              iBlock iBlock' fr fr'.
Proof.
  intros Hcomm Hwf.
  destruct (computeDiagonalEntries_spec matrix_ f Hwf)
    as (de & Ede & _ & _ & Hde).
  assert (Hsome : ∀ r i, (r < length matrix_)%nat → (i < rowsInBlock)%nat →
                         is_Some (entry de r i)).
  { intros r i Hr Hi.
    destruct (Hde r i Hr Hi) as (iBlock & diagBlock & HiBlock & Hdiag & ->).
    destruct (wellShaped_diagonal matrix_ f r iBlock Hwf HiBlock)
      as (diagBlock' & Hdiag' & Hshaped).
    assert (diagBlock' = diagBlock) as -> by congruence.
    destruct (diagonalEntry_spec diagBlock i Hshaped Hi)
      as (m & _ & _ & -> & _). done. }
  destruct (divideRows_spec de matrix_ f Hwf Hsome)
    as (matrix' & f' & E & Hlen & Hlen' & Hrows).
  exists de, matrix', f'. split; [done|]. split.
  { unfold rescale. rewrite Ede. simpl.
    rewrite decide_False by lia. exact E. }
  split_and!; [done | done |].
  intros r Hr.
  destruct (Hrows r Hr) as (iBlock & iBlock' & fr & fr' & HiBlock & HiBlock'
                            & Hfr & Hfr' & Hdiv).
  destruct (wellShaped_diagonal matrix_ f r iBlock Hwf HiBlock)
    as (diagBlock & Hdiag & Hshaped).
  exists iBlock, diagBlock, iBlock', fr, fr'. split_and!; try done.
  intros i Hi.
  destruct (Hde r i Hr Hi) as (iBlock0 & diagBlock0 & ? & ? & ->).
  congruence.
Qed.

(** The blocks of a divided block row are found in the columns of the
    blocks they come from. *)
Lemma block_divided (d : nat → option Qc)
    (iBlock iBlock' : list (nat * list (list Qc))) j b :
  Forall2 (λ jBlock jBlock',
     jBlock'.1 = jBlock.1
     ∧ blockDivided rowsInBlock colsInBlock d jBlock.2 jBlock'.2)
    iBlock iBlock' →
  block iBlock j = Some b →
  ∃ b', block iBlock' j = Some b'
    ∧ blockDivided rowsInBlock colsInBlock d b b'.
Proof.
  unfold block. induction 1 as [|[c b0] [c' b0'] l l' [Hc Hdiv] _ IH];
    [done|].
  simpl in *. subst c'. intros Hb.
  destruct (decide (c = j)) as [->|Hne]; simpl in *.
  - injection Hb as <-. by exists b0'.
  - destruct (list_find _ l) as [[k [c1 b1]]|]; [|done].
    simpl in Hb. injection Hb as ->.
    destruct IH as (b' & Hb' & Hdiv'); [done|].
    destruct (list_find _ l') as [[k' [c1' b1']]|]; [|done].
    simpl in *. injection Hb' as ->. by exists b'.
Qed.

(** X22.  On one process, the rescaling at the end of [assemble] divides
    every scalar row of the linear system by one number: entry [i] of the
    right-hand side of block row [r] and row [i] of every block of that
    block row, the diagonal block included, are divided by the same factor,
    the blocks stay in their columns, and the factor is never below 1e-14,
    so that no division is by zero. *)
Theorem rescale_divides_rows commSize communicate
    (matrix_ : list (list (nat * list (list Qc)))) (f : list (list Qc)) :
  (commSize ≤ 1)%nat →
  wellShaped rowsInBlock colsInBlock matrix_ f →
  ∃ matrix' f',
    rescale rowsInBlock colsInBlock commSize communicate matrix_ f
    = Some (matrix', f')
    ∧ length matrix' = length matrix_
    ∧ length f' = length f
    ∧ ∀ r, (r < length matrix_)%nat →
        ∃ d iBlock iBlock' fr fr',
          matrix_ !! r = Some iBlock ∧ matrix' !! r = Some iBlock'
          ∧ f !! r = Some fr ∧ f' !! r = Some fr'
          ∧ (∀ i, (i < rowsInBlock)%nat →
               ∃ x, d i = Some x ∧ threshold ≤ x)
          ∧ rowDivided rowsInBlock colsInBlock d iBlock iBlock' fr fr'.
Proof.
  intros Hcomm Hwf.
  destruct (rescale_spec commSize communicate matrix_ f Hcomm Hwf)
    as (de & matrix' & f' & _ & E & Hlen & Hlen' & Hrows).
  exists matrix', f'. split_and!; [done | done | done |].
  intros r Hr.
  destruct (Hrows r Hr) as (iBlock & diagBlock & iBlock' & fr & fr' & HiBlock
                            & Hdiag & Hshaped & HiBlock' & Hfr & Hfr'
                            & Hde & Hdiv).
  exists (entry de r), iBlock, iBlock', fr, fr'.
  split_and!; try done.
  intros i Hi. rewrite (Hde i Hi).
  destruct (diagonalEntry_spec diagBlock i Hshaped Hi)
    as (m & _ & _ & -> & Hge).
  by eexists.
Qed.

(** X23.  On one process, after the rescaling the largest absolute value in
    every row of every diagonal block is 1, unless it was below 1e-14
    before: such a row is divided by 1 and keeps its largest absolute
    value. *)
Theorem rescale_normalises_diagonal commSize communicate
    (matrix_ : list (list (nat * list (list Qc)))) (f : list (list Qc)) r i :
  (commSize ≤ 1)%nat →
  wellShaped rowsInBlock colsInBlock matrix_ f →
  (r < length matrix_)%nat → (i < rowsInBlock)%nat →
  ∃ matrix' f' iBlock diagBlock iBlock' diagBlock' m,
    rescale rowsInBlock colsInBlock commSize communicate matrix_ f
    = Some (matrix', f')
    ∧ matrix_ !! r = Some iBlock ∧ block iBlock r = Some diagBlock
    ∧ matrix' !! r = Some iBlock' ∧ block iBlock' r = Some diagBlock'
    ∧ rowMax colsInBlock diagBlock i = Some m
    ∧ rowMax colsInBlock diagBlock' i
      = Some (if Qclt_le_dec m threshold then m else 1).
Proof.
  intros Hcomm Hwf Hr Hi.
  destruct (rescale_spec commSize communicate matrix_ f Hcomm Hwf)
    as (de & matrix' & f' & _ & E & _ & _ & Hrows).
  destruct (Hrows r Hr) as (iBlock & diagBlock & iBlock' & fr & fr' & HiBlock
                            & Hdiag & Hshaped & HiBlock' & _ & _
                            & Hde & _ & _ & Hdiv).
  destruct (block_divided _ _ _ r diagBlock Hdiv Hdiag)
    as (diagBlock' & Hdiag' & Hshaped' & Hentries).
  destruct (shapedBlock_lookup diagBlock i Hshaped Hi)
    as (row & Hrow & Hlen).
  destruct (shapedBlock_lookup diagBlock' i Hshaped' Hi)
    as (row' & Hrow' & Hlen').
  destruct (diagonalEntry_spec diagBlock i Hshaped Hi)
    as (m & Hm & Hm0 & Hd & Hge).
  rewrite <- (Hde i Hi) in Hd.
  set (d := if Qclt_le_dec m threshold then 1 else m) in *.
  assert (Hd0 : 0 < d).
  { eapply Qclt_le_trans; [apply threshold_pos | exact Hge]. }
  assert (Hrows' : row' = (λ x, x * / d) <$> row).
  { apply list_eq. intros j. rewrite list_lookup_fmap.
    specialize (Hentries i j Hi).
    assert (E' : entry diagBlock' i j = row' !! j)
      by (unfold entry; by rewrite Hrow').
    assert (E0 : entry diagBlock i j = row !! j)
      by (unfold entry; by rewrite Hrow).
    rewrite E', E0, Hd in Hentries. rewrite Hentries.
    by destruct (row !! j). }
  exists matrix', f', iBlock, diagBlock, iBlock', diagBlock', m.
  split_and!; try done.
  rewrite (rowMax_foldl diagBlock' i row' Hrow' Hlen'), Hrows'.
  rewrite (rowMax_foldl diagBlock i row Hrow Hlen) in Hm.
  injection Hm as Hm. f_equal.
  replace 0 with (0 * / d) at 1 by ring.
  rewrite foldl_max_scale, Hm by (by apply Qcinv_pos).
  unfold d. destruct (Qclt_le_dec m threshold) as [Hlt|Hle].
  - replace (/ 1) with 1 by done. ring.
  - apply Qcmult_inv_r. intros ->.
    apply Qcle_not_lt in Hle. apply Hle, threshold_pos.
Qed.

End Rescale.

Section RescaleExamples.
Import AssemblerPDELab TwoBlockRows.

Lemma twoBlockRows_wellShaped : wellShaped 2 2 matrix rhs.
Proof.
  split_and!.
  - done.
  - by repeat constructor.
  - by repeat constructor.
  - intros r iBlock Hr.
    destruct r as [|[|r]]; simpl in Hr; [| |done];
      injection Hr as <-; by eexists.
Qed.

(** The system of two block rows after [assemble]: the factors are 4 and 1
    for the first block row, 1/2 and 10 for the second. *)
Example twoBlockRows_assembled :
  fractionsOf (assembled [])
  = Some ([ [ (0%nat, [[1 # 2; -1]; [0; 0]]);
              (1%nat, [[3 # 2; 1 # 4]; [3; 1]]) ];
            [ (0%nat, [[2; 2]; [1 # 10; 1 # 10]]);
              (1%nat, [[1; 1 # 2]; [1 # 2; -1]]) ] ]%Q,
          [[2; 7]; [2; 2]]%Q).
Proof. vm_compute. reflexivity. Qed.

Lemma rescale_divides_rows_witness :
  ∃ matrix' f',
    rescale 2 2 1 (λ v, v) matrix rhs = Some (matrix', f')
    ∧ length matrix' = length matrix
    ∧ length f' = length rhs
    ∧ ∀ r, (r < length matrix)%nat →
        ∃ d iBlock iBlock' fr fr',
          matrix !! r = Some iBlock ∧ matrix' !! r = Some iBlock'
          ∧ rhs !! r = Some fr ∧ f' !! r = Some fr'
          ∧ (∀ i, (i < 2)%nat → ∃ x, d i = Some x ∧ threshold ≤ x)
          ∧ rowDivided 2 2 d iBlock iBlock' fr fr'.
Proof.
  apply (rescale_divides_rows 2 2 1 (λ v, v) matrix rhs);
    [lia | apply twoBlockRows_wellShaped].
Defined.

(** Row 1 of the first diagonal block is zero and stays as it is. *)
Lemma rescale_normalises_diagonal_witness :
  ∃ matrix' f' iBlock diagBlock iBlock' diagBlock' m,
    rescale 2 2 1 (λ v, v) matrix rhs = Some (matrix', f')
    ∧ matrix !! 0%nat = Some iBlock ∧ block iBlock 0 = Some diagBlock
    ∧ matrix' !! 0%nat = Some iBlock' ∧ block iBlock' 0 = Some diagBlock'
    ∧ rowMax 2 diagBlock 1 = Some m
    ∧ rowMax 2 diagBlock' 1
      = Some (if Qclt_le_dec m threshold then m else 1).
Proof.
  apply (rescale_normalises_diagonal 2 2 1 (λ v, v) matrix rhs 0 1);
    [lia | apply twoBlockRows_wellShaped | simpl; lia | lia].
Defined.

End RescaleExamples.
